(** * Segregated-free-list allocator (labs/malloc-lab/seg_free_list_allocator/mm.c)

    A shallow embedding of the allocator engine of [mm.c] and the properties
    of its size-class index, fit search, placement, coalescing and heap
    extension.

    Conventions.
    - [size_t] and a heap word are 32 bits wide (the header keeps the size in
      bits 31..3, and the class table ends at [1 << 31]); unsigned arithmetic
      is written with its wrap-around, [wrap x = x mod 2^32].
    - A pointer is an address in [Z]; [NULL] is [0].  Pointer arithmetic
      [(char* )p + n] is plain addition on addresses.
    - The heap is a store of words indexed by byte address.
    - The build is the default one: [__HEAP_CHECK__], [__LOG_TO_STDERR__] and
      [__LIFO_ORDERING__] are not defined (they are commented out in mm.c),
      so free lists are address ordered and the diagnostic asserts are
      compiled out. *)

From Stdlib Require Import ZArith List Bool Lia.
Import ListNotations.
Local Open Scope Z_scope.

(** * The embedding *)

(** ** Machine words *)

Definition wrap (x : Z) : Z := x mod 2 ^ 32.

Definition NULL : Z := 0.

(** ** The size-class table (mm.c, [index_array])

    The C initialisers [1 << 4], ..., [1 << 31], as the [size_t] values they
    are stored as. *)

Definition index_array : list Z :=
  [ Z.shiftl 1 4;  Z.shiftl 1 5;  Z.shiftl 1 6;  Z.shiftl 1 7;  Z.shiftl 1 8;
    Z.shiftl 1 9;  Z.shiftl 1 10; Z.shiftl 1 11; Z.shiftl 1 12; Z.shiftl 1 13;
    Z.shiftl 1 14; Z.shiftl 1 15; Z.shiftl 1 16; Z.shiftl 1 17; Z.shiftl 1 18;
    Z.shiftl 1 19; Z.shiftl 1 20; Z.shiftl 1 21; Z.shiftl 1 22; Z.shiftl 1 23;
    Z.shiftl 1 24; Z.shiftl 1 25; Z.shiftl 1 26; Z.shiftl 1 27; Z.shiftl 1 28;
    Z.shiftl 1 29; Z.shiftl 1 30; Z.shiftl 1 31 ].

(** [index_arr_size = sizeof(index_array) / sizeof(index_array[0])]. *)
Definition index_arr_size : Z := Z.of_nat (length index_array).

(** [index_array[i]] for an [int] index. *)
Definition boundary (i : Z) : Z := nth (Z.to_nat i) index_array 0.

(** ** [find_index]: binary search over the class boundaries

    The [while (low < high)] loop; each iteration shrinks [high - low], so
    the loop is unrolled on a counter that starts at [index_arr_size]. *)
Fixpoint find_index_loop (n : nat) (size low high : Z) : Z :=
  match n with
  | O => low
  | S n' =>
      if low <? high then
        let mid := Z.shiftr (high + low) 1 in
        if size <? boundary mid
        then find_index_loop n' size low mid
        else find_index_loop n' size (mid + 1) high
      else low
  end.

(** [find_index(size)]: the loop from [low = 0], [high = index_arr_size],
    then [return low - 1]. *)
Definition find_index (size : Z) : Z :=
  find_index_loop (Z.to_nat index_arr_size) size 0 index_arr_size - 1.

(** The loop invariant of the search: everything left of [low] is [<= size],
    everything from [high] on is [> size]. *)
Definition search_inv (size low high : Z) : Prop :=
  0 <= low <= high /\ high <= 28 /\
  (forall i, 0 <= i < low -> boundary i <= size) /\
  (forall i, high <= i < 28 -> size < boundary i).

(** ** Block layout (mm_macros.h) *)

(** The heap: one 32-bit word per byte address. *)
Definition heap := Z -> Z.

(** Modelled from the spec: mm_macros.h is not among the sources.  [WSIZE] is
    the machine word holding a header; mm.c keeps the size in bits 31..3 of a
    header, so the word is 4 bytes. *)
Definition WSIZE : Z := 4.

(** Modelled from the spec: mm_macros.h is missing; the minimum block size is
    16 bytes (mm.c header comment, item 7; spec section 6). *)
Definition MIN_BK_SIZE : Z := 16.

(** Modelled from the spec: mm_macros.h is missing; the default extension
    chunk size is a build-time constant whose value the spec leaves open;
    the customary page-sized chunk [1 << 12] is taken. *)
Definition CHUNKSIZE : Z := Z.shiftl 1 12.

(** Modelled from the spec: mm_macros.h is missing; the allocated flag is
    bit 0 of a header (mm.c header comment, item 8). *)
Definition CURR_ALLOC : Z := 1.

(** Modelled from the spec: mm_macros.h is missing; the header is
    [size | prev_alloc_bit | alloc_bit] with bit 2 unused, so the
    previous-block-allocated flag is bit 1. *)
Definition PREV_ALLOC : Z := 2.

(** Modelled from the spec: mm_macros.h is missing; [READ_WORD(p)] reads the
    word at [p]. *)
Definition READ_WORD (m : heap) (p : Z) : Z := wrap (m p).

(** Modelled from the spec: mm_macros.h is missing; [WRITE_WORD(p, v)] stores
    the word [v] at [p]. *)
Definition WRITE_WORD (m : heap) (p v : Z) : heap :=
  fun a => if a =? p then wrap v else m a.

(** Modelled from the spec: mm_macros.h is missing; [PACK(size, alloc)] packs
    a size and the allocated flag into a header word. *)
Definition PACK (size alloc : Z) : Z := Z.lor size alloc.

(** Modelled from the spec: mm_macros.h is missing; [GET_SIZE(p)] is the
    header word without its three low bits, [READ_WORD(p) & ~0x7]. *)
Definition GET_SIZE (m : heap) (p : Z) : Z := Z.land (READ_WORD m p) (Z.lnot 7).

(** Modelled from the spec: mm_macros.h is missing; [GET_ALLOC(p)] is the
    allocated flag of the header at [p]. *)
Definition GET_ALLOC (m : heap) (p : Z) : Z := Z.land (READ_WORD m p) CURR_ALLOC.

(** Modelled from the spec: mm_macros.h is missing; [GET_PREV_ALLOC(p)] is
    the previous-block-allocated flag of the header at [p]. *)
Definition GET_PREV_ALLOC (m : heap) (p : Z) : Z :=
  Z.land (READ_WORD m p) PREV_ALLOC.

(** Modelled from the spec: mm_macros.h is missing; [SET_SIZE(p, size)]
    replaces the size and keeps the flag bits. *)
Definition SET_SIZE (m : heap) (p size : Z) : heap :=
  WRITE_WORD m p (Z.lor (Z.land (READ_WORD m p) 7) size).

(** Modelled from the spec: mm_macros.h is missing; sets the allocated flag
    and nothing else. *)
Definition SET_CURR_ALLOC_BIT (m : heap) (p : Z) : heap :=
  WRITE_WORD m p (Z.lor (READ_WORD m p) CURR_ALLOC).

(** Modelled from the spec: mm_macros.h is missing; sets the
    previous-block-allocated flag and nothing else. *)
Definition SET_PREV_ALLOC_BIT (m : heap) (p : Z) : heap :=
  WRITE_WORD m p (Z.lor (READ_WORD m p) PREV_ALLOC).

(** Modelled from the spec: mm_macros.h is missing; the header is the word
    before the payload. *)
Definition HDRP_USE_PLDP (pldp : Z) : Z := pldp - WSIZE.

(** Modelled from the spec: mm_macros.h is missing; the two link words of a
    free block follow its header, previous first (mm.c header comment,
    item 6). *)
Definition GET_PREV_PTR (m : heap) (hdrp : Z) : Z := READ_WORD m (hdrp + WSIZE).

(** Modelled from the spec: mm_macros.h is missing; see [GET_PREV_PTR]. *)
Definition GET_NEXT_PTR (m : heap) (hdrp : Z) : Z :=
  READ_WORD m (hdrp + 2 * WSIZE).

(** Modelled from the spec: mm_macros.h is missing; see [GET_PREV_PTR]. *)
Definition SET_PREV_PTR (m : heap) (hdrp v : Z) : heap :=
  WRITE_WORD m (hdrp + WSIZE) v.

(** Modelled from the spec: mm_macros.h is missing; see [GET_PREV_PTR]. *)
Definition SET_NEXT_PTR (m : heap) (hdrp v : Z) : heap :=
  WRITE_WORD m (hdrp + 2 * WSIZE) v.

(** Modelled from the spec: mm_macros.h is missing; [ALIGN(size)] rounds up to
    the block granularity of 16 bytes, in [size_t] arithmetic. *)
Definition ALIGN (size : Z) : Z :=
  Z.land (wrap (size + (MIN_BK_SIZE - 1))) (Z.lnot (MIN_BK_SIZE - 1)).

(** Modelled from the spec: mm_macros.h is missing; [ALIGN_CHUNKSIZE(size)]
    rounds up to the chunk granularity, in [size_t] arithmetic. *)
Definition ALIGN_CHUNKSIZE (size : Z) : Z :=
  Z.land (wrap (size + (CHUNKSIZE - 1))) (Z.lnot (CHUNKSIZE - 1)).

(** Modelled from the spec: mm_macros.h is missing; true when the size is a
    multiple of the minimum block size (the comment at its use in
    [place_and_split]). *)
Definition IS_ALIGN_WITH_MIN_BK_SIZE (size : Z) : bool :=
  Z.land size (MIN_BK_SIZE - 1) =? 0.

(** ** Allocator state *)

(** Names of the engine's functions, for the call log.  [forward_collect]
    and [backward_collect] are named because mm.c defines them; mm.c has no
    call of either, so no call site below logs them. *)
Inductive fn : Type :=
| Fmem_sbrk | Fextend_heap | Fcoalesce | Ffind_first_fit | Fplace_and_split
| Fforward_collect | Fbackward_collect
| Ffind_index | Finit_free_block | Finsert_into_size_class.

(** The globals of mm.c ([heap_listp], [segregated_free_list]), the heap
    owned by memlib ([mem_brk], [mem_max_addr]) and a ghost log of the calls
    made so far, latest first; a call is logged where it is made. *)
Record state : Type := mkState {
  mem : heap;
  mem_brk : Z;
  mem_max_addr : Z;
  heap_listp : Z;
  segregated_free_list : list Z;
  calls : list fn
}.

Definition set_mem (st : state) (m : heap) : state :=
  mkState m (mem_brk st) (mem_max_addr st) (heap_listp st)
          (segregated_free_list st) (calls st).

Definition set_brk (st : state) (b : Z) : state :=
  mkState (mem st) b (mem_max_addr st) (heap_listp st)
          (segregated_free_list st) (calls st).

Definition set_heap_listp (st : state) (p : Z) : state :=
  mkState (mem st) (mem_brk st) (mem_max_addr st) p
          (segregated_free_list st) (calls st).

Definition set_table (st : state) (t : list Z) : state :=
  mkState (mem st) (mem_brk st) (mem_max_addr st) (heap_listp st) t (calls st).

(** Ghost: record that [f] is entered. *)
Definition call (f : fn) (st : state) : state :=
  mkState (mem st) (mem_brk st) (mem_max_addr st) (heap_listp st)
          (segregated_free_list st) (f :: calls st).

(** How a call of an engine function ends. *)
Inductive outcome (A : Type) : Type :=
| Ret (a : A) (st : state)   (* returns [a] *)
| Aborted                      (* a failed [assert] *)
| Undef                      (* [segregated_free_list] indexed out of range *)
| OutOfFuel.                 (* the loop counter of the model ran out *)

Arguments Ret {A} a st.
Arguments Aborted {A}.
Arguments Undef {A}.
Arguments OutOfFuel {A}.

Definition bind {A B : Type} (o : outcome A) (k : A -> state -> outcome B)
  : outcome B :=
  match o with
  | Ret a st => k a st
  | Aborted => Aborted
  | Undef => Undef
  | OutOfFuel => OutOfFuel
  end.

Notation "'do' ( x , s ) <- o ; k" := (bind o (fun x s => k))
  (at level 10, x name, s name, o at level 100, k at level 200).

(** Modelled from the spec: memlib is not among the sources.  [mem_sbrk(incr)]
    grows the region by [incr] bytes and returns its old end, or fails (the C
    function returns [(void* )-1]) when the region cannot grow that far. *)
Definition mem_sbrk (st : state) (incr : Z) : option (Z * state) :=
  if mem_brk st + incr <=? mem_max_addr st
  then Some (mem_brk st, set_brk st (mem_brk st + incr))
  else None.

(** [segregated_free_list[index]], read and written. *)
Definition table_get (st : state) (index : Z) : option Z :=
  if (0 <=? index) && (index <? index_arr_size)
  then nth_error (segregated_free_list st) (Z.to_nat index)
  else None.

Fixpoint list_set (l : list Z) (n : nat) (v : Z) : list Z :=
  match l, n with
  | [], _ => []
  | _ :: t, O => v :: t
  | h :: t, S n' => h :: list_set t n' v
  end.

Definition table_set (st : state) (index v : Z) : state :=
  set_table st (list_set (segregated_free_list st) (Z.to_nat index) v).

(** ** The engine (mm.c) *)

(** [init_free_block(hdrp, bk_size)] *)
Definition init_free_block (m : heap) (hdrp bk_size : Z) : heap :=
  let m := WRITE_WORD m hdrp (PACK bk_size 0) in
  let m := WRITE_WORD m (hdrp + bk_size - WSIZE) (READ_WORD m hdrp) in
  let m := SET_PREV_PTR m hdrp NULL in
  SET_NEXT_PTR m hdrp NULL.

(** The [while] loop of [insert_into_size_class]: advance [head] while its
    successor exists and lies below [hdrp]. *)
Fixpoint insert_walk (fuel : nat) (m : heap) (head hdrp : Z) : option Z :=
  match fuel with
  | O => None
  | S n =>
      let nx := GET_NEXT_PTR m head in
      if negb (nx =? NULL) && (nx <? hdrp)
      then insert_walk n m nx hdrp
      else Some head
  end.

(** [insert_into_size_class(hdrp, index)], address ordering. *)
Definition insert_into_size_class (fuel : nat) (st : state) (hdrp index : Z)
  : outcome unit :=
  match table_get st index with
  | None => Undef
  | Some head =>
      if head =? NULL then Ret tt (table_set st index hdrp)
      else if hdrp <? head then
        let m := SET_NEXT_PTR (mem st) hdrp head in
        let m := SET_PREV_PTR m hdrp NULL in
        let m := SET_PREV_PTR m head hdrp in
        Ret tt (table_set (set_mem st m) index hdrp)
      else
        match insert_walk fuel (mem st) head hdrp with
        | None => OutOfFuel
        | Some head =>
            let m := SET_NEXT_PTR (mem st) hdrp (GET_NEXT_PTR (mem st) head) in
            let m := SET_NEXT_PTR m head hdrp in
            let m := SET_PREV_PTR m hdrp head in
            let m := if negb (GET_NEXT_PTR m hdrp =? NULL)
                     then SET_PREV_PTR m (GET_NEXT_PTR m hdrp) hdrp
                     else m in
            Ret tt (set_mem st m)
        end
  end.

(** [coalesce(pldp)]: the pointer returned and the heap left behind. *)
Definition coalesce (m : heap) (pldp : Z) : Z * heap :=
  let hdrp := HDRP_USE_PLDP pldp in
  let size := GET_SIZE m hdrp in
  let prev_alloc := GET_PREV_ALLOC m hdrp in
  let next_alloc := GET_ALLOC m (hdrp + size) in
  if negb (prev_alloc =? 0) && negb (next_alloc =? 0) then
    (pldp, m)
  else if (prev_alloc =? 0) && negb (next_alloc =? 0) then
    let prev_hdrp := hdrp - GET_SIZE m (hdrp - WSIZE) in
    let m := WRITE_WORD m prev_hdrp (READ_WORD m prev_hdrp + size) in
    let m := WRITE_WORD m (hdrp + size - WSIZE) (READ_WORD m prev_hdrp) in
    (prev_hdrp + WSIZE, m)
  else if negb (prev_alloc =? 0) && (next_alloc =? 0) then
    let next_hdrp := hdrp + size in
    let next_size := GET_SIZE m next_hdrp in
    let m := WRITE_WORD m hdrp (READ_WORD m hdrp + next_size) in
    let m := WRITE_WORD m (next_hdrp + next_size - WSIZE) (READ_WORD m hdrp) in
    (pldp, m)
  else
    let prev_size := GET_SIZE m (hdrp - WSIZE) in
    let next_hdrp := hdrp + size in
    let prev_hdrp := hdrp - prev_size in
    let next_size := GET_SIZE m next_hdrp in
    let m := WRITE_WORD m prev_hdrp (READ_WORD m prev_hdrp + size + next_size) in
    let m := WRITE_WORD m (next_hdrp + next_size - WSIZE)
                        (READ_WORD m prev_hdrp) in
    (prev_hdrp + WSIZE, m).

(** The [do ... while (b_size > 0)] loop of [find_first_fit]; [None] when the
    counter runs out. *)
Fixpoint find_first_fit_loop (fuel : nat) (m : heap) (hdrp asize : Z)
  : option Z :=
  match fuel with
  | O => None
  | S n =>
      let b_size := GET_SIZE m hdrp in
      if (asize <=? b_size) && (GET_ALLOC m hdrp =? 0)
      then Some (hdrp + WSIZE)
      else if 0 <? b_size
           then find_first_fit_loop n m (hdrp + b_size) asize
           else Some NULL
  end.

(** [find_first_fit(asize)] *)
Definition find_first_fit (fuel : nat) (st : state) (asize : Z) : outcome Z :=
  match find_first_fit_loop fuel (mem st) (heap_listp st) asize with
  | None => OutOfFuel
  | Some p => Ret p st
  end.

(** [place_and_split(pldp, asize)] *)
Definition place_and_split (m : heap) (pldp asize : Z) : heap :=
  let hdrp := HDRP_USE_PLDP pldp in
  let b_size := GET_SIZE m hdrp in
  let left_size := wrap (b_size - asize) in
  let split := negb (left_size =? 0) && IS_ALIGN_WITH_MIN_BK_SIZE left_size in
  let m :=
    if split then
      let new_free_hdrp := hdrp + asize in
      let m := WRITE_WORD m new_free_hdrp (PACK left_size 0) in
      WRITE_WORD m (new_free_hdrp + left_size - WSIZE)
                 (READ_WORD m new_free_hdrp)
    else m in
  let b_size := if split then asize else b_size in
  let m := SET_SIZE m hdrp b_size in
  let m := SET_CURR_ALLOC_BIT m hdrp in
  let next_hdrp := hdrp + b_size in
  let m := SET_PREV_ALLOC_BIT m next_hdrp in
  if GET_ALLOC m next_hdrp =? 0
  then SET_PREV_ALLOC_BIT m (next_hdrp + GET_SIZE m next_hdrp - WSIZE)
  else m.

(** [extend_heap(size)] *)
Definition extend_heap (fuel : nat) (st : state) (size : Z) : outcome Z :=
  let asize := ALIGN_CHUNKSIZE size in
  match mem_sbrk (call Fmem_sbrk st) asize with
  | None => Ret NULL (call Fmem_sbrk st)
  | Some (brk, st) =>
      let hdrp := brk - WSIZE in
      let st := call Finit_free_block st in
      let st := set_mem st (init_free_block (mem st) hdrp asize) in
      let st := call Ffind_index st in
      let index := find_index asize in
      do (_, st) <- insert_into_size_class fuel
                      (call Finsert_into_size_class st) hdrp index;
      let st := set_mem st (WRITE_WORD (mem st) (hdrp + asize)
                                       (PACK 0 CURR_ALLOC)) in
      let st := call Fcoalesce st in
      let (p, m) := coalesce (mem st) (hdrp + WSIZE) in
      Ret p (set_mem st m)
  end.

(** [mm_init()]; the result is the C [int]. *)
Definition mm_init (fuel : nat) (st : state) : outcome Z :=
  match mem_sbrk (call Fmem_sbrk st) (2 * WSIZE) with
  | None => Ret (-1) (set_heap_listp (call Fmem_sbrk st) (-1))
  | Some (p, st) =>
      let st := set_heap_listp st p in
      let st := set_mem st (WRITE_WORD (mem st) (heap_listp st)
                                       (PACK 0 CURR_ALLOC)) in
      let st := set_mem st (WRITE_WORD (mem st) (heap_listp st + WSIZE)
                                       (PACK 0 CURR_ALLOC)) in
      let st := set_heap_listp st (heap_listp st + WSIZE) in
      let st := set_table st (repeat NULL (Z.to_nat index_arr_size)) in
      do (p, st) <- extend_heap fuel (call Fextend_heap st) CHUNKSIZE;
      Ret (if p =? NULL then -1 else 0) st
  end.

(** [mm_malloc(size)] *)
Definition mm_malloc (fuel : nat) (st : state) (size : Z) : outcome Z :=
  if size =? 0 then Ret NULL st
  else
    let asize := ALIGN (wrap (size + WSIZE)) in
    do (pldp, st) <- find_first_fit fuel (call Ffind_first_fit st) asize;
    if negb (pldp =? NULL) then
      let st := call Fplace_and_split st in
      Ret pldp (set_mem st (place_and_split (mem st) pldp asize))
    else
      do (pldp, st) <- extend_heap fuel (call Fextend_heap st) asize;
      if negb (pldp =? NULL) then
        let st := call Fplace_and_split st in
        Ret pldp (set_mem st (place_and_split (mem st) pldp asize))
      else Ret NULL st.

(** [mm_free(ptr)]: the body is [assert(NULL)]. *)
Definition mm_free (st : state) (ptr : Z) : outcome unit :=
  if negb (NULL =? 0) then Ret tt st else Aborted.

(** [mm_realloc(ptr, size)]: the body is [assert(NULL)]. *)
Definition mm_realloc (st : state) (ptr size : Z) : outcome Z :=
  if negb (NULL =? 0) then Ret NULL st else Aborted.

(** The [while] loop of [forward_collect]: the block reached, the size
    collected and the heap. *)
Fixpoint forward_collect_loop (fuel : nat) (m : heap)
    (ret ftrp collected old_size target_size : Z) : option (Z * Z * heap) :=
  match fuel with
  | O => None
  | S n =>
      if (wrap (collected + old_size) <? target_size)
         && (GET_PREV_ALLOC m ret =? 0)
      then
        let next_size := GET_SIZE m (ret - WSIZE) in
        let ret := ret - next_size in
        let m := WRITE_WORD m ret (READ_WORD m ret + collected) in
        let collected := GET_SIZE m ret in
        let m := WRITE_WORD m ftrp (READ_WORD m ret) in
        forward_collect_loop n m ret ftrp collected old_size target_size
      else Some (ret, collected, m)
  end.

(** [forward_collect(hdrp, collected_size, target_size)]; the cell behind
    [collected_size] is passed in and handed back. *)
Definition forward_collect (fuel : nat) (m : heap)
    (hdrp collected_size target_size : Z) : option (Z * Z * heap) :=
  if negb (GET_PREV_ALLOC m hdrp =? 0) then Some (hdrp, collected_size, m)
  else
    let old_size := GET_SIZE m hdrp in
    let collected := GET_SIZE m (hdrp - WSIZE) in
    let ret := hdrp - collected in
    let ftrp := hdrp - WSIZE in
    forward_collect_loop fuel m ret ftrp collected old_size target_size.

(** The [while] loop of [backward_collect]. *)
Fixpoint backward_collect_loop (fuel : nat) (m : heap)
    (hdrp next_hdrp target_size : Z) : option heap :=
  match fuel with
  | O => None
  | S n =>
      if (GET_SIZE m hdrp <? target_size) && (GET_ALLOC m next_hdrp =? 0)
      then
        let next_size := GET_SIZE m next_hdrp in
        let m := WRITE_WORD m hdrp (READ_WORD m hdrp + next_size) in
        let next_hdrp := next_hdrp + next_size in
        let m := SET_PREV_ALLOC_BIT m next_hdrp in
        backward_collect_loop n m hdrp next_hdrp target_size
      else Some m
  end.

(** [backward_collect(hdrp, target_size)]; the C function has no [return]
    statement, so only its effect on the heap is kept. *)
Definition backward_collect (fuel : nat) (m : heap) (hdrp target_size : Z)
  : option heap :=
  backward_collect_loop fuel m hdrp (hdrp + GET_SIZE m hdrp) target_size.


(** ** Reading the data structures *)

(** The blocks linked from [p] through their next pointers, at most [fuel]. *)
Fixpoint class_list (fuel : nat) (m : heap) (p : Z) : list Z :=
  match fuel with
  | O => []
  | S n => if p =? NULL then [] else p :: class_list n m (GET_NEXT_PTR m p)
  end.

(** The headers on the free list of class [i]. *)
Definition class_members (fuel : nat) (st : state) (i : Z) : list Z :=
  match table_get st i with
  | Some head => class_list fuel (mem st) head
  | None => []
  end.

(** The headers on any of the 28 free lists. *)
Definition listed_blocks (fuel : nat) (st : state) : list Z :=
  flat_map (fun i => class_members fuel st (Z.of_nat i))
           (seq 0 (Z.to_nat index_arr_size)).

(** The heap walk of [find_first_fit] from [p] meets a header of size zero
    (the end padding) after [n] blocks. *)
Inductive heap_walk_ends (m : heap) : Z -> nat -> Prop :=
| walk_end p : GET_SIZE m p = 0 -> heap_walk_ends m p O
| walk_step p n :
    0 < GET_SIZE m p ->
    heap_walk_ends m (p + GET_SIZE m p) n ->
    heap_walk_ends m p (S n).

(** What the walk of [find_first_fit] from [hdrp] answers: the payload of the
    first block, in address order, that is free and of size at least
    [asize], or [NULL] when a header of size 0 comes first. *)
Inductive first_fit_walk (m : heap) (asize : Z) : Z -> Z -> Prop :=
| ffw_here hdrp :
    asize <= GET_SIZE m hdrp -> GET_ALLOC m hdrp = 0 ->
    first_fit_walk m asize hdrp (hdrp + WSIZE)
| ffw_end hdrp :
    ~ (asize <= GET_SIZE m hdrp /\ GET_ALLOC m hdrp = 0) ->
    GET_SIZE m hdrp <= 0 ->
    first_fit_walk m asize hdrp NULL
| ffw_next hdrp r :
    ~ (asize <= GET_SIZE m hdrp /\ GET_ALLOC m hdrp = 0) ->
    0 < GET_SIZE m hdrp ->
    first_fit_walk m asize (hdrp + GET_SIZE m hdrp) r ->
    first_fit_walk m asize hdrp r.

(** ** The invariants of the data model, as a check on a concrete state *)

Definition is_free (m : heap) (p : Z) : bool := GET_ALLOC m p =? 0.

(** Headers of the blocks from [p] up to the end padding. *)
Fixpoint heap_blocks (fuel : nat) (m : heap) (p : Z) : list Z :=
  match fuel with
  | O => []
  | S n =>
      if 0 <? GET_SIZE m p
      then p :: heap_blocks n m (p + GET_SIZE m p)
      else []
  end.

(** Invariants 1 to 4 along the walk from [p]: sizes are multiples of 16 and
    at least 16; no two neighbours are both free; a free block's footer has
    its header's size and a clear allocated bit; a header's previous-allocated
    bit tells whether its predecessor is allocated.  The walk must end on an
    allocated word of size 0 that is the last word below [brk]. *)
Fixpoint tags_ok (fuel : nat) (m : heap) (p : Z) (prev_free : bool) (brk : Z)
  : bool :=
  match fuel with
  | O => false
  | S n =>
      let s := GET_SIZE m p in
      Bool.eqb (GET_PREV_ALLOC m p =? 0) prev_free &&
      if s =? 0 then negb (is_free m p) && (p + WSIZE =? brk)
      else
        (16 <=? s) && (s mod 16 =? 0)
        && negb (prev_free && is_free m p)
        && (if is_free m p
            then (GET_SIZE m (p + s - WSIZE) =? s)
                 && (GET_ALLOC m (p + s - WSIZE) =? 0)
            else true)
        && tags_ok n m (p + s) (is_free m p) brk
  end.

Definition mem_Z (x : Z) (l : list Z) : bool := existsb (Z.eqb x) l.

(** Invariant 5 and the ownership rule: a free block is on the list of the
    class of its size and on no other list, and every listed header is a free
    block of the heap. *)
Definition classes_ok (fuel : nat) (st : state) : bool :=
  let blocks := heap_blocks fuel (mem st) (heap_listp st) in
  forallb (fun p =>
             if is_free (mem st) p
             then mem_Z p (class_members fuel st
                             (find_index (GET_SIZE (mem st) p)))
                  && (count_occ Z.eq_dec (listed_blocks fuel st) p =? 1)%nat
             else negb (mem_Z p (listed_blocks fuel st)))
          blocks
  && forallb (fun q => mem_Z q blocks && is_free (mem st) q)
             (listed_blocks fuel st).

(** All five invariants, with the start padding allocated and of size 0
    just before [heap_listp]. *)
Definition invariants_hold (fuel : nat) (st : state) : bool :=
  (GET_SIZE (mem st) (heap_listp st - WSIZE) =? 0)
  && negb (is_free (mem st) (heap_listp st - WSIZE))
  && tags_ok fuel (mem st) (heap_listp st) false (mem_brk st)
  && (length (segregated_free_list st) =? 28)%nat
  && classes_ok fuel st.

(** ** The fit search as the design describes it

    The spec's [find_fit(class_start, size)]: scan the list of class
    [class_start] and then of each larger class, and return the first block
    of size at least [asize].  It is used only to compare [find_first_fit]
    with. *)
Fixpoint spec_fit_in_list (m : heap) (l : list Z) (asize : Z) : option Z :=
  match l with
  | [] => None
  | hdrp :: t =>
      if asize <=? GET_SIZE m hdrp then Some hdrp
      else spec_fit_in_list m t asize
  end.

Fixpoint spec_find_fit_classes (fuel : nat) (st : state) (classes : list nat)
    (asize : Z) : option Z :=
  match classes with
  | [] => None
  | i :: t =>
      match spec_fit_in_list (mem st) (class_members fuel st (Z.of_nat i))
                             asize with
      | Some hdrp => Some hdrp
      | None => spec_find_fit_classes fuel st t asize
      end
  end.

Definition spec_find_fit (fuel : nat) (st : state) (class_start asize : Z)
  : option Z :=
  spec_find_fit_classes fuel st
    (seq (Z.to_nat class_start) (Z.to_nat (index_arr_size - class_start)))
    asize.

(** ** Concrete heaps *)

(** A heap given by its non-zero words. *)
Fixpoint heap_of (words : list (Z * Z)) : heap :=
  match words with
  | [] => fun _ => 0
  | (a, v) :: t => fun p => if p =? a then v else heap_of t p
  end.

(** A table with [hdrp] at the head of class [i], built on [t]. *)
Definition table_with (t : list Z) (i : nat) (hdrp : Z) : list Z :=
  list_set t i hdrp.

Definition empty_table : list Z := repeat NULL (Z.to_nat index_arr_size).

(** An empty region of 1 MiB starting at 4096, before [mm_init]. *)
Definition empty_region : state :=
  mkState (fun _ => 0) 4096 (4096 + 1048576) NULL [] [].

(** A heap that satisfies the invariants of the data model: the start padding
    at 4096, one free block of 4096 bytes with its header at 4100 and its
    footer at 8192, registered in class 8 ([4096 <= size < 8192]), and the
    end padding at 8196.  The region may grow to 1 MiB. *)
Definition fresh_heap : state :=
  mkState
    (heap_of [ (4096, 1);             (* start padding: PACK(0, CURR_ALLOC) *)
               (4100, 4096 + 2);      (* header: size 4096, free, prev allocated *)
               (8192, 4096 + 2);      (* footer *)
               (8196, 1) ])           (* end padding *)
    8200 (4096 + 1048576) 4100
    (table_with empty_table 8 4100) [].

(** As [fresh_heap], with a region that cannot grow. *)
Definition full_heap : state :=
  mkState (mem fresh_heap) 8200 8200 4100 (segregated_free_list fresh_heap) [].

(** A heap with two free blocks around an allocated one: a free block of 32
    bytes at 4100 (class 1), an allocated block of 16 bytes at 4132 and a
    free block of 16 bytes at 4148 (class 0). *)
Definition two_free_heap : state :=
  mkState
    (heap_of [ (4096, 1);
               (4100, 32 + 2);        (* header: size 32, free, prev allocated *)
               (4128, 32 + 2);        (* footer *)
               (4132, 16 + 1);        (* header: size 16, allocated, prev free *)
               (4148, 16 + 2);        (* header: size 16, free, prev allocated *)
               (4160, 16 + 2);        (* footer *)
               (4164, 1) ])           (* end padding *)
    4168 (4096 + 1048576) 4100
    (table_with (table_with empty_table 1 4100) 0 4148) [].

(** A heap caught between the creation of a free block and its merge: a
    free block of 32 bytes at 4100 followed by a free block of 16 bytes at
    4132, then the end padding. *)
Definition unmerged_heap : heap :=
  heap_of [ (4096, 1);
            (4100, 32 + 2);           (* header: size 32, free, prev allocated *)
            (4128, 32 + 2);           (* footer *)
            (4132, 16);               (* header: size 16, free, prev free *)
            (4144, 16);               (* footer *)
            (4148, 1) ].              (* end padding *)

(** The pointer a call returned, if it returned. *)
Definition result_ptr {A : Type} (o : outcome A) : option A :=
  match o with Ret a _ => Some a | _ => None end.

(** ** Neighbours of a block, as [coalesce] reads them *)

(** Size of the predecessor when the header at [hdrp] says it is free (read
    from the predecessor's footer), else 0. *)
Definition prev_part (m : heap) (hdrp : Z) : Z :=
  if GET_PREV_ALLOC m hdrp =? 0 then GET_SIZE m (hdrp - WSIZE) else 0.

(** Size of the successor when its header says it is free, else 0. *)
Definition next_part (m : heap) (hdrp : Z) : Z :=
  if GET_ALLOC m (hdrp + GET_SIZE m hdrp) =? 0
  then GET_SIZE m (hdrp + GET_SIZE m hdrp) else 0.

(** * The rest of mm.c *)

(** ** [mm_memcpy]

    [mm_memcpy] moves [char]s, so it is modelled on a store of bytes, one
    per address, not on the store of words. *)
Definition bytes := Z -> Z.

(** The [for] loop with [n] rounds to go: [*ddst++ = *ssrc++]. *)
Fixpoint mm_memcpy_loop (n : nat) (m : bytes) (ddst ssrc : Z) : bytes :=
  match n with
  | O => m
  | S n' =>
      mm_memcpy_loop n' (fun a => if a =? ddst then m ssrc else m a)
                     (ddst + 1) (ssrc + 1)
  end.

(** [mm_memcpy(dst, src, num)] *)
Definition mm_memcpy (m : bytes) (dst src num : Z) : bytes :=
  mm_memcpy_loop (Z.to_nat num) m dst src.

(** What the loop has established after [k] rounds, for the bytes [f] it is
    to write: the first [k] bytes of the destination are written, everything
    outside them is as in [m0]. *)
Definition copied (m0 : bytes) (dst : Z) (f : Z -> Z) (k : Z) (cur : bytes)
  : Prop :=
  (forall j, 0 <= j < k -> cur (dst + j) = f j) /\
  (forall a, ~ (dst <= a < dst + k) -> cur a = m0 a).

(** ** The test of [find_first_fit] on one block *)

(** [asize <= b_size && !GET_ALLOC(hdrp)] *)
Definition fits (m : heap) (asize hdrp : Z) : bool :=
  (asize <=? GET_SIZE m hdrp) && (GET_ALLOC m hdrp =? 0).

(** ** Free lists as lists of addresses *)

(** The nodes linked from [p] up to, and without, [q]. *)
Inductive lseg (m : heap) : Z -> Z -> list Z -> Prop :=
| lseg_nil p : lseg m p p []
| lseg_cons p q l :
    p <> NULL -> lseg m (GET_NEXT_PTR m p) q l -> lseg m p q (p :: l).

(** Insertion into a list of addresses kept in ascending order. *)
Fixpoint insert_sorted (x : Z) (l : list Z) : list Z :=
  match l with
  | [] => [x]
  | a :: t => if x <? a then x :: l else a :: insert_sorted x t
  end.

(** Ascending addresses at least a minimum block apart. *)
Fixpoint spaced (l : list Z) : Prop :=
  match l with
  | [] => True
  | a :: t =>
      match t with
      | [] => True
      | b :: _ => a + MIN_BK_SIZE <= b
      end /\ spaced t
  end.

(** [x] is at least a minimum block away from every address of [l]. *)
Definition apart (x : Z) (l : list Z) : Prop :=
  Forall (fun a => a + MIN_BK_SIZE <= x \/ x + MIN_BK_SIZE <= a) l.

(** The addresses of [l] are 32-bit addresses other than [NULL]. *)
Definition addresses (l : list Z) : Prop :=
  Forall (fun a => 0 < a < 2 ^ 32) l.

(** [insert_into_size_class(hdrp, index)] as compiled with
    [__LIFO_ORDERING__]: the block becomes the head of its list. *)
Definition insert_into_size_class_lifo (st : state) (hdrp index : Z)
  : outcome unit :=
  match table_get st index with
  | None => Undef
  | Some head =>
      let m := SET_NEXT_PTR (mem st) hdrp head in
      let m := SET_PREV_PTR m hdrp NULL in
      let m := if negb (head =? NULL) then SET_PREV_PTR m head hdrp else m in
      Ret tt (table_set (set_mem st m) index hdrp)
  end.

(** Any two addresses of [l] are equal or at least a minimum block apart. *)
Definition scattered (l : list Z) : Prop :=
  forall a b, In a l -> In b l ->
    a = b \/ a + MIN_BK_SIZE <= b \/ b + MIN_BK_SIZE <= a.

(** ** The allocation ledger of the [__HEAP_CHECK__] build (mm.c) *)

Module HeapCheck.

(** [struct HeapStruct] without its [next] field: the ledger is the list of
    its nodes in link order.  Each node is a fresh [malloc] cell reachable
    from [alloc_list] alone, so the links carry no more than the order. *)
Record HeapStruct : Type := mkHeapStruct {
  bk_head : Z;
  bk_tail : Z;
  pl_head : Z;
  pl_tail : Z;
  bk_size : Z;
  pl_size : Z;
  index : Z
}.

(** The globals the ledger functions read and write. *)
Record ledger : Type := mkLedger {
  alloc_list : list HeapStruct;
  heap_head : Z;
  heap_tail : Z
}.

(** The [while] loop of [search_list]. *)
Fixpoint search_list_loop (alist : list HeapStruct) (ptr : Z)
  : option HeapStruct :=
  match alist with
  | [] => None
  | node :: next =>
      if negb (pl_head node =? ptr) then search_list_loop next ptr
      else Some node
  end.

(** [search_list(list, ptr)]; the outer [None] is the failed [assert(ptr)],
    the inner one the [NULL] result. *)
Definition search_list (alist : list HeapStruct) (ptr : Z)
  : option (option HeapStruct) :=
  if ptr =? NULL then None else Some (search_list_loop alist ptr).

(** The [while] loop of [delete_from_list] and the unlinking after it, from
    the node [cur] on ([list] in the C text): the node found, and the list
    without it. *)
Fixpoint delete_walk (cur : HeapStruct) (next : list HeapStruct) (ptr : Z)
  : option HeapStruct * list HeapStruct :=
  match next with
  | [] => (None, [cur])
  | node :: rest =>
      if negb (pl_head node =? ptr)
      then let (ret, l) := delete_walk node rest ptr in (ret, cur :: l)
      else (Some node, cur :: rest)
  end.

(** [delete_from_list(list, ptr)], called on [alloc_list] (its one call):
    the node returned and the [alloc_list] left; [None] is the failed
    [assert(list)]. *)
Definition delete_from_list (alist : list HeapStruct) (ptr : Z)
  : option (option HeapStruct * list HeapStruct) :=
  match alist with
  | [] => None
  | node :: next =>
      if pl_head node =? ptr then Some (Some node, next)
      else Some (delete_walk node next ptr)
  end.

(** [delete_from_alloc_list(ptr)]; [None] is a failed assertion. *)
Definition delete_from_alloc_list (L : ledger) (ptr : Z) : option ledger :=
  if ptr =? NULL then None
  else
    match delete_from_list (alloc_list L) ptr with
    | None => None
    | Some (None, _) => None
    | Some (Some _, l) => Some (mkLedger l (heap_head L) (heap_tail L))
    end.

(** [addr_is_allocated(addr)] *)
Fixpoint addr_is_allocated (alist : list HeapStruct) (addr : Z) : bool :=
  match alist with
  | [] => false
  | node :: next =>
      if (bk_head node <=? addr) && (addr <? bk_tail node) then true
      else addr_is_allocated next addr
  end.

(** [addr_is_payload(addr)] *)
Fixpoint addr_is_payload (alist : list HeapStruct) (addr : Z) : bool :=
  match alist with
  | [] => false
  | node :: next =>
      if (pl_head node <=? addr) && (addr <? pl_tail node) then true
      else addr_is_payload next addr
  end.

(** [within_heap(addr)] *)
Definition within_heap (L : ledger) (addr : Z) : bool :=
  (heap_head L <=? addr) && (addr <? heap_tail L).

(** [add_to_alloc_list(ptr, pl_size, bk_size)]; [None] is a failed
    assertion.  Pointers and sizes are integers: the sums [ptr + pl_size]
    and [hdrp + bk_size] are those of the C code as long as they stay below
    [2^32]. *)
Definition add_to_alloc_list (L : ledger) (ptr pl_size bk_size : Z)
  : option ledger :=
  if ptr =? NULL then Some L
  else if addr_is_allocated (alloc_list L) ptr then None
  else
    match search_list (alloc_list L) ptr with
    | None => None
    | Some (Some _) => None
    | Some None =>
        if negb (pl_size <? bk_size) then None
        else
          let new_node :=
            mkHeapStruct (HDRP_USE_PLDP ptr) (HDRP_USE_PLDP ptr + bk_size)
                         ptr (ptr + pl_size) bk_size pl_size (-1) in
          if (pl_tail new_node - pl_head new_node =? pl_size)
             && (bk_tail new_node - bk_head new_node =? bk_size)
             && (bk_head new_node <? pl_head new_node)
             && (pl_tail new_node <=? bk_tail new_node)
             && (pl_tail new_node <? heap_tail L)
          then Some (mkLedger (new_node :: alloc_list L)
                              (heap_head L) (heap_tail L))
          else None
    end.

(** A node as the assertions of [add_to_alloc_list] leave it. *)
Definition node_ok (L : ledger) (node : HeapStruct) : Prop :=
  bk_head node = HDRP_USE_PLDP (pl_head node) /\
  bk_tail node = bk_head node + bk_size node /\
  pl_tail node = pl_head node + pl_size node /\
  pl_size node < bk_size node /\
  pl_tail node <= bk_tail node /\
  pl_tail node < heap_tail L.

(** Every node is as [add_to_alloc_list] made it and no payload pointer is
    recorded twice. *)
Definition ledger_ok (L : ledger) : Prop :=
  Forall (node_ok L) (alloc_list L) /\
  NoDup (map pl_head (alloc_list L)).

End HeapCheck.

(** ** Printing a word in hexadecimal ([__HEAP_CHECK__] build) *)

(** What one [fprintf(stderr, ...)] call of [to_hex_str] writes: the value
    given to ["%x"], the separator [" "], or the final ["\n"]. *)
Inductive printed : Type :=
| Hex (v : Z)
| Space
| Newline.

(** The [for (i = size - 4; i >= 0; i -= 4)] loop of [to_hex_str];
    [mask = (1 << 4) - 1], shifted in [size_t]. *)
Fixpoint to_hex_str_loop (n : nat) (num i sep : Z) : list printed :=
  match n with
  | O => []
  | S n' =>
      if 0 <=? i then
        let mask := Z.shiftl 1 4 - 1 in
        Hex (Z.shiftr (Z.land num (wrap (Z.shiftl mask i))) i)
        :: (if negb (sep =? 0) && (i mod 8 =? 0) then [Space] else [])
        ++ to_hex_str_loop n' num (i - 4) sep
      else []
  end.

(** [to_hex_str(num, sep)], with [size = sizeof(num) * 8 = 32]; the loop
    runs [size / 4] times. *)
Definition to_hex_str (num sep : Z) : list printed :=
  to_hex_str_loop 8 num (32 - 4) sep ++ [Newline].

(** The values given to ["%x"], in the order printed. *)
Fixpoint hex_digits (out : list printed) : list Z :=
  match out with
  | [] => []
  | Hex v :: rest => v :: hex_digits rest
  | _ :: rest => hex_digits rest
  end.

(** The number that a row of hexadecimal digits denotes, most significant
    digit first. *)
Definition hex_value (ds : list Z) : Z :=
  fold_left (fun acc d => 16 * acc + d) ds 0.

(** ** What [backward_collect] gathers, read off the heap it starts from *)

(** The walk of [backward_collect] over a heap that is not written: from a
    block of size [have] followed by the header [next], the size reached
    when the block is large enough or an allocated header is met. *)
Fixpoint collected_size (fuel : nat) (m : heap) (have next target : Z)
  : option Z :=
  match fuel with
  | O => None
  | S n =>
      if (have <? target) && (GET_ALLOC m next =? 0)
      then collected_size n m (have + GET_SIZE m next)
                          (next + GET_SIZE m next) target
      else Some have
  end.

(** ** The free blocks that [forward_collect] gathers *)

(** From the header [ret], with [c] bytes gathered so far, the walk of
    [forward_collect] over a heap that is not written stops [n] blocks lower
    at the header [ret'] with [c'] bytes gathered: each block it steps over
    is free, and the size in its footer is positive and is the size in its
    header. *)
Inductive gathers (m : heap) (old_size target_size : Z)
  : Z -> Z -> Z -> Z -> nat -> Prop :=
| gathers_stop ret c :
    ~ (c + old_size < target_size /\ GET_PREV_ALLOC m ret = 0) ->
    gathers m old_size target_size ret c ret c O
| gathers_step ret c ret' c' n :
    c + old_size < target_size ->
    GET_PREV_ALLOC m ret = 0 ->
    0 < GET_SIZE m (ret - WSIZE) ->
    GET_SIZE m (ret - GET_SIZE m (ret - WSIZE)) = GET_SIZE m (ret - WSIZE) ->
    gathers m old_size target_size
            (ret - GET_SIZE m (ret - WSIZE)) (GET_SIZE m (ret - WSIZE) + c)
            ret' c' n ->
    gathers m old_size target_size ret c ret' c' (S n).

(** A heap with two free blocks before an allocated one: free blocks of 16
    bytes at 4100 and of 32 bytes at 4116, then an allocated block of 16
    bytes at 4148 and the end padding. *)
Definition free_pair_heap : heap :=
  heap_of [ (4096, 1);
            (4100, 16 + 2);           (* header: size 16, free, prev allocated *)
            (4112, 16 + 2);           (* footer *)
            (4116, 32);               (* header: size 32, free, prev free *)
            (4144, 32);               (* footer *)
            (4148, 16 + 1);           (* header: size 16, allocated, prev free *)
            (4164, 1 + 2) ].          (* end padding *)

(** * Properties *)

(** ** Words and headers *)

Section Words.

Lemma wrap_range (x : Z) : 0 <= wrap x < 2 ^ 32.
Proof. unfold wrap. apply Z.mod_pos_bound. lia. Qed.

Lemma wrap_small (x : Z) : 0 <= x < 2 ^ 32 -> wrap x = x.
Proof. intros. unfold wrap. apply Z.mod_small. assumption. Qed.

Lemma wrap_wrap (x : Z) : wrap (wrap x) = wrap x.
Proof. apply wrap_small, wrap_range. Qed.

Lemma READ_WORD_range (m : heap) (p : Z) : 0 <= READ_WORD m p < 2 ^ 32.
Proof. apply wrap_range. Qed.

Lemma READ_WRITE_same (m : heap) (p v : Z) :
  READ_WORD (WRITE_WORD m p v) p = wrap v.
Proof.
  unfold READ_WORD, WRITE_WORD. rewrite Z.eqb_refl. apply wrap_wrap.
Qed.

Lemma READ_WRITE_other (m : heap) (p v a : Z) :
  a <> p -> READ_WORD (WRITE_WORD m p v) a = READ_WORD m a.
Proof.
  intros Hne. unfold READ_WORD, WRITE_WORD.
  destruct (Z.eqb_spec a p); [contradiction|reflexivity].
Qed.

(** Clearing the [k] low bits rounds down to a multiple of [2^k]. *)
Lemma land_lnot_ones (w k : Z) :
  0 <= k -> Z.land w (Z.lnot (Z.ones k)) = 2 ^ k * (w / 2 ^ k).
Proof.
  intros Hk.
  rewrite <- Z.ldiff_land, Z.ldiff_ones_r by assumption.
  rewrite Z.shiftl_mul_pow2, Z.shiftr_div_pow2 by assumption.
  apply Z.mul_comm.
Qed.

Lemma size_of_word (w : Z) : Z.land w (Z.lnot 7) = 8 * (w / 8).
Proof. apply (land_lnot_ones w 3). lia. Qed.

Lemma GET_SIZE_eq (m : heap) (p : Z) : GET_SIZE m p = 8 * (READ_WORD m p / 8).
Proof. unfold GET_SIZE. apply size_of_word. Qed.

Lemma GET_SIZE_range (m : heap) (p : Z) :
  0 <= GET_SIZE m p <= READ_WORD m p /\ GET_SIZE m p mod 8 = 0.
Proof.
  rewrite GET_SIZE_eq. pose proof (READ_WORD_range m p) as Hr.
  pose proof (Z.mul_div_le (READ_WORD m p) 8 ltac:(lia)).
  pose proof (Z.div_pos (READ_WORD m p) 8 ltac:(lia) ltac:(lia)).
  repeat split; try lia.
  rewrite Z.mul_comm. apply Z.mod_mul. lia.
Qed.

(** Adding a multiple of 8 to a header word adds it to the size, when the
    sum is still a 32-bit size. *)
Lemma size_after_add (w s : Z) :
  0 <= w < 2 ^ 32 -> 0 <= s -> s mod 8 = 0 -> 8 * (w / 8) + s < 2 ^ 32 ->
  Z.land (wrap (w + s)) (Z.lnot 7) = 8 * (w / 8) + s.
Proof.
  intros Hw Hs Hs8 Hsum.
  rewrite size_of_word.
  assert (Hk : s = (s / 8) * 8)
    by (pose proof (Z.div_mod s 8 ltac:(lia)); lia).
  set (k := s / 8) in *. rewrite Hk in *. clear Hk Hs8.
  assert (Hlt : w + k * 8 < 2 ^ 32).
  { pose proof (Z.mod_pos_bound w 8 ltac:(lia)).
    pose proof (Z.div_mod w 8 ltac:(lia)).
    assert (8 * (w / 8) + k * 8 <= 2 ^ 32 - 8).
    { assert (Hd : (8 | 2 ^ 32 - (8 * (w / 8) + k * 8))).
      { exists (2 ^ 29 - w / 8 - k). lia. }
      destruct Hd as [d Hd]. lia. }
    lia. }
  rewrite wrap_small by lia.
  rewrite Z.div_add by lia. lia.
Qed.

End Words.

(** ** Flag bits of a header *)

Section Bits.

Lemma wrap_lor (a b : Z) :
  0 <= a < 2 ^ 32 -> 0 <= b < 2 ^ 32 -> wrap (Z.lor a b) = Z.lor a b.
Proof.
  intros Ha Hb. unfold wrap.
  rewrite <- Z.land_ones by lia.
  rewrite Z.land_lor_distr_l, !Z.land_ones by lia.
  rewrite !Z.mod_small by assumption. reflexivity.
Qed.

Lemma lor_range (a b : Z) :
  0 <= a < 2 ^ 32 -> 0 <= b < 2 ^ 32 -> 0 <= Z.lor a b < 2 ^ 32.
Proof.
  intros Ha Hb. rewrite <- (wrap_lor a b Ha Hb). apply wrap_range.
Qed.

Lemma size_of_multiple (s : Z) : s mod 8 = 0 -> Z.land s (Z.lnot 7) = s.
Proof.
  intros Hs. rewrite size_of_word.
  pose proof (Z.div_mod s 8 ltac:(lia)). lia.
Qed.

Lemma size_of_flags (f : Z) : 0 <= f < 8 -> Z.land f (Z.lnot 7) = 0.
Proof.
  intros Hf. rewrite size_of_word, Z.div_small by assumption. reflexivity.
Qed.

Lemma size_lor_flags (w f : Z) :
  0 <= f < 8 -> Z.land (Z.lor w f) (Z.lnot 7) = Z.land w (Z.lnot 7).
Proof.
  intros Hf. rewrite Z.land_lor_distr_l, (size_of_flags f Hf).
  apply Z.lor_0_r.
Qed.

Lemma low_bits_range (w : Z) : 0 <= Z.land w 7 < 8.
Proof.
  change 7 with (Z.ones 3). rewrite Z.land_ones by lia.
  apply Z.mod_pos_bound. lia.
Qed.

Lemma alloc_of_multiple (s : Z) : s mod 8 = 0 -> Z.land s 1 = 0.
Proof.
  intros Hs. change 1 with (Z.ones 1). rewrite Z.land_ones by lia.
  change (2 ^ 1) with 2.
  pose proof (Z.div_mod s 8 ltac:(lia)).
  replace s with (0 + (4 * (s / 8)) * 2) by lia.
  rewrite Z.mod_add by lia. reflexivity.
Qed.

Lemma alloc_after_set (y : Z) : Z.land (Z.lor y 1) 1 = 1.
Proof.
  rewrite Z.land_lor_distr_l. change (Z.land 1 1) with 1.
  change 1 with (Z.ones 1) at 1. rewrite Z.land_ones by lia.
  change (2 ^ 1) with 2.
  pose proof (Z.mod_pos_bound y 2 ltac:(lia)).
  assert (H2 : y mod 2 = 0 \/ y mod 2 = 1) by lia.
  destruct H2 as [-> | ->]; reflexivity.
Qed.

Lemma alloc_lor_prev (w : Z) : Z.land (Z.lor w 2) 1 = Z.land w 1.
Proof.
  rewrite Z.land_lor_distr_l. change (Z.land 2 1) with 0. apply Z.lor_0_r.
Qed.

End Bits.

(** ** Size-class index: facts *)

Section SizeClassIndex.

Lemma index_arr_size_28 : index_arr_size = 28.
Proof. reflexivity. Qed.

Lemma boundary_pow2 (i : Z) : 0 <= i < 28 -> boundary i = 2 ^ (i + 4).
Proof.
  intros Hi.
  assert (H : exists n, i = Z.of_nat n /\ (n < 28)%nat)
    by (exists (Z.to_nat i); lia).
  destruct H as (n & -> & Hn).
  do 28 (destruct n as [|n]; [reflexivity|]).
  lia.
Qed.

Lemma boundary_mono (i j : Z) :
  0 <= i -> i <= j -> j < 28 -> boundary i <= boundary j.
Proof.
  intros. rewrite !boundary_pow2 by lia.
  apply Z.pow_le_mono_r; lia.
Qed.

Lemma shiftr1_mid (low high : Z) :
  0 <= low -> low < high ->
  low <= Z.shiftr (high + low) 1 < high.
Proof.
  intros. rewrite Z.shiftr_div_pow2 by lia.
  change (2 ^ 1) with 2.
  split.
  - apply Z.div_le_lower_bound; lia.
  - apply Z.div_lt_upper_bound; lia.
Qed.

Lemma find_index_loop_inv (n : nat) : forall size low high,
  search_inv size low high ->
  high - low <= Z.of_nat n ->
  let r := find_index_loop n size low high in
  search_inv size r r.
Proof.
  induction n as [|n IH]; intros size low high Hinv Hn; cbn zeta.
  - simpl. destruct Hinv as (H1 & H2 & H3 & H4).
    assert (low = high) by lia. subst high.
    repeat split; try lia; assumption.
  - simpl. destruct (Z.ltb_spec low high) as [Hlt|Hge].
    + destruct Hinv as (H1 & H2 & H3 & H4).
      pose proof (shiftr1_mid low high ltac:(lia) Hlt) as Hmid.
      set (mid := Z.shiftr (high + low) 1) in *.
      destruct (Z.ltb_spec size (boundary mid)) as [Hs|Hs].
      * apply IH; [|lia].
        repeat split; try lia; try assumption.
        intros i Hi.
        apply Z.lt_le_trans with (boundary mid); [assumption|].
        apply boundary_mono; lia.
      * apply IH; [|lia].
        repeat split; try lia; try assumption.
        intros i Hi.
        apply Z.le_trans with (boundary mid); [|assumption].
        apply boundary_mono; lia.
    + destruct Hinv as (H1 & H2 & H3 & H4).
      assert (low = high) by lia. subst high.
      repeat split; try lia; assumption.
Qed.

Lemma find_index_cut (size : Z) :
  let low := find_index size + 1 in
  0 <= low <= 28 /\
  (forall i, 0 <= i < low -> boundary i <= size) /\
  (forall i, low <= i < 28 -> size < boundary i).
Proof.
  cbn zeta. unfold find_index.
  pose proof (find_index_loop_inv (Z.to_nat index_arr_size) size 0 index_arr_size)
    as H.
  rewrite index_arr_size_28 in *.
  cbn zeta in H.
  destruct H as (H1 & H2 & H3 & H4).
  - repeat split; try lia.
  - lia.
  - replace (find_index_loop (Z.to_nat 28) size 0 28 - 1 + 1)
      with (find_index_loop (Z.to_nat 28) size 0 28) by lia.
    repeat split; try lia; assumption.
Qed.

End SizeClassIndex.

(** C7. For every size in [16, 2^32), [find_index] returns an index in
    [0, 27]: the greatest index whose class boundary, among the 28 ascending
    powers of two from [2^4] to [2^31], is at most the size; and [find_index]
    is monotonic. *)
Theorem find_index_greatest_class (size : Z) :
  16 <= size < 2 ^ 32 ->
  0 <= find_index size <= 27 /\
  boundary (find_index size) = 2 ^ (find_index size + 4) /\
  boundary (find_index size) <= size /\
  (forall j, 0 <= j <= 27 -> boundary j <= size -> j <= find_index size) /\
  (forall size', size < size' < 2 ^ 32 -> find_index size <= find_index size').
Proof.
  intros Hsize.
  destruct (find_index_cut size) as (Hr & Hle & Hgt).
  assert (H0 : 0 <= find_index size).
  { destruct (Z_lt_le_dec (find_index size) 0) as [Hneg|]; [|assumption].
    specialize (Hgt 0 ltac:(lia)). change (boundary 0) with 16 in Hgt. lia. }
  repeat split; try lia.
  - apply boundary_pow2; lia.
  - apply Hle; lia.
  - intros j Hj Hb.
    destruct (Z_lt_le_dec (find_index size) j) as [Hlt|]; [|assumption].
    specialize (Hgt j ltac:(lia)). lia.
  - intros size' Hs'.
    destruct (find_index_cut size') as (Hr' & Hle' & Hgt').
    destruct (Z_lt_le_dec (find_index size') (find_index size)) as [Hlt|];
      [|assumption].
    specialize (Hgt' (find_index size) ltac:(lia)).
    specialize (Hle (find_index size) ltac:(lia)). lia.
Qed.

Lemma find_index_greatest_class_witness :
  0 <= find_index 31 <= 27 /\
  boundary (find_index 31) = 2 ^ (find_index 31 + 4) /\
  boundary (find_index 31) <= 31 /\
  (forall j, 0 <= j <= 27 -> boundary j <= 31 -> j <= find_index 31) /\
  (forall size', 31 < size' < 2 ^ 32 -> find_index 31 <= find_index size').
Proof. apply (find_index_greatest_class 31); lia. Defined.

(** ** Alignment *)

Section Alignment.

Lemma ALIGN_eq (x : Z) : ALIGN x = 16 * (wrap (x + 15) / 16).
Proof.
  unfold ALIGN, MIN_BK_SIZE. change (16 - 1) with (Z.ones 4).
  rewrite land_lnot_ones by lia. reflexivity.
Qed.

Lemma ALIGN_CHUNKSIZE_eq (x : Z) :
  ALIGN_CHUNKSIZE x = 4096 * (wrap (x + 4095) / 4096).
Proof.
  unfold ALIGN_CHUNKSIZE, CHUNKSIZE.
  change (Z.shiftl 1 12 - 1) with (Z.ones 12).
  rewrite land_lnot_ones by lia. reflexivity.
Qed.

Lemma ALIGN_bounds (size : Z) :
  1 <= size <= 2 ^ 32 - 8192 ->
  16 <= ALIGN (wrap (size + WSIZE)) <= 2 ^ 32 - 4096.
Proof.
  intros Hs. unfold WSIZE. rewrite ALIGN_eq.
  rewrite (wrap_small (size + 4)) by lia.
  rewrite wrap_small by lia.
  pose proof (Z.div_mod (size + 4 + 15) 16 ltac:(lia)).
  pose proof (Z.mod_pos_bound (size + 4 + 15) 16 ltac:(lia)).
  lia.
Qed.

Lemma ALIGN_CHUNKSIZE_bounds (x : Z) :
  1 <= x <= 2 ^ 32 - 4096 ->
  4096 <= ALIGN_CHUNKSIZE x < 2 ^ 32.
Proof.
  intros Hx. rewrite ALIGN_CHUNKSIZE_eq.
  rewrite wrap_small by lia.
  pose proof (Z.div_mod (x + 4095) 4096 ltac:(lia)).
  pose proof (Z.mod_pos_bound (x + 4095) 4096 ltac:(lia)).
  lia.
Qed.


End Alignment.

(** ** Coalescing *)

(** C10. For a block whose boundary tags are consistent (the block and its
    free neighbours have size at least 16, a free predecessor's header
    mirrors its footer, and the merged run fits the 32-bit address space),
    [coalesce] conserves size in each of its four cases: the header of the
    block it returns holds the sum of the sizes of the argument block and of
    whichever neighbours were free, and the pointer returned is the payload
    of that merged block. *)
Theorem coalesce_conserves_size (m : heap) (pldp : Z) :
  let hdrp := HDRP_USE_PLDP pldp in
  16 <= GET_SIZE m hdrp ->
  (GET_PREV_ALLOC m hdrp = 0 ->
   16 <= GET_SIZE m (hdrp - WSIZE) /\
   GET_SIZE m (hdrp - GET_SIZE m (hdrp - WSIZE)) = GET_SIZE m (hdrp - WSIZE)) ->
  (GET_ALLOC m (hdrp + GET_SIZE m hdrp) = 0 ->
   16 <= GET_SIZE m (hdrp + GET_SIZE m hdrp)) ->
  prev_part m hdrp + GET_SIZE m hdrp + next_part m hdrp < 2 ^ 32 ->
  fst (coalesce m pldp) = (hdrp - prev_part m hdrp) + WSIZE /\
  GET_SIZE (snd (coalesce m pldp)) (HDRP_USE_PLDP (fst (coalesce m pldp)))
  = prev_part m hdrp + GET_SIZE m hdrp + next_part m hdrp.
Proof.
  cbn zeta. unfold prev_part, next_part, coalesce, HDRP_USE_PLDP, WSIZE.
  set (hdrp := pldp - 4).
  intros Hsz Hprev Hnext Hfit.
  pose proof (GET_SIZE_range m hdrp) as ((Hs0 & _) & Hs8).
  destruct (Z.eqb_spec (GET_PREV_ALLOC m hdrp) 0) as [Hp|Hp];
    destruct (Z.eqb_spec (GET_ALLOC m (hdrp + GET_SIZE m hdrp)) 0) as [Hn|Hn];
    cbn [negb andb fst snd].
  - (* both neighbours free *)
    destruct (Hprev Hp) as (Hps & Hph). specialize (Hnext Hn).
    pose proof (GET_SIZE_range m (hdrp + GET_SIZE m hdrp)) as (_ & Hn8).
    set (prev_size := GET_SIZE m (hdrp - 4)) in *.
    set (next_size := GET_SIZE m (hdrp + GET_SIZE m hdrp)) in *.
    split; [lia|].
    replace (hdrp - prev_size + 4 - 4) with (hdrp - prev_size) by lia.
    unfold GET_SIZE at 1.
    rewrite READ_WRITE_other by lia.
    rewrite READ_WRITE_same.
    rewrite <- Z.add_assoc.
    rewrite size_after_add.
    + rewrite <- GET_SIZE_eq. lia.
    + apply READ_WORD_range.
    + lia.
    + rewrite Z.add_mod, Hs8, Hn8 by lia. reflexivity.
    + rewrite <- GET_SIZE_eq. lia.
  - (* predecessor free, successor allocated *)
    destruct (Hprev Hp) as (Hps & Hph).
    set (prev_size := GET_SIZE m (hdrp - 4)) in *.
    split; [lia|].
    replace (hdrp - prev_size + 4 - 4) with (hdrp - prev_size) by lia.
    unfold GET_SIZE at 1.
    rewrite READ_WRITE_other by lia.
    rewrite READ_WRITE_same.
    rewrite size_after_add.
    + rewrite <- GET_SIZE_eq. lia.
    + apply READ_WORD_range.
    + lia.
    + assumption.
    + rewrite <- GET_SIZE_eq. lia.
  - (* predecessor allocated, successor free *)
    specialize (Hnext Hn).
    pose proof (GET_SIZE_range m (hdrp + GET_SIZE m hdrp)) as (_ & Hn8).
    set (next_size := GET_SIZE m (hdrp + GET_SIZE m hdrp)) in *.
    split; [lia|].
    fold hdrp.
    unfold GET_SIZE at 1.
    rewrite READ_WRITE_other by lia.
    rewrite READ_WRITE_same.
    rewrite size_after_add.
    + rewrite <- GET_SIZE_eq. lia.
    + apply READ_WORD_range.
    + lia.
    + assumption.
    + rewrite <- GET_SIZE_eq. lia.
  - (* both neighbours allocated *)
    split; [lia|]. fold hdrp. lia.
Qed.

Lemma coalesce_conserves_size_witness :
  fst (coalesce unmerged_heap 4136) = (4132 - 32) + WSIZE /\
  GET_SIZE (snd (coalesce unmerged_heap 4136))
           (HDRP_USE_PLDP (fst (coalesce unmerged_heap 4136))) = 32 + 16 + 0.
Proof.
  apply (coalesce_conserves_size unmerged_heap 4136).
  - vm_compute. discriminate.
  - intros _. split; vm_compute; [discriminate|reflexivity].
  - intros H. vm_compute in H. discriminate H.
  - vm_compute. reflexivity.
Defined.

(** ** Termination of the walks *)

Section Walks.

Lemma find_first_fit_loop_returns (m : heap) (asize : Z) (n : nat) :
  forall (p : Z) (fuel : nat),
  heap_walk_ends m p n -> (n < fuel)%nat ->
  exists r, find_first_fit_loop fuel m p asize = Some r.
Proof.
  induction n as [|n IH]; intros p fuel Hw Hf;
    (destruct fuel as [|fuel]; [lia|]); inversion Hw; subst; simpl.
  - destruct ((asize <=? GET_SIZE m p) && (GET_ALLOC m p =? 0));
      [eauto|].
    destruct (Z.ltb_spec 0 (GET_SIZE m p)); [lia|eauto].
  - destruct ((asize <=? GET_SIZE m p) && (GET_ALLOC m p =? 0));
      [eauto|].
    destruct (Z.ltb_spec 0 (GET_SIZE m p)); [|eauto].
    apply IH; [assumption|lia].
Qed.

Lemma find_first_fit_returns (fuel n : nat) (st : state) (asize : Z) :
  heap_walk_ends (mem st) (heap_listp st) n -> (n < fuel)%nat ->
  exists p, find_first_fit fuel st asize = Ret p st.
Proof.
  intros Hw Hf. unfold find_first_fit.
  destruct (find_first_fit_loop_returns (mem st) asize n _ fuel Hw Hf)
    as [r ->].
  eauto.
Qed.

End Walks.

(** ** Heap extension and allocation return *)

Section Returns.

Lemma extend_heap_sbrk_fails (fuel : nat) (st : state) (size : Z) :
  mem_max_addr st < mem_brk st + ALIGN_CHUNKSIZE size ->
  extend_heap fuel st size = Ret NULL (call Fmem_sbrk st).
Proof.
  intros Hfull. unfold extend_heap, mem_sbrk. cbn [call mem_brk mem_max_addr].
  destruct (Z.leb_spec (mem_brk st + ALIGN_CHUNKSIZE size) (mem_max_addr st));
    [lia|reflexivity].
Qed.

End Returns.

(** ** Initialisation

    [mm_init] on an empty region.  The block that [extend_heap] creates is
    written by [init_free_block] with [PACK(bk_size, 0)], so its
    previous-allocated bit is clear, and [coalesce] then merges it with what
    lies before it: the start padding, of size 0.  The block's size is added
    to its own header, which ends up at twice [CHUNKSIZE] in a region that
    holds one chunk.  The concrete states of the sections below are therefore
    built from the invariants of the data model, not by running [mm_init]. *)
Remark mm_init_header :
  exists st,
    mm_init 100 empty_region = Ret 0 st /\
    heap_listp st = 4100 /\
    mem_brk st = 4096 + 2 * WSIZE + CHUNKSIZE /\
    GET_SIZE (mem st) 4100 = 2 * CHUNKSIZE /\
    class_members 100 st 8 = [4100] /\
    invariants_hold 100 st = false.
Proof.
  eexists. split; [vm_compute; reflexivity|].
  repeat split; vm_compute; reflexivity.
Qed.

(** ** Allocation *)

Lemma table_get_In (st : state) (i head : Z) :
  table_get st i = Some head -> In head (segregated_free_list st).
Proof.
  unfold table_get.
  destruct ((0 <=? i) && (i <? index_arr_size)); [|discriminate].
  apply nth_error_In.
Qed.

(** No call of [mm_malloc] ends in a failed assertion, whatever the state,
    the size and the loop counter. *)
Lemma mm_malloc_never_aborts (fuel : nat) (st : state) (size : Z) :
  mm_malloc fuel st size <> Aborted.
Proof.
  assert (Hext : forall st0 sz, extend_heap fuel st0 sz <> Aborted).
  { intros st0 sz. unfold extend_heap, insert_into_size_class.
    destruct (mem_sbrk _ _) as [[brk st1]|]; [|discriminate].
    destruct (table_get _ _); [|discriminate].
    destruct (_ =? NULL); [cbn [bind]; destruct (coalesce _ _); discriminate|].
    destruct (_ <? _); [cbn [bind]; destruct (coalesce _ _); discriminate|].
    destruct (insert_walk _ _ _ _); [|discriminate].
    cbn [bind]. destruct (coalesce _ _). discriminate. }
  unfold mm_malloc, find_first_fit.
  destruct (size =? 0); [discriminate|].
  destruct (find_first_fit_loop _ _ _ _) as [p|]; [|discriminate].
  cbn [bind]. destruct (negb (p =? NULL)); [discriminate|].
  specialize (Hext (call Fextend_heap (call Ffind_first_fit st))
                   (ALIGN (wrap (size + WSIZE)))).
  destruct (extend_heap _ _ _) as [q st2| | |]; cbn [bind];
    try discriminate; [|contradiction].
  destruct (negb (q =? NULL)); discriminate.
Qed.

(** C6.  [mm_malloc] does not return [NULL] exactly when the size is 0 or
    when the fit search and the extension of the region both fail.  On
    [fresh_heap], which satisfies the invariants of the data model, a
    request of [2^32 - 4000] bytes finds no block, and the region, which can
    grow by 1 MiB, cannot grow by that much: the call should return [NULL].
    [mm_malloc] adjusts the size to [2^32 - 3984]; [extend_heap] rounds that
    up to the chunk granularity in 32 bits, which gives 0, so [mem_sbrk] is
    asked for 0 bytes and succeeds; [find_index(0)] is [-1] and
    [insert_into_size_class] reads [segregated_free_list[-1]], outside the
    table.  The call does not end in the [NULL] of a failed extension. *)
Theorem mm_malloc_null_not_exact :
  let size := 2 ^ 32 - 4000 in
  let asize := ALIGN (wrap (size + WSIZE)) in
  let st1 := call Ffind_first_fit fresh_heap in
  invariants_hold 100 fresh_heap = true /\
  0 < size < 2 ^ 32 /\
  asize = 2 ^ 32 - 3984 /\
  find_first_fit 3 st1 asize = Ret NULL st1 /\
  mem_max_addr fresh_heap < mem_brk fresh_heap + size /\
  ALIGN_CHUNKSIZE asize = 0 /\
  mem_sbrk (call Fmem_sbrk (call Fextend_heap st1)) (ALIGN_CHUNKSIZE asize)
  = Some (mem_brk fresh_heap,
          set_brk (call Fmem_sbrk (call Fextend_heap st1))
                  (mem_brk fresh_heap + 0)) /\
  find_index (ALIGN_CHUNKSIZE asize) = -1 /\
  table_get fresh_heap (-1) = None /\
  extend_heap 3 (call Fextend_heap st1) asize = Undef /\
  mm_malloc 3 fresh_heap size = Undef.
Proof.
  cbv zeta.
  repeat split; try (vm_compute; reflexivity); vm_compute; discriminate.
Qed.

(** ** Requests beyond the representable range *)

(** C8. The claim has a request that is too large rejected.  With
    [size = 2^32 - 1], [size + WSIZE] wraps to 3 and [ALIGN] makes it 16;
    on [fresh_heap], [mm_malloc] returns the payload 4104 of a block of 16
    bytes. *)
Theorem oversize_request_wraps :
  ALIGN (wrap (4294967295 + WSIZE)) = 16 /\
  exists st',
    mm_malloc 100 fresh_heap 4294967295 = Ret 4104 st' /\
    GET_SIZE (mem st') 4100 = 16 /\
    GET_ALLOC (mem st') 4100 = 1.
Proof.
  split; [vm_compute; reflexivity|].
  eexists. split; [vm_compute; reflexivity|].
  split; vm_compute; reflexivity.
Qed.

(** ** The fit search and the size-class table *)

(** The loop of [find_first_fit] is a first fit over all blocks in address
    order. *)
Lemma find_first_fit_loop_walk (m : heap) (asize : Z) (fuel : nat) :
  forall hdrp r,
  find_first_fit_loop fuel m hdrp asize = Some r ->
  first_fit_walk m asize hdrp r.
Proof.
  induction fuel as [|fuel IH]; intros hdrp r; simpl; [discriminate|].
  destruct (Z.leb_spec asize (GET_SIZE m hdrp)) as [Hle|Hgt];
    destruct (Z.eqb_spec (GET_ALLOC m hdrp) 0) as [Hfree|Hused];
    cbn [andb];
    try (intros [= <-]; apply ffw_here; assumption);
    (destruct (Z.ltb_spec 0 (GET_SIZE m hdrp)) as [Hpos|Hzero];
     [ intros Hloop; apply ffw_next; [lia|assumption|apply IH; exact Hloop]
     | intros [= <-]; apply ffw_end; [lia|assumption] ]).
Qed.

(** [find_first_fit] walks the heap from [heap_listp]; the table plays no
    part in its result. *)
Lemma find_first_fit_table_blind (fuel : nat) (st : state) (t : list Z)
    (asize : Z) :
  result_ptr (find_first_fit fuel (set_table st t) asize)
  = result_ptr (find_first_fit fuel st asize).
Proof.
  unfold find_first_fit. cbn [set_table mem heap_listp].
  destruct (find_first_fit_loop fuel (mem st) (heap_listp st) asize);
    reflexivity.
Qed.

(** C1. The claim has the fit search go through the size-class table.  On
    [two_free_heap], which satisfies the invariants, a request of 16 bytes
    belongs to class 0, whose list holds the fitting block at 4148; the
    search of the design returns it, while [find_first_fit] returns the
    payload 4104 of the 32-byte block at 4100, the first free block in
    address order, which is on the list of class 1.  And on the state that
    [mm_malloc(12)] leaves from [fresh_heap], [find_first_fit(16)] returns
    the payload 4120 of the block at 4116, which is on no list at all. *)
Theorem find_first_fit_bypasses_classes :
  invariants_hold 100 two_free_heap = true /\
  find_first_fit 100 two_free_heap 16 = Ret 4104 two_free_heap /\
  HDRP_USE_PLDP 4104 = 4100 /\
  find_index 16 = 0 /\
  class_members 100 two_free_heap 0 = [4148] /\
  class_members 100 two_free_heap 1 = [4100] /\
  GET_SIZE (mem two_free_heap) 4148 = 16 /\
  spec_find_fit 100 two_free_heap (find_index 16) 16 = Some 4148 /\
  exists st',
    mm_malloc 100 fresh_heap 12 = Ret 4104 st' /\
    find_first_fit 100 st' 16 = Ret 4120 st' /\
    HDRP_USE_PLDP 4120 = 4116 /\
    listed_blocks 100 st' = [4100].
Proof.
  do 8 (split; [vm_compute; reflexivity|]).
  eexists. split; [vm_compute; reflexivity|].
  repeat split; vm_compute; reflexivity.
Qed.

(** ** Placement: the split rule *)

Section Placement.

Ltac reads :=
  repeat first
    [ rewrite READ_WRITE_same
    | rewrite READ_WRITE_other by (unfold WSIZE in *; lia) ].

(** The last step of [place_and_split], marking the successor at [next],
    leaves every word more than a word below [next] alone. *)
Lemma mark_next_below (m : heap) (next p : Z) :
  p + WSIZE < next ->
  READ_WORD
    (if GET_ALLOC (SET_PREV_ALLOC_BIT m next) next =? 0
     then SET_PREV_ALLOC_BIT (SET_PREV_ALLOC_BIT m next)
            (next + GET_SIZE (SET_PREV_ALLOC_BIT m next) next - WSIZE)
     else SET_PREV_ALLOC_BIT m next) p
  = READ_WORD m p.
Proof.
  intros Hp.
  pose proof (GET_SIZE_range (SET_PREV_ALLOC_BIT m next) next) as ((Hs & _) & _).
  destruct (_ =? 0); unfold SET_PREV_ALLOC_BIT in *; reads; reflexivity.
Qed.

(** For a block of [b_size] bytes and a request of [asize <= b_size] bytes,
    both multiples of 16: the block at [hdrp] ends up allocated; with no
    remainder it keeps its size; with a remainder (then at least 16 bytes) it
    shrinks to [asize] and the remainder becomes a free block whose footer
    equals its header. *)
Lemma place_and_split_rule (m : heap) (pldp asize : Z) :
  let hdrp := HDRP_USE_PLDP pldp in
  let b_size := GET_SIZE m hdrp in
  let m' := place_and_split m pldp asize in
  0 < asize <= b_size -> asize mod 16 = 0 -> b_size mod 16 = 0 ->
  GET_ALLOC m' hdrp = 1 /\
  (b_size - asize < 16 -> GET_SIZE m' hdrp = b_size) /\
  (16 <= b_size - asize ->
     GET_SIZE m' hdrp = asize /\
     GET_SIZE m' (hdrp + asize) = b_size - asize /\
     GET_ALLOC m' (hdrp + asize) = 0 /\
     READ_WORD m' (hdrp + b_size - WSIZE) = READ_WORD m' (hdrp + asize)).
Proof.
  cbv zeta. unfold place_and_split.
  set (hdrp := HDRP_USE_PLDP pldp).
  set (b := GET_SIZE m hdrp).
  intros Ha Ha16 Hb16.
  pose proof (GET_SIZE_range m hdrp) as ((Hb0 & Hbw) & Hb8).
  fold b in Hb0, Hbw, Hb8.
  pose proof (READ_WORD_range m hdrp) as Hw.
  assert (Ha8 : asize mod 8 = 0).
  { pose proof (Z.div_mod asize 16 ltac:(lia)).
    replace asize with (0 + (2 * (asize / 16)) * 8) by lia.
    rewrite Z.mod_add by lia. reflexivity. }
  assert (Ha_ge : 16 <= asize).
  { pose proof (Z.div_mod asize 16 ltac:(lia)). lia. }
  assert (Hleft : wrap (b - asize) = b - asize) by (apply wrap_small; lia).
  assert (Hleft16 : (b - asize) mod 16 = 0).
  { rewrite Zminus_mod, Hb16, Ha16. reflexivity. }
  rewrite Hleft.
  assert (Halign : IS_ALIGN_WITH_MIN_BK_SIZE (b - asize) = true).
  { unfold IS_ALIGN_WITH_MIN_BK_SIZE, MIN_BK_SIZE.
    change (16 - 1) with (Z.ones 4). rewrite Z.land_ones by lia.
    change (2 ^ 4) with 16. rewrite Hleft16. reflexivity. }
  rewrite Halign, andb_true_r.
  assert (Hhdr : forall (m0 : heap) (s : Z),
             0 <= s < 2 ^ 32 -> s mod 8 = 0 ->
             let w := READ_WORD (SET_CURR_ALLOC_BIT (SET_SIZE m0 hdrp s) hdrp)
                                hdrp in
             Z.land w CURR_ALLOC = 1 /\ Z.land w (Z.lnot 7) = s).
  { intros m0 s Hs Hs8. cbv zeta.
    unfold SET_CURR_ALLOC_BIT, SET_SIZE, CURR_ALLOC. reads.
    pose proof (low_bits_range (READ_WORD m0 hdrp)) as Hlow.
    rewrite (wrap_lor (Z.land (READ_WORD m0 hdrp) 7) s) by lia.
    pose proof (lor_range (Z.land (READ_WORD m0 hdrp) 7) s
                  ltac:(lia) ltac:(lia)) as Hl.
    rewrite wrap_lor by lia.
    split; [apply alloc_after_set|].
    rewrite size_lor_flags by lia.
    rewrite Z.land_lor_distr_l, size_of_flags, size_of_multiple
      by assumption.
    reflexivity. }
  destruct (Z.eqb_spec (b - asize) 0) as [Hz|Hnz]; cbn [negb];
    match goal with
    | |- context [if ?c then ?x else ?y] => set (m' := if c then x else y)
    end.
  - (* no remainder: the whole block is taken *)
    destruct (Hhdr m b ltac:(lia) Hb8) as (Hal & Hsz).
    assert (Hkeep : READ_WORD m' hdrp
                    = READ_WORD (SET_CURR_ALLOC_BIT (SET_SIZE m hdrp b) hdrp)
                                hdrp).
    { subst m'. apply mark_next_below. unfold WSIZE. lia. }
    unfold GET_ALLOC, GET_SIZE. rewrite Hkeep.
    split; [exact Hal|]. split; [intros _; exact Hsz|]. lia.
  - (* a remainder of at least 16 bytes: split *)
    assert (Hrem : 16 <= b - asize).
    { pose proof (Z.div_mod (b - asize) 16 ltac:(lia)). lia. }
    assert (Hrem8 : (b - asize) mod 8 = 0).
    { rewrite Zminus_mod, Hb8, Ha8. reflexivity. }
    subst m'.
    match goal with
    | |- context [SET_SIZE ?x hdrp asize] => set (m2 := x)
    end.
    set (m4 := SET_CURR_ALLOC_BIT (SET_SIZE m2 hdrp asize) hdrp).
    set (m5 := SET_PREV_ALLOC_BIT m4 (hdrp + asize)).
    assert (H2n : READ_WORD m2 (hdrp + asize) = b - asize).
    { subst m2. reads. unfold PACK. rewrite Z.lor_0_r. apply wrap_small. lia. }
    assert (H2f : READ_WORD m2 (hdrp + asize + (b - asize) - WSIZE)
                  = b - asize).
    { subst m2. reads. unfold PACK. rewrite Z.lor_0_r, wrap_wrap.
      apply wrap_small. lia. }
    assert (H5n : READ_WORD m5 (hdrp + asize) = Z.lor (b - asize) 2).
    { subst m5 m4. unfold SET_PREV_ALLOC_BIT, SET_CURR_ALLOC_BIT, SET_SIZE,
        PREV_ALLOC. reads. rewrite H2n. apply wrap_lor; lia. }
    assert (H5f : READ_WORD m5 (hdrp + asize + (b - asize) - WSIZE)
                  = b - asize).
    { subst m5 m4. unfold SET_PREV_ALLOC_BIT, SET_CURR_ALLOC_BIT, SET_SIZE.
      reads. exact H2f. }
    assert (Hfree : GET_ALLOC m5 (hdrp + asize) = 0).
    { unfold GET_ALLOC, CURR_ALLOC. rewrite H5n, alloc_lor_prev.
      apply alloc_of_multiple. exact Hrem8. }
    assert (Hsz5 : GET_SIZE m5 (hdrp + asize) = b - asize).
    { unfold GET_SIZE. rewrite H5n, size_lor_flags by lia.
      apply size_of_multiple. exact Hrem8. }
    rewrite Hfree, Hsz5. change (0 =? 0) with true. cbv iota.
    destruct (Hhdr m2 asize ltac:(lia) Ha8) as (Hal & Hsz). fold m4 in Hal, Hsz.
    assert (Hh : READ_WORD (SET_PREV_ALLOC_BIT m5
                              (hdrp + asize + (b - asize) - WSIZE)) hdrp
                 = READ_WORD m4 hdrp).
    { subst m5. unfold SET_PREV_ALLOC_BIT. reads. reflexivity. }
    assert (Hn : READ_WORD (SET_PREV_ALLOC_BIT m5
                              (hdrp + asize + (b - asize) - WSIZE))
                           (hdrp + asize)
                 = Z.lor (b - asize) 2).
    { unfold SET_PREV_ALLOC_BIT at 1. reads. exact H5n. }
    assert (Hf : READ_WORD (SET_PREV_ALLOC_BIT m5
                              (hdrp + asize + (b - asize) - WSIZE))
                           (hdrp + b - WSIZE)
                 = Z.lor (b - asize) 2).
    { replace (hdrp + b - WSIZE) with (hdrp + asize + (b - asize) - WSIZE)
        by lia.
      unfold SET_PREV_ALLOC_BIT at 1, PREV_ALLOC. reads. rewrite H5f.
      apply wrap_lor; lia. }
    unfold GET_ALLOC, GET_SIZE. rewrite Hh, Hn, Hf.
    split; [exact Hal|]. split; [lia|]. intros _.
    split; [exact Hsz|].
    split; [rewrite size_lor_flags by lia; apply size_of_multiple;
            exact Hrem8|].
    split; [|reflexivity].
    unfold CURR_ALLOC. rewrite alloc_lor_prev.
    apply alloc_of_multiple. exact Hrem8.
Qed.

End Placement.


Lemma place_and_split_rule_witness :
  GET_ALLOC (place_and_split (mem fresh_heap) 4104 16) (HDRP_USE_PLDP 4104) = 1 /\
  (GET_SIZE (mem fresh_heap) (HDRP_USE_PLDP 4104) - 16 < 16 ->
   GET_SIZE (place_and_split (mem fresh_heap) 4104 16) (HDRP_USE_PLDP 4104)
   = GET_SIZE (mem fresh_heap) (HDRP_USE_PLDP 4104)) /\
  (16 <= GET_SIZE (mem fresh_heap) (HDRP_USE_PLDP 4104) - 16 ->
   GET_SIZE (place_and_split (mem fresh_heap) 4104 16) (HDRP_USE_PLDP 4104)
   = 16 /\
   GET_SIZE (place_and_split (mem fresh_heap) 4104 16)
            (HDRP_USE_PLDP 4104 + 16)
   = GET_SIZE (mem fresh_heap) (HDRP_USE_PLDP 4104) - 16 /\
   GET_ALLOC (place_and_split (mem fresh_heap) 4104 16)
             (HDRP_USE_PLDP 4104 + 16) = 0 /\
   READ_WORD (place_and_split (mem fresh_heap) 4104 16)
             (HDRP_USE_PLDP 4104
              + GET_SIZE (mem fresh_heap) (HDRP_USE_PLDP 4104) - WSIZE)
   = READ_WORD (place_and_split (mem fresh_heap) 4104 16)
               (HDRP_USE_PLDP 4104 + 16)).
Proof.
  apply (place_and_split_rule (mem fresh_heap) 4104 16).
  - vm_compute. split; [reflexivity|discriminate].
  - reflexivity.
  - vm_compute. reflexivity.
Defined.

(** ** Splitting *)

(** C5. The claim has the remainder of a split inserted into its size class.
    On [fresh_heap], [place_and_split(4104, 16)] (the call [mm_malloc(12)]
    makes) splits the 4096-byte block as [place_and_split_rule] says:
    the block at 4100 becomes an allocated block of 16 bytes and the
    remainder at 4116 a free block of 4080 bytes whose footer at 8192 equals
    its header; 4080 bytes is class 7, but the list of class 7 is empty and
    the only listed block is 4100. *)
Theorem split_remainder_not_registered :
  invariants_hold 100 fresh_heap = true /\
  let st' := set_mem fresh_heap (place_and_split (mem fresh_heap) 4104 16) in
  GET_SIZE (mem st') 4100 = 16 /\
  GET_ALLOC (mem st') 4100 = 1 /\
  GET_SIZE (mem st') 4116 = 4080 /\
  is_free (mem st') 4116 = true /\
  READ_WORD (mem st') 8192 = READ_WORD (mem st') 4116 /\
  find_index 4080 = 7 /\
  class_members 100 st' 7 = [] /\
  listed_blocks 100 st' = [4100].
Proof.
  repeat split; vm_compute; reflexivity.
Qed.

(** ** Placement and the size-class table *)

(** When the fit search succeeds, [mm_malloc] leaves the table as it was:
    the only step after the search is [place_and_split], which works on the
    heap words alone. *)
Lemma mm_malloc_fit_keeps_table (fuel : nat) (st st1 : state) (size p : Z) :
  size <> 0 ->
  find_first_fit fuel (call Ffind_first_fit st) (ALIGN (wrap (size + WSIZE)))
  = Ret p st1 ->
  p <> NULL ->
  exists st', mm_malloc fuel st size = Ret p st' /\
              segregated_free_list st' = segregated_free_list st.
Proof.
  intros Hsize Hfind Hp. unfold mm_malloc.
  destruct (Z.eqb_spec size 0); [contradiction|].
  rewrite Hfind. cbn [bind].
  destruct (Z.eqb_spec p NULL); [contradiction|]. cbn [negb].
  eexists. split; [reflexivity|].
  unfold find_first_fit in Hfind.
  destruct (find_first_fit_loop _ _ _ _); [|discriminate].
  injection Hfind as _ <-. reflexivity.
Qed.

(** C2. The claim has a block unlinked from its free list when it stops
    being free.  On [fresh_heap], which satisfies the invariants,
    [mm_malloc(12)], a request of 16 bytes with its header, is placed in the
    block at 4100: afterwards that block is allocated and still the head of
    the list of class 8, and the free remainder at 4116 is on no list.  And
    when [extend_heap(4112)] merges the block it appends at 8196 into the
    free block at 4100, 8196 stays listed although the only block of the
    heap is then the one at 4100. *)
Theorem placed_block_stays_listed :
  invariants_hold 100 fresh_heap = true /\
  (exists st',
     mm_malloc 100 fresh_heap 12 = Ret 4104 st' /\
     GET_ALLOC (mem st') 4100 = 1 /\
     class_members 100 st' 8 = [4100] /\
     GET_SIZE (mem st') 4116 = 4080 /\
     is_free (mem st') 4116 = true /\
     listed_blocks 100 st' = [4100] /\
     invariants_hold 100 st' = false) /\
  (exists st',
     extend_heap 100 fresh_heap 4112 = Ret 4104 st' /\
     heap_blocks 100 (mem st') (heap_listp st') = [4100] /\
     listed_blocks 100 st' = [4100; 8196]).
Proof.
  split; [vm_compute; reflexivity|]. split.
  - eexists. split; [vm_compute; reflexivity|].
    repeat split; vm_compute; reflexivity.
  - eexists. split; [vm_compute; reflexivity|].
    split; vm_compute; reflexivity.
Qed.

(** ** Release and reallocation *)

Lemma mm_free_aborts (st : state) (ptr : Z) : mm_free st ptr = Aborted.
Proof. reflexivity. Qed.

Lemma mm_realloc_aborts (st : state) (ptr size : Z) :
  mm_realloc st ptr size = Aborted.
Proof. reflexivity. Qed.

(** C3. The claim has [mm_free] and [mm_realloc] work on every handle that
    [mm_malloc] returned.  On the handle 4104 returned by [mm_malloc(12)] on
    [fresh_heap], both end in the failed assertion [assert(NULL)]. *)
Theorem release_and_reallocate_abort :
  exists st',
    mm_malloc 100 fresh_heap 12 = Ret 4104 st' /\
    mm_free st' 4104 = Aborted /\
    mm_realloc st' 4104 32 = Aborted.
Proof.
  eexists. split; [vm_compute; reflexivity|].
  split; reflexivity.
Qed.

(** ** Heap extension *)

(** The table that [extend_heap] leaves is the one that
    [insert_into_size_class] made for the appended block, at its own address
    and in the class of its own size, before [coalesce] ran. *)
Lemma extend_heap_table_before_merge (fuel : nat) (st st' st1 : state)
    (size brk p : Z) :
  mem_sbrk (call Fmem_sbrk st) (ALIGN_CHUNKSIZE size) = Some (brk, st1) ->
  extend_heap fuel st size = Ret p st' ->
  exists st2,
    insert_into_size_class fuel
      (call Finsert_into_size_class
         (call Ffind_index
            (set_mem (call Finit_free_block st1)
               (init_free_block (mem st1) (brk - WSIZE)
                                (ALIGN_CHUNKSIZE size)))))
      (brk - WSIZE) (find_index (ALIGN_CHUNKSIZE size)) = Ret tt st2 /\
    segregated_free_list st' = segregated_free_list st2.
Proof.
  intros Hsbrk. unfold extend_heap. rewrite Hsbrk.
  cbn [call set_mem mem].
  destruct (insert_into_size_class _ _ _ _) as [[] st2| | |];
    cbn [bind]; try discriminate.
  destruct (coalesce _ _) as [q m]. intros [= _ <-].
  exists st2. split; reflexivity.
Qed.

(** C4. The claim has the merged block registered, after the merge, in the
    class of its merged size.  On [fresh_heap], [extend_heap(4112)] (the call
    [mm_malloc(4108)] makes) appends 8192 bytes at 8196, registers that new
    block in class 9 and only then coalesces: the merged block has its header
    at 4100 and 12288 bytes, which is class 9, but the list of class 9 holds
    8196, an address inside the merged block, and 4100 is still on the list
    of class 8. *)
Theorem extension_registers_before_merge :
  invariants_hold 100 fresh_heap = true /\
  ALIGN (wrap (4108 + WSIZE)) = 4112 /\
  exists st',
    extend_heap 100 fresh_heap 4112 = Ret 4104 st' /\
    heap_blocks 100 (mem st') (heap_listp st') = [4100] /\
    GET_SIZE (mem st') 4100 = 12288 /\
    is_free (mem st') 4100 = true /\
    find_index 12288 = 9 /\
    class_members 100 st' 9 = [8196] /\
    class_members 100 st' 8 = [4100] /\
    invariants_hold 100 st' = false.
Proof.
  split; [vm_compute; reflexivity|].
  split; [vm_compute; reflexivity|].
  eexists. split; [vm_compute; reflexivity|].
  repeat split; vm_compute; reflexivity.
Qed.

(** ** The collect helpers *)



(** * The rest of mm.c: properties *)

(** ** [mm_memcpy] *)

Section Memcpy.

Lemma mm_memcpy_loop_inv (m0 : bytes) (dst src num : Z) (f : Z -> Z) :
  (forall k cur, 0 <= k < num -> copied m0 dst f k cur ->
                 cur (src + k) = f k) ->
  forall (n : nat) (k : Z) (cur : bytes),
  0 <= k -> k + Z.of_nat n <= num ->
  copied m0 dst f k cur ->
  copied m0 dst f (k + Z.of_nat n)
         (mm_memcpy_loop n cur (dst + k) (src + k)).
Proof.
  intros Hread. induction n as [|n IH]; intros k cur Hk Hn Hinv.
  - simpl. rewrite Z.add_0_r. exact Hinv.
  - cbn [mm_memcpy_loop].
    replace (k + Z.of_nat (S n)) with ((k + 1) + Z.of_nat n) by lia.
    replace (dst + k + 1) with (dst + (k + 1)) by lia.
    replace (src + k + 1) with (src + (k + 1)) by lia.
    apply IH; [lia|lia|].
    pose proof (Hread k cur ltac:(lia) Hinv) as Hsrc.
    destruct Hinv as (Hdone & Hrest). split.
    + intros j Hj. destruct (Z.eqb_spec (dst + j) (dst + k)) as [E|E].
      * replace j with k by lia. exact Hsrc.
      * apply Hdone. lia.
    + intros a Ha. destruct (Z.eqb_spec a (dst + k)) as [E|E]; [lia|].
      apply Hrest. lia.
Qed.

Lemma copied_start (m0 : bytes) (dst : Z) (f : Z -> Z) : copied m0 dst f 0 m0.
Proof. split; [intros j Hj; lia|intros; reflexivity]. Qed.

End Memcpy.

(** X1. [mm_memcpy] copies [num] bytes and writes nothing outside the
    destination, when the destination starts at or below the source or the
    source ends before the destination starts. *)
Theorem mm_memcpy_copies (m : bytes) (dst src num : Z) :
  0 <= num -> dst <= src \/ src + num <= dst ->
  (forall i, 0 <= i < num -> mm_memcpy m dst src num (dst + i) = m (src + i))
  /\
  (forall a, ~ (dst <= a < dst + num) -> mm_memcpy m dst src num a = m a).
Proof.
  intros Hnum Hpos.
  pose proof (mm_memcpy_loop_inv m dst src num (fun j => m (src + j))) as H.
  specialize (H ltac:(intros k cur Hk (_ & Hrest); apply Hrest; lia)
                (Z.to_nat num) 0 m ltac:(lia) ltac:(lia)
                (copied_start m dst _)).
  rewrite Z2Nat.id, !Z.add_0_r, Z.add_0_l in H by lia. exact H.
Qed.

Lemma mm_memcpy_copies_witness :
  (forall i, 0 <= i < 4 ->
     mm_memcpy (fun a => a) 10 12 4 (10 + i) = (fun a => a) (12 + i)) /\
  (forall a, ~ (10 <= a < 10 + 4) ->
     mm_memcpy (fun a => a) 10 12 4 a = (fun a => a) a).
Proof. apply (mm_memcpy_copies (fun a => a) 10 12 4); lia. Defined.

(** X2. When the destination starts inside the source, the forward copy reads
    bytes it has already written: the destination ends up holding the first
    [dst - src] bytes of the source, repeated. *)
Theorem mm_memcpy_overlap (m : bytes) (dst src num : Z) :
  src < dst < src + num ->
  forall i, 0 <= i < num ->
  mm_memcpy m dst src num (dst + i) = m (src + i mod (dst - src)).
Proof.
  intros Hov.
  pose proof (mm_memcpy_loop_inv m dst src num
                (fun j => m (src + j mod (dst - src)))) as H.
  assert (Hread : forall k cur, 0 <= k < num ->
            copied m dst (fun j => m (src + j mod (dst - src))) k cur ->
            cur (src + k) = m (src + k mod (dst - src))).
  { intros k cur Hk (Hdone & Hrest).
    destruct (Z_lt_le_dec k (dst - src)) as [Hlt|Hge].
    - rewrite Z.mod_small by lia. apply Hrest. lia.
    - replace (src + k) with (dst + (k - (dst - src))) by lia.
      rewrite Hdone by lia. cbv beta.
      replace k with ((k - (dst - src)) + 1 * (dst - src)) at 2 by lia.
      rewrite Z.mod_add by lia. reflexivity. }
  specialize (H Hread (Z.to_nat num) 0 m ltac:(lia) ltac:(lia)
                (copied_start m dst _)).
  rewrite Z2Nat.id, !Z.add_0_r, Z.add_0_l in H by lia.
  exact (proj1 H).
Qed.

Lemma mm_memcpy_overlap_witness :
  mm_memcpy (fun a => a) 12 10 5 (12 + 3) = (fun a => a) (10 + 3 mod (12 - 10)).
Proof. apply (mm_memcpy_overlap (fun a => a) 12 10 5); lia. Defined.

(** ** [find_first_fit]: a first fit over the blocks in address order *)

Section FirstFit.

Lemma find_first_fit_loop_find (m : heap) (asize : Z) (n : nat) :
  0 < asize ->
  forall (p : Z) (fuel : nat),
  heap_walk_ends m p n -> (n < fuel)%nat ->
  find_first_fit_loop fuel m p asize
  = Some match find (fits m asize) (heap_blocks fuel m p) with
         | Some hdrp => hdrp + WSIZE
         | None => NULL
         end.
Proof.
  intros Hasize. induction n as [|n IH]; intros p fuel Hw Hf;
    (destruct fuel as [|fuel]; [lia|]); inversion Hw; subst;
    cbn [find_first_fit_loop heap_blocks].
  - match goal with H : GET_SIZE m p = 0 |- _ => rewrite H end.
    destruct (Z.leb_spec asize 0); [lia|]. reflexivity.
  - destruct (Z.ltb_spec 0 (GET_SIZE m p)); [|lia].
    cbn [find]. unfold fits at 1.
    destruct ((asize <=? GET_SIZE m p) && (GET_ALLOC m p =? 0));
      [reflexivity|].
    apply IH; [assumption|lia].
Qed.

Lemma heap_blocks_from (m : heap) (fuel : nat) :
  forall p hdrp, In hdrp (heap_blocks fuel m p) -> p <= hdrp.
Proof.
  induction fuel as [|fuel IH]; intros p hdrp; cbn [heap_blocks];
    [intros []|].
  destruct (Z.ltb_spec 0 (GET_SIZE m p)); [|intros []].
  intros [<-|Hin]; [lia|]. apply IH in Hin. lia.
Qed.

End FirstFit.

(** X3. On a heap whose walk reaches the end padding, [find_first_fit] returns,
    leaves the state as it is, and answers the payload of the first block in
    address order that is free and holds at least [asize] bytes, or [NULL]
    when no block qualifies. *)
Theorem find_first_fit_first_block (fuel n : nat) (st : state) (asize : Z) :
  0 < asize ->
  heap_walk_ends (mem st) (heap_listp st) n -> (n < fuel)%nat ->
  find_first_fit fuel st asize
  = Ret match find (fits (mem st) asize)
                   (heap_blocks fuel (mem st) (heap_listp st)) with
        | Some hdrp => hdrp + WSIZE
        | None => NULL
        end st.
Proof.
  intros Hasize Hw Hf. unfold find_first_fit.
  rewrite (find_first_fit_loop_find (mem st) asize n Hasize _ fuel Hw Hf).
  reflexivity.
Qed.

Lemma find_first_fit_first_block_witness :
  find_first_fit 100 two_free_heap 16
  = Ret match find (fits (mem two_free_heap) 16)
                   (heap_blocks 100 (mem two_free_heap)
                                (heap_listp two_free_heap)) with
        | Some hdrp => hdrp + WSIZE
        | None => NULL
        end two_free_heap.
Proof.
  apply (find_first_fit_first_block 100 3 two_free_heap 16); [lia| |lia].
  do 3 (apply walk_step; [vm_compute; reflexivity|]).
  apply walk_end. vm_compute. reflexivity.
Defined.

(** ** [mm_malloc]: a request served by the fit search *)

Section MallocFit.

Lemma ALIGN_multiple (x : Z) : ALIGN x mod 16 = 0.
Proof.
  rewrite ALIGN_eq, Z.mul_comm. apply Z.mod_mul. lia.
Qed.

Lemma ALIGN_covers (size : Z) :
  1 <= size <= 2 ^ 32 - 8192 -> size + WSIZE <= ALIGN (wrap (size + WSIZE)).
Proof.
  intros Hs. unfold WSIZE. rewrite ALIGN_eq.
  rewrite (wrap_small (size + 4)) by lia.
  rewrite wrap_small by lia.
  pose proof (Z.div_mod (size + 4 + 15) 16 ltac:(lia)).
  pose proof (Z.mod_pos_bound (size + 4 + 15) 16 ltac:(lia)).
  lia.
Qed.

End MallocFit.

(** X4. When the heap has a free block that holds the aligned request,
    [mm_malloc] hands out the first such block without growing the region:
    the block is then marked allocated, it holds at least [size] bytes after
    its header, and the break and the size-class table are as before.  Block
    sizes are multiples of 16; addresses are not negative. *)
Theorem mm_malloc_serves_from_heap (fuel n : nat) (st : state)
    (size hdrp : Z) :
  1 <= size <= 2 ^ 32 - 8192 ->
  0 <= heap_listp st ->
  heap_walk_ends (mem st) (heap_listp st) n -> (n < fuel)%nat ->
  find (fits (mem st) (ALIGN (wrap (size + WSIZE))))
       (heap_blocks fuel (mem st) (heap_listp st)) = Some hdrp ->
  GET_SIZE (mem st) hdrp mod 16 = 0 ->
  exists st',
    mm_malloc fuel st size = Ret (hdrp + WSIZE) st' /\
    GET_ALLOC (mem st') hdrp = 1 /\
    size + WSIZE <= GET_SIZE (mem st') hdrp <= GET_SIZE (mem st) hdrp /\
    mem_brk st' = mem_brk st /\
    segregated_free_list st' = segregated_free_list st.
Proof.
  intros Hsize Hbase Hwalk Hfuel Hfind H16.
  pose proof (find_some _ _ Hfind) as (Hin & Hfits).
  apply heap_blocks_from in Hin.
  unfold fits in Hfits. apply andb_prop in Hfits.
  destruct Hfits as (Hle%Z.leb_le & Hfree%Z.eqb_eq).
  pose proof (ALIGN_bounds size Hsize) as Ha.
  pose proof (ALIGN_covers size Hsize) as Hcov.
  set (asize := ALIGN (wrap (size + WSIZE))) in *.
  unfold mm_malloc. destruct (Z.eqb_spec size 0); [lia|]. fold asize.
  unfold find_first_fit. cbn [call mem heap_listp].
  rewrite (find_first_fit_loop_find (mem st) asize n ltac:(lia) _ fuel
             Hwalk Hfuel), Hfind.
  cbn [bind]. unfold NULL at 1, WSIZE at 1.
  destruct (Z.eqb_spec (hdrp + 4) 0); [lia|]. cbn [negb].
  eexists. split; [reflexivity|]. cbn [mem set_mem call mem_brk
                                        segregated_free_list].
  pose proof (place_and_split_rule (mem st) (hdrp + WSIZE) asize) as Hrule.
  cbv zeta in Hrule. unfold HDRP_USE_PLDP in Hrule.
  replace (hdrp + WSIZE - WSIZE) with hdrp in Hrule by lia.
  destruct Hrule as (Halloc & Hwhole & Hsplit);
    [lia|apply ALIGN_multiple|exact H16|].
  split; [exact Halloc|]. split; [|split; reflexivity].
  destruct (Z_lt_le_dec (GET_SIZE (mem st) hdrp - asize) 16) as [Hlt|Hge].
  - rewrite (Hwhole Hlt). lia.
  - destruct (Hsplit Hge) as (-> & _). lia.
Qed.

Lemma mm_malloc_serves_from_heap_witness :
  exists st',
    mm_malloc 100 fresh_heap 12 = Ret (4100 + WSIZE) st' /\
    GET_ALLOC (mem st') 4100 = 1 /\
    12 + WSIZE <= GET_SIZE (mem st') 4100 <= GET_SIZE (mem fresh_heap) 4100 /\
    mem_brk st' = mem_brk fresh_heap /\
    segregated_free_list st' = segregated_free_list fresh_heap.
Proof.
  apply (mm_malloc_serves_from_heap 100 1 fresh_heap 12 4100).
  - lia.
  - vm_compute. discriminate.
  - apply walk_step; [vm_compute; reflexivity|].
    apply walk_end. vm_compute. reflexivity.
  - lia.
  - vm_compute. reflexivity.
  - vm_compute. reflexivity.
Defined.

(** X23. A failed extension surfaces as [NULL]: when no block on the heap walk
    is free and large enough for the adjusted size, and the region cannot
    grow by that size rounded to the chunk granularity, [mm_malloc] returns
    [NULL] without a store: heap, break, [heap_listp] and the size-class
    table are as before. *)
Theorem mm_malloc_extension_failure (fuel n : nat) (st : state) (size : Z) :
  let asize := ALIGN (wrap (size + WSIZE)) in
  1 <= size <= 2 ^ 32 - 20 ->
  heap_walk_ends (mem st) (heap_listp st) n -> (n < fuel)%nat ->
  find (fits (mem st) asize) (heap_blocks fuel (mem st) (heap_listp st))
  = None ->
  mem_max_addr st < mem_brk st + ALIGN_CHUNKSIZE asize ->
  exists st',
    mm_malloc fuel st size = Ret NULL st' /\
    mem st' = mem st /\
    mem_brk st' = mem_brk st /\
    heap_listp st' = heap_listp st /\
    segregated_free_list st' = segregated_free_list st.
Proof.
  intros asize Hsize Hwalk Hfuel Hfind Hfull.
  assert (Hpos : 0 < asize).
  { unfold asize, WSIZE. rewrite ALIGN_eq.
    rewrite (wrap_small (size + 4)) by lia.
    rewrite (wrap_small (size + 4 + 15)) by lia.
    pose proof (Z.div_mod (size + 4 + 15) 16 ltac:(lia)).
    pose proof (Z.mod_pos_bound (size + 4 + 15) 16 ltac:(lia)). lia. }
  unfold mm_malloc. destruct (Z.eqb_spec size 0); [lia|]. fold asize.
  unfold find_first_fit. cbn [call mem heap_listp].
  rewrite (find_first_fit_loop_find (mem st) asize n Hpos _ fuel Hwalk Hfuel),
    Hfind.
  cbn [bind]. change (negb (NULL =? NULL)) with false. cbv iota.
  rewrite extend_heap_sbrk_fails by exact Hfull.
  cbn [bind]. change (negb (NULL =? NULL)) with false. cbv iota.
  eexists. split; [reflexivity|]. repeat split.
Qed.

Lemma mm_malloc_extension_failure_witness :
  exists st',
    mm_malloc 100 full_heap 5000 = Ret NULL st' /\
    mem st' = mem full_heap /\
    mem_brk st' = mem_brk full_heap /\
    heap_listp st' = heap_listp full_heap /\
    segregated_free_list st' = segregated_free_list full_heap.
Proof.
  apply (mm_malloc_extension_failure 100 1 full_heap 5000).
  - lia.
  - apply walk_step; [vm_compute; reflexivity|].
    apply walk_end. vm_compute. reflexivity.
  - lia.
  - vm_compute. reflexivity.
  - vm_compute. reflexivity.
Defined.

(** ** [place_and_split]: what it writes and what it leaves *)

Section PlacementEffect.

Ltac reads' :=
  repeat first
    [ rewrite READ_WRITE_same
    | rewrite READ_WRITE_other by (unfold WSIZE in *; lia) ].

Lemma land_lor_same (y f : Z) : Z.land (Z.lor y f) f = f.
Proof.
  apply Z.bits_inj'. intros n Hn. rewrite Z.land_spec, Z.lor_spec.
  destruct (Z.testbit f n);
    [rewrite orb_true_r; reflexivity|apply andb_false_r].
Qed.

Lemma prev_of_multiple (s : Z) : s mod 8 = 0 -> Z.land s 2 = 0.
Proof.
  intros Hs. change 2 with (Z.land 7 2). rewrite Z.land_assoc.
  change 7 with (Z.ones 3). rewrite Z.land_ones by lia.
  change (2 ^ 3) with 8. rewrite Hs. reflexivity.
Qed.

(** The header that [SET_SIZE] and [SET_CURR_ALLOC_BIT] leave keeps the
    previous-allocated bit of the header they found. *)
Lemma placed_header_prev (w s : Z) :
  s mod 8 = 0 ->
  Z.land (Z.lor (Z.lor (Z.land w 7) s) 1) 2 = Z.land w 2.
Proof.
  intros Hs. rewrite !Z.land_lor_distr_l, (prev_of_multiple s Hs).
  change (Z.land 1 2) with 0. rewrite !Z.lor_0_r, <- Z.land_assoc.
  reflexivity.
Qed.

Lemma mod16_mod8 (x : Z) : x mod 16 = 0 -> x mod 8 = 0.
Proof.
  intros H. pose proof (Z.div_mod x 16 ltac:(lia)).
  replace x with (0 + (2 * (x / 16)) * 8) by lia.
  rewrite Z.mod_add by lia. reflexivity.
Qed.

(** The words [place_and_split] leaves: the placed header, the header of the
    block that follows the placed block, and every word it does not own. *)
Lemma place_and_split_words (m : heap) (pldp asize : Z) :
  let hdrp := HDRP_USE_PLDP pldp in
  let b_size := GET_SIZE m hdrp in
  let m' := place_and_split m pldp asize in
  let placed := if b_size - asize <? 16 then b_size else asize in
  0 < asize <= b_size -> asize mod 16 = 0 -> b_size mod 16 = 0 ->
  (GET_ALLOC m (hdrp + b_size) = 0 -> 0 < GET_SIZE m (hdrp + b_size)) ->
  READ_WORD m' hdrp
  = Z.lor (Z.lor (Z.land (READ_WORD m hdrp) 7) placed) 1 /\
  Z.land (READ_WORD m' (hdrp + placed)) 2 = 2 /\
  (forall a, a <> hdrp -> a < hdrp + asize -> READ_WORD m' a = READ_WORD m a).
Proof.
  cbv zeta. unfold place_and_split.
  set (hdrp := HDRP_USE_PLDP pldp).
  set (b := GET_SIZE m hdrp).
  intros Ha Ha16 Hb16 Hnext.
  pose proof (GET_SIZE_range m hdrp) as ((Hb0 & Hbw) & Hb8).
  fold b in Hb0, Hbw, Hb8.
  pose proof (READ_WORD_range m hdrp) as Hw.
  pose proof (mod16_mod8 asize Ha16) as Ha8.
  assert (Ha_ge : 16 <= asize).
  { pose proof (Z.div_mod asize 16 ltac:(lia)). lia. }
  assert (Hleft : wrap (b - asize) = b - asize) by (apply wrap_small; lia).
  assert (Hleft16 : (b - asize) mod 16 = 0).
  { rewrite Zminus_mod, Hb16, Ha16. reflexivity. }
  rewrite Hleft.
  assert (Halign : IS_ALIGN_WITH_MIN_BK_SIZE (b - asize) = true).
  { unfold IS_ALIGN_WITH_MIN_BK_SIZE, MIN_BK_SIZE.
    change (16 - 1) with (Z.ones 4). rewrite Z.land_ones by lia.
    change (2 ^ 4) with 16. rewrite Hleft16. reflexivity. }
  rewrite Halign, andb_true_r.
  assert (Hhdr : forall (m0 : heap) (s : Z),
             0 <= s < 2 ^ 32 ->
             READ_WORD (SET_CURR_ALLOC_BIT (SET_SIZE m0 hdrp s) hdrp) hdrp
             = Z.lor (Z.lor (Z.land (READ_WORD m0 hdrp) 7) s) 1).
  { intros m0 s Hs.
    unfold SET_CURR_ALLOC_BIT, SET_SIZE, CURR_ALLOC. reads'.
    pose proof (low_bits_range (READ_WORD m0 hdrp)) as Hlow.
    rewrite (wrap_lor (Z.land (READ_WORD m0 hdrp) 7) s) by lia.
    pose proof (lor_range (Z.land (READ_WORD m0 hdrp) 7) s
                  ltac:(lia) ltac:(lia)) as Hl.
    apply wrap_lor; lia. }
  destruct (Z.eqb_spec (b - asize) 0) as [Hz|Hnz]; cbn [negb].
  - (* the whole block is taken *)
    destruct (Z.ltb_spec (b - asize) 16) as [_|]; [|lia].
    set (m4 := SET_CURR_ALLOC_BIT (SET_SIZE m hdrp b) hdrp).
    assert (H4next : READ_WORD m4 (hdrp + b) = READ_WORD m (hdrp + b)).
    { subst m4. unfold SET_CURR_ALLOC_BIT, SET_SIZE. reads'. reflexivity. }
    pose proof (READ_WORD_range m4 (hdrp + b)) as Hnr.
    assert (H5 : READ_WORD (SET_PREV_ALLOC_BIT m4 (hdrp + b)) (hdrp + b)
                 = Z.lor (READ_WORD m (hdrp + b)) 2).
    { unfold SET_PREV_ALLOC_BIT, PREV_ALLOC. reads'. rewrite H4next in *.
      apply wrap_lor; lia. }
    assert (Hsz5 : GET_SIZE (SET_PREV_ALLOC_BIT m4 (hdrp + b)) (hdrp + b)
                   = GET_SIZE m (hdrp + b)).
    { unfold GET_SIZE. rewrite H5. apply size_lor_flags. lia. }
    assert (Hal5 : GET_ALLOC (SET_PREV_ALLOC_BIT m4 (hdrp + b)) (hdrp + b)
                   = GET_ALLOC m (hdrp + b)).
    { unfold GET_ALLOC, CURR_ALLOC. rewrite H5. apply alloc_lor_prev. }
    pose proof (GET_SIZE_range m (hdrp + b)) as ((Hs0 & _) & Hs8).
    split; [|split].
    + rewrite mark_next_below by (unfold WSIZE; lia). apply Hhdr. lia.
    + rewrite Hal5, Hsz5.
      destruct (Z.eqb_spec (GET_ALLOC m (hdrp + b)) 0) as [Hfree|Hused].
      * specialize (Hnext Hfree).
        assert (8 <= GET_SIZE m (hdrp + b)).
        { pose proof (Z.div_mod (GET_SIZE m (hdrp + b)) 8 ltac:(lia)). lia. }
        unfold SET_PREV_ALLOC_BIT at 1. reads'. rewrite H5.
        apply land_lor_same.
      * rewrite H5. apply land_lor_same.
    + intros a Hne Hlt. rewrite Hal5, Hsz5.
      destruct (Z.eqb_spec (GET_ALLOC m (hdrp + b)) 0) as [Hfree|Hused].
      * specialize (Hnext Hfree).
        assert (8 <= GET_SIZE m (hdrp + b)).
        { pose proof (Z.div_mod (GET_SIZE m (hdrp + b)) 8 ltac:(lia)). lia. }
        unfold SET_PREV_ALLOC_BIT. subst m4.
        unfold SET_CURR_ALLOC_BIT, SET_SIZE. reads'. reflexivity.
      * unfold SET_PREV_ALLOC_BIT. subst m4.
        unfold SET_CURR_ALLOC_BIT, SET_SIZE. reads'. reflexivity.
  - (* split *)
    assert (Hrem : 16 <= b - asize).
    { pose proof (Z.div_mod (b - asize) 16 ltac:(lia)). lia. }
    destruct (Z.ltb_spec (b - asize) 16) as [|_]; [lia|].
    pose proof (mod16_mod8 _ Hleft16) as Hrem8.
    match goal with
    | |- context [SET_SIZE ?x hdrp asize] => set (m2 := x)
    end.
    set (m4 := SET_CURR_ALLOC_BIT (SET_SIZE m2 hdrp asize) hdrp).
    set (m5 := SET_PREV_ALLOC_BIT m4 (hdrp + asize)).
    assert (H2n : READ_WORD m2 (hdrp + asize) = b - asize).
    { subst m2. reads'. unfold PACK. rewrite Z.lor_0_r. apply wrap_small.
      lia. }
    assert (H2h : READ_WORD m2 hdrp = READ_WORD m hdrp).
    { subst m2. reads'. reflexivity. }
    assert (H5n : READ_WORD m5 (hdrp + asize) = Z.lor (b - asize) 2).
    { subst m5 m4. unfold SET_PREV_ALLOC_BIT, SET_CURR_ALLOC_BIT, SET_SIZE,
        PREV_ALLOC. reads'. rewrite H2n. apply wrap_lor; lia. }
    assert (Hfree : GET_ALLOC m5 (hdrp + asize) = 0).
    { unfold GET_ALLOC, CURR_ALLOC. rewrite H5n, alloc_lor_prev.
      apply alloc_of_multiple. exact Hrem8. }
    assert (Hsz5 : GET_SIZE m5 (hdrp + asize) = b - asize).
    { unfold GET_SIZE. rewrite H5n, size_lor_flags by lia.
      apply size_of_multiple. exact Hrem8. }
    rewrite Hfree, Hsz5. change (0 =? 0) with true. cbv iota.
    split; [|split].
    + unfold SET_PREV_ALLOC_BIT at 1. subst m5.
      unfold SET_PREV_ALLOC_BIT at 1. reads'.
      fold m4. subst m4. rewrite Hhdr by lia. rewrite H2h. reflexivity.
    + unfold SET_PREV_ALLOC_BIT at 1. reads'. rewrite H5n.
      apply land_lor_same.
    + intros a Hne Hlt. unfold SET_PREV_ALLOC_BIT at 1. subst m5.
      unfold SET_PREV_ALLOC_BIT at 1. subst m4.
      unfold SET_CURR_ALLOC_BIT, SET_SIZE. subst m2. reads'. reflexivity.
Qed.

End PlacementEffect.

(** X5. [place_and_split] on a block of [b_size] bytes for an aligned request of
    [asize <= b_size] bytes, both multiples of 16: the block ends up
    allocated; it keeps its size when nothing is left over, and otherwise
    shrinks to [asize] while the rest becomes a free block of
    [b_size - asize] bytes whose footer equals its header. *)
Theorem place_and_split_sizes (m : heap) (pldp asize : Z) :
  let hdrp := HDRP_USE_PLDP pldp in
  let b_size := GET_SIZE m hdrp in
  let m' := place_and_split m pldp asize in
  0 < asize <= b_size -> asize mod 16 = 0 -> b_size mod 16 = 0 ->
  GET_ALLOC m' hdrp = 1 /\
  GET_SIZE m' hdrp = (if b_size =? asize then b_size else asize) /\
  (asize < b_size ->
   16 <= b_size - asize /\
   GET_SIZE m' (hdrp + asize) = b_size - asize /\
   GET_ALLOC m' (hdrp + asize) = 0 /\
   READ_WORD m' (hdrp + b_size - WSIZE) = READ_WORD m' (hdrp + asize)).
Proof.
  cbv zeta. intros Ha Ha16 Hb16.
  destruct (place_and_split_rule m pldp asize Ha Ha16 Hb16)
    as (Halloc & Hwhole & Hsplit).
  assert (Hrem : asize < GET_SIZE m (HDRP_USE_PLDP pldp) ->
                 16 <= GET_SIZE m (HDRP_USE_PLDP pldp) - asize).
  { intros Hlt.
    assert (H16 : (GET_SIZE m (HDRP_USE_PLDP pldp) - asize) mod 16 = 0)
      by (rewrite Zminus_mod, Hb16, Ha16; reflexivity).
    pose proof (Z.div_mod (GET_SIZE m (HDRP_USE_PLDP pldp) - asize) 16
                  ltac:(lia)).
    lia. }
  split; [exact Halloc|]. split.
  - destruct (Z.eqb_spec (GET_SIZE m (HDRP_USE_PLDP pldp)) asize) as [E|E].
    + apply Hwhole. lia.
    + apply Hsplit. apply Hrem. lia.
  - intros Hlt. specialize (Hrem Hlt). split; [exact Hrem|].
    apply Hsplit. exact Hrem.
Qed.

Lemma place_and_split_sizes_witness :
  GET_ALLOC (place_and_split (mem fresh_heap) 4104 16) (HDRP_USE_PLDP 4104)
  = 1 /\
  GET_SIZE (place_and_split (mem fresh_heap) 4104 16) (HDRP_USE_PLDP 4104)
  = (if GET_SIZE (mem fresh_heap) (HDRP_USE_PLDP 4104) =? 16
     then GET_SIZE (mem fresh_heap) (HDRP_USE_PLDP 4104) else 16) /\
  (16 < GET_SIZE (mem fresh_heap) (HDRP_USE_PLDP 4104) ->
   16 <= GET_SIZE (mem fresh_heap) (HDRP_USE_PLDP 4104) - 16 /\
   GET_SIZE (place_and_split (mem fresh_heap) 4104 16)
            (HDRP_USE_PLDP 4104 + 16)
   = GET_SIZE (mem fresh_heap) (HDRP_USE_PLDP 4104) - 16 /\
   GET_ALLOC (place_and_split (mem fresh_heap) 4104 16)
             (HDRP_USE_PLDP 4104 + 16) = 0 /\
   READ_WORD (place_and_split (mem fresh_heap) 4104 16)
             (HDRP_USE_PLDP 4104
              + GET_SIZE (mem fresh_heap) (HDRP_USE_PLDP 4104) - WSIZE)
   = READ_WORD (place_and_split (mem fresh_heap) 4104 16)
               (HDRP_USE_PLDP 4104 + 16)).
Proof.
  apply (place_and_split_sizes (mem fresh_heap) 4104 16).
  - vm_compute. split; [reflexivity|discriminate].
  - reflexivity.
  - vm_compute. reflexivity.
Defined.

(** X6. What [place_and_split] does around the placed block, under the same
    conditions and with a successor that, if free, has a size: the placed
    header keeps its previous-allocated bit; the header of the block that
    follows the placed block gets its previous-allocated bit set; and no
    word below the placed header, and no word of the [asize] bytes handed
    out other than the header, is written. *)
Theorem place_and_split_neighbours (m : heap) (pldp asize : Z) :
  let hdrp := HDRP_USE_PLDP pldp in
  let b_size := GET_SIZE m hdrp in
  let m' := place_and_split m pldp asize in
  0 < asize <= b_size -> asize mod 16 = 0 -> b_size mod 16 = 0 ->
  (GET_ALLOC m (hdrp + b_size) = 0 -> 0 < GET_SIZE m (hdrp + b_size)) ->
  GET_PREV_ALLOC m' hdrp = GET_PREV_ALLOC m hdrp /\
  GET_PREV_ALLOC m' (hdrp + GET_SIZE m' hdrp) = PREV_ALLOC /\
  (forall a, a <> hdrp -> a < hdrp + asize -> READ_WORD m' a = READ_WORD m a).
Proof.
  cbv zeta. intros Ha Ha16 Hb16 Hnext.
  destruct (place_and_split_words m pldp asize Ha Ha16 Hb16 Hnext)
    as (Hhdr & Hsucc & Hframe).
  destruct (place_and_split_rule m pldp asize Ha Ha16 Hb16)
    as (_ & Hwhole & Hsplit).
  set (hdrp := HDRP_USE_PLDP pldp) in *.
  set (b := GET_SIZE m hdrp) in *.
  assert (Hplaced : GET_SIZE (place_and_split m pldp asize) hdrp
                    = if b - asize <? 16 then b else asize).
  { destruct (Z.ltb_spec (b - asize) 16) as [Hlt|Hge];
      [apply Hwhole; exact Hlt|apply Hsplit; exact Hge]. }
  split; [|split; [|exact Hframe]].
  - unfold GET_PREV_ALLOC, PREV_ALLOC. rewrite Hhdr.
    apply placed_header_prev.
    destruct (b - asize <? 16).
    + pose proof (GET_SIZE_range m hdrp) as (_ & H8). exact H8.
    + apply mod16_mod8. exact Ha16.
  - rewrite Hplaced. unfold GET_PREV_ALLOC, PREV_ALLOC. exact Hsucc.
Qed.

Lemma place_and_split_neighbours_witness :
  GET_PREV_ALLOC (place_and_split (mem fresh_heap) 4104 16)
                 (HDRP_USE_PLDP 4104)
  = GET_PREV_ALLOC (mem fresh_heap) (HDRP_USE_PLDP 4104) /\
  GET_PREV_ALLOC (place_and_split (mem fresh_heap) 4104 16)
    (HDRP_USE_PLDP 4104
     + GET_SIZE (place_and_split (mem fresh_heap) 4104 16)
                (HDRP_USE_PLDP 4104)) = PREV_ALLOC /\
  (forall a, a <> HDRP_USE_PLDP 4104 -> a < HDRP_USE_PLDP 4104 + 16 ->
     READ_WORD (place_and_split (mem fresh_heap) 4104 16) a
     = READ_WORD (mem fresh_heap) a).
Proof.
  apply (place_and_split_neighbours (mem fresh_heap) 4104 16).
  - vm_compute. split; [reflexivity|discriminate].
  - reflexivity.
  - vm_compute. reflexivity.
  - intros H. vm_compute in H. discriminate H.
Defined.

(** ** [coalesce]: the two words it writes *)

Section CoalesceTags.

Lemma word_add_fits (w s : Z) :
  0 <= w < 2 ^ 32 -> 0 <= s -> s mod 8 = 0 -> 8 * (w / 8) + s < 2 ^ 32 ->
  wrap (w + s) = w + s.
Proof.
  intros Hw Hs Hs8 Hsum. apply wrap_small.
  pose proof (Z.mod_pos_bound w 8 ltac:(lia)).
  pose proof (Z.div_mod w 8 ltac:(lia)).
  pose proof (Z.div_mod s 8 ltac:(lia)).
  assert (Hd : (8 | 2 ^ 32 - (8 * (w / 8) + s))).
  { exists (2 ^ 29 - w / 8 - s / 8). lia. }
  destruct Hd as [d Hd]. lia.
Qed.

Lemma flags_after_add (w s : Z) :
  0 <= w < 2 ^ 32 -> 0 <= s -> s mod 8 = 0 -> 8 * (w / 8) + s < 2 ^ 32 ->
  Z.land (wrap (w + s)) 7 = Z.land w 7.
Proof.
  intros Hw Hs Hs8 Hsum. rewrite word_add_fits by assumption.
  change 7 with (Z.ones 3). rewrite !Z.land_ones by lia.
  change (2 ^ 3) with 8.
  rewrite Z.add_mod, Hs8, Z.add_0_r, Z.mod_mod by lia. reflexivity.
Qed.

End CoalesceTags.

(** X7. Under the conditions of [coalesce_conserves_size], [coalesce] writes two
    words at most, the header and the footer of the merged block: every
    other word is as before, the merged header keeps the three flag bits of
    the header it was built on, and after a merge the footer of the merged
    block equals its header. *)
Theorem coalesce_tags (m : heap) (pldp : Z) :
  let hdrp := HDRP_USE_PLDP pldp in
  let merged := HDRP_USE_PLDP (fst (coalesce m pldp)) in
  let total := prev_part m hdrp + GET_SIZE m hdrp + next_part m hdrp in
  let m' := snd (coalesce m pldp) in
  16 <= GET_SIZE m hdrp ->
  (GET_PREV_ALLOC m hdrp = 0 ->
   16 <= GET_SIZE m (hdrp - WSIZE) /\
   GET_SIZE m (hdrp - GET_SIZE m (hdrp - WSIZE)) = GET_SIZE m (hdrp - WSIZE)) ->
  (GET_ALLOC m (hdrp + GET_SIZE m hdrp) = 0 ->
   16 <= GET_SIZE m (hdrp + GET_SIZE m hdrp)) ->
  total < 2 ^ 32 ->
  (forall a, a <> merged -> a <> merged + total - WSIZE ->
     READ_WORD m' a = READ_WORD m a) /\
  Z.land (READ_WORD m' merged) 7 = Z.land (READ_WORD m merged) 7 /\
  (GET_PREV_ALLOC m hdrp = 0 \/ GET_ALLOC m (hdrp + GET_SIZE m hdrp) = 0 ->
   READ_WORD m' (merged + total - WSIZE) = READ_WORD m' merged).
Proof.
  cbn zeta. unfold prev_part, next_part, coalesce, HDRP_USE_PLDP, WSIZE.
  set (hdrp := pldp - 4).
  intros Hsz Hprev Hnext Hfit.
  pose proof (GET_SIZE_range m hdrp) as ((Hs0 & _) & Hs8).
  destruct (Z.eqb_spec (GET_PREV_ALLOC m hdrp) 0) as [Hp|Hp];
    destruct (Z.eqb_spec (GET_ALLOC m (hdrp + GET_SIZE m hdrp)) 0) as [Hn|Hn];
    cbn [negb andb fst snd].
  - (* both neighbours free *)
    destruct (Hprev Hp) as (Hps & Hph). specialize (Hnext Hn).
    pose proof (GET_SIZE_range m (hdrp + GET_SIZE m hdrp)) as (_ & Hn8).
    set (prev_size := GET_SIZE m (hdrp - 4)) in *.
    set (next_size := GET_SIZE m (hdrp + GET_SIZE m hdrp)) in *.
    replace (hdrp - prev_size + 4 - 4) with (hdrp - prev_size) by lia.
    replace (hdrp - prev_size + (prev_size + GET_SIZE m hdrp + next_size) - 4)
      with (hdrp + GET_SIZE m hdrp + next_size - 4) by lia.
    split; [|split].
    + intros a Ha1 Ha2. rewrite !READ_WRITE_other by lia. reflexivity.
    + rewrite READ_WRITE_other by lia. rewrite READ_WRITE_same.
      rewrite <- Z.add_assoc. apply flags_after_add.
      * apply READ_WORD_range.
      * lia.
      * rewrite Z.add_mod, Hs8, Hn8 by lia. reflexivity.
      * rewrite <- GET_SIZE_eq. lia.
    + intros _.
      repeat first [ rewrite READ_WRITE_same
                   | rewrite READ_WRITE_other by lia ].
      rewrite ?wrap_wrap. reflexivity.
  - (* predecessor free, successor allocated *)
    destruct (Hprev Hp) as (Hps & Hph).
    set (prev_size := GET_SIZE m (hdrp - 4)) in *.
    replace (hdrp - prev_size + 4 - 4) with (hdrp - prev_size) by lia.
    replace (hdrp - prev_size + (prev_size + GET_SIZE m hdrp + 0) - 4)
      with (hdrp + GET_SIZE m hdrp - 4) by lia.
    split; [|split].
    + intros a Ha1 Ha2. rewrite !READ_WRITE_other by lia. reflexivity.
    + rewrite READ_WRITE_other by lia. rewrite READ_WRITE_same.
      apply flags_after_add.
      * apply READ_WORD_range.
      * lia.
      * assumption.
      * rewrite <- GET_SIZE_eq. lia.
    + intros _.
      repeat first [ rewrite READ_WRITE_same
                   | rewrite READ_WRITE_other by lia ].
      rewrite ?wrap_wrap. reflexivity.
  - (* predecessor allocated, successor free *)
    specialize (Hnext Hn).
    pose proof (GET_SIZE_range m (hdrp + GET_SIZE m hdrp)) as (_ & Hn8).
    set (next_size := GET_SIZE m (hdrp + GET_SIZE m hdrp)) in *.
    fold hdrp.
    replace (hdrp + (0 + GET_SIZE m hdrp + next_size) - 4)
      with (hdrp + GET_SIZE m hdrp + next_size - 4) by lia.
    split; [|split].
    + intros a Ha1 Ha2. rewrite !READ_WRITE_other by lia. reflexivity.
    + rewrite READ_WRITE_other by lia. rewrite READ_WRITE_same.
      apply flags_after_add.
      * apply READ_WORD_range.
      * lia.
      * assumption.
      * rewrite <- GET_SIZE_eq. lia.
    + intros _.
      repeat first [ rewrite READ_WRITE_same
                   | rewrite READ_WRITE_other by lia ].
      rewrite ?wrap_wrap. reflexivity.
  - (* both neighbours allocated *)
    fold hdrp. split; [reflexivity|]. split; [reflexivity|].
    intros [H|H]; contradiction.
Qed.

Lemma coalesce_tags_witness :
  (forall a,
     a <> HDRP_USE_PLDP (fst (coalesce unmerged_heap 4136)) ->
     a <> HDRP_USE_PLDP (fst (coalesce unmerged_heap 4136))
          + (prev_part unmerged_heap (HDRP_USE_PLDP 4136)
             + GET_SIZE unmerged_heap (HDRP_USE_PLDP 4136)
             + next_part unmerged_heap (HDRP_USE_PLDP 4136)) - WSIZE ->
     READ_WORD (snd (coalesce unmerged_heap 4136)) a
     = READ_WORD unmerged_heap a) /\
  Z.land (READ_WORD (snd (coalesce unmerged_heap 4136))
                    (HDRP_USE_PLDP (fst (coalesce unmerged_heap 4136)))) 7
  = Z.land (READ_WORD unmerged_heap
                      (HDRP_USE_PLDP (fst (coalesce unmerged_heap 4136)))) 7
  /\
  (GET_PREV_ALLOC unmerged_heap (HDRP_USE_PLDP 4136) = 0 \/
   GET_ALLOC unmerged_heap
     (HDRP_USE_PLDP 4136 + GET_SIZE unmerged_heap (HDRP_USE_PLDP 4136)) = 0 ->
   READ_WORD (snd (coalesce unmerged_heap 4136))
     (HDRP_USE_PLDP (fst (coalesce unmerged_heap 4136))
      + (prev_part unmerged_heap (HDRP_USE_PLDP 4136)
         + GET_SIZE unmerged_heap (HDRP_USE_PLDP 4136)
         + next_part unmerged_heap (HDRP_USE_PLDP 4136)) - WSIZE)
   = READ_WORD (snd (coalesce unmerged_heap 4136))
               (HDRP_USE_PLDP (fst (coalesce unmerged_heap 4136)))).
Proof.
  apply (coalesce_tags unmerged_heap 4136).
  - vm_compute. discriminate.
  - intros _. split; vm_compute; [discriminate|reflexivity].
  - intros H. vm_compute in H. discriminate H.
  - vm_compute. reflexivity.
Defined.

(** ** [init_free_block] *)

(** X8. [init_free_block] on a block whose size is a multiple of 8, at
    least 16 and below [2^32]: header and footer hold the bare size, so the
    header reads as a free block of that size with the previous-allocated
    bit clear, whatever the header held before; both links are [NULL]; and
    of the words at [hdrp] plus a multiple of 4, none but the header, the
    two links and the footer is written. *)
Theorem init_free_block_tags (m : heap) (hdrp bk_size : Z) :
  16 <= bk_size < 2 ^ 32 -> bk_size mod 8 = 0 ->
  let m' := init_free_block m hdrp bk_size in
  READ_WORD m' hdrp = bk_size /\
  READ_WORD m' (hdrp + bk_size - WSIZE) = bk_size /\
  GET_SIZE m' hdrp = bk_size /\
  GET_ALLOC m' hdrp = 0 /\
  GET_PREV_ALLOC m' hdrp = 0 /\
  GET_PREV_PTR m' hdrp = NULL /\
  GET_NEXT_PTR m' hdrp = NULL /\
  (forall a, (a - hdrp) mod 4 = 0 ->
             a <> hdrp -> a <> hdrp + WSIZE -> a <> hdrp + 2 * WSIZE ->
             a <> hdrp + bk_size - WSIZE ->
             READ_WORD m' a = READ_WORD m a).
Proof.
  intros Hb H8. cbv zeta.
  assert (Hhdr : READ_WORD (init_free_block m hdrp bk_size) hdrp = bk_size).
  { unfold init_free_block, SET_PREV_PTR, SET_NEXT_PTR, PACK, WSIZE.
    rewrite Z.lor_0_r. rewrite !READ_WRITE_other by lia.
    rewrite READ_WRITE_same. apply wrap_small. lia. }
  split; [exact Hhdr|]. split; [|split; [|split; [|split]]].
  - unfold init_free_block, SET_PREV_PTR, SET_NEXT_PTR, PACK, WSIZE.
    rewrite Z.lor_0_r. rewrite !READ_WRITE_other by lia.
    rewrite READ_WRITE_same, READ_WRITE_same, wrap_wrap.
    apply wrap_small. lia.
  - unfold GET_SIZE. rewrite Hhdr. apply size_of_multiple. exact H8.
  - unfold GET_ALLOC, CURR_ALLOC. rewrite Hhdr.
    apply alloc_of_multiple. exact H8.
  - unfold GET_PREV_ALLOC, PREV_ALLOC. rewrite Hhdr.
    apply prev_of_multiple. exact H8.
  - unfold init_free_block, GET_PREV_PTR, GET_NEXT_PTR, SET_PREV_PTR,
      SET_NEXT_PTR, NULL, WSIZE.
    repeat split; intros;
      repeat first [ rewrite READ_WRITE_same
                   | rewrite READ_WRITE_other by lia ];
      reflexivity.
Qed.

Lemma init_free_block_tags_witness :
  READ_WORD (init_free_block (mem fresh_heap) 8196 8192) 8196 = 8192 /\
  READ_WORD (init_free_block (mem fresh_heap) 8196 8192)
            (8196 + 8192 - WSIZE) = 8192 /\
  GET_SIZE (init_free_block (mem fresh_heap) 8196 8192) 8196 = 8192 /\
  GET_ALLOC (init_free_block (mem fresh_heap) 8196 8192) 8196 = 0 /\
  GET_PREV_ALLOC (init_free_block (mem fresh_heap) 8196 8192) 8196 = 0 /\
  GET_PREV_PTR (init_free_block (mem fresh_heap) 8196 8192) 8196 = NULL /\
  GET_NEXT_PTR (init_free_block (mem fresh_heap) 8196 8192) 8196 = NULL /\
  (forall a, (a - 8196) mod 4 = 0 ->
             a <> 8196 -> a <> 8196 + WSIZE -> a <> 8196 + 2 * WSIZE ->
             a <> 8196 + 8192 - WSIZE ->
             READ_WORD (init_free_block (mem fresh_heap) 8196 8192) a
             = READ_WORD (mem fresh_heap) a).
Proof.
  apply (init_free_block_tags (mem fresh_heap) 8196 8192);
    [lia|reflexivity].
Defined.

(** ** [insert_into_size_class]: address-ordered insertion *)

Section FreeLists.

Lemma lseg_inv_cons (m : heap) (p q x : Z) (l : list Z) :
  lseg m p q (x :: l) ->
  p = x /\ x <> NULL /\ lseg m (GET_NEXT_PTR m x) q l.
Proof. intros H. inversion H; subst. auto. Qed.

Lemma lseg_inv_nil (m : heap) (p q : Z) : lseg m p q [] -> p = q.
Proof. intros H. inversion H; subst. reflexivity. Qed.

Lemma lseg_class_list (m : heap) (l : list Z) :
  forall (p : Z) (fuel : nat),
  lseg m p NULL l -> (length l < fuel)%nat -> class_list fuel m p = l.
Proof.
  induction l as [|x l IH]; intros p fuel Hl Hf;
    (destruct fuel as [|fuel]; [simpl in Hf; lia|]); cbn [class_list].
  - apply lseg_inv_nil in Hl. subst p. reflexivity.
  - apply lseg_inv_cons in Hl. destruct Hl as (-> & Hx & Hl).
    destruct (Z.eqb_spec x NULL); [contradiction|].
    f_equal. apply IH; [exact Hl|simpl in Hf; lia].
Qed.

Lemma class_list_lseg (m : heap) (fuel : nat) :
  forall (p : Z) (l : list Z),
  class_list fuel m p = l -> (length l < fuel)%nat -> lseg m p NULL l.
Proof.
  induction fuel as [|fuel IH]; intros p l Hl Hf; [lia|].
  cbn [class_list] in Hl. destruct (Z.eqb_spec p NULL) as [->|Hp].
  - subst l. apply lseg_nil.
  - subst l. apply lseg_cons; [exact Hp|].
    apply IH; [reflexivity|]. simpl in Hf. lia.
Qed.

Lemma lseg_frame (m m' : heap) (p q : Z) (l : list Z) :
  lseg m p q l ->
  (forall n, In n l -> GET_NEXT_PTR m' n = GET_NEXT_PTR m n) ->
  lseg m' p q l.
Proof.
  induction 1 as [p|p q l Hp Hl IH]; intros Hsame; [apply lseg_nil|].
  apply lseg_cons; [exact Hp|].
  rewrite Hsame by (left; reflexivity).
  apply IH. intros n Hn. apply Hsame. right. exact Hn.
Qed.

Lemma lseg_app (m : heap) (p q r : Z) (l1 l2 : list Z) :
  lseg m p q l1 -> lseg m q r l2 -> lseg m p r (l1 ++ l2).
Proof.
  induction 1 as [p|p q l Hp Hl IH]; intros H2; [exact H2|].
  simpl. apply lseg_cons; [exact Hp|]. apply IH. exact H2.
Qed.

Lemma spaced_tail (a : Z) (t : list Z) : spaced (a :: t) -> spaced t.
Proof. intros (_ & H). exact H. Qed.

Lemma spaced_after (a : Z) (t : list Z) :
  spaced (a :: t) -> Forall (fun n => a + MIN_BK_SIZE <= n) t.
Proof.
  revert a. induction t as [|b t IH]; intros a Hs; [constructor|].
  destruct Hs as (Hab & Hs). constructor; [exact Hab|].
  specialize (IH b Hs).
  apply Forall_impl with (P := fun n => b + MIN_BK_SIZE <= n); [|exact IH].
  unfold MIN_BK_SIZE in *. intros n Hn. lia.
Qed.

Lemma spaced_split (l1 : list Z) (c : Z) (l2 : list Z) :
  spaced (l1 ++ c :: l2) ->
  Forall (fun n => n + MIN_BK_SIZE <= c) l1 /\
  Forall (fun n => c + MIN_BK_SIZE <= n) l2 /\
  spaced l2.
Proof.
  induction l1 as [|a l1 IH]; simpl app; intros Hs.
  - split; [constructor|]. split; [apply spaced_after; exact Hs|].
    apply spaced_tail in Hs. exact Hs.
  - pose proof (spaced_after _ _ Hs) as Ha.
    apply spaced_tail in Hs. destruct (IH Hs) as (H1 & H2 & H3).
    split; [|split; assumption].
    constructor; [|exact H1].
    rewrite Forall_forall in Ha. apply Ha.
    apply in_or_app. right. left. reflexivity.
Qed.

Lemma insert_sorted_middle (x c : Z) (l1 l2 : list Z) :
  Forall (fun n => n < x) (l1 ++ [c]) ->
  (forall b, hd_error l2 = Some b -> x < b) ->
  insert_sorted x (l1 ++ c :: l2) = l1 ++ c :: x :: l2.
Proof.
  induction l1 as [|a l1 IH]; simpl app; intros Hlt Hgt.
  - inversion Hlt; subst. cbn [insert_sorted].
    destruct (Z.ltb_spec x c); [lia|]. f_equal.
    destruct l2 as [|b l2]; [reflexivity|]. cbn [insert_sorted].
    specialize (Hgt b eq_refl). destruct (Z.ltb_spec x b); [reflexivity|lia].
  - inversion Hlt; subst. cbn [insert_sorted].
    destruct (Z.ltb_spec x a); [lia|]. f_equal. apply IH; assumption.
Qed.

(** Where the walk of [insert_into_size_class] stops: on the last node
    below [hdrp]. *)
Lemma insert_walk_stops (m : heap) (hdrp : Z) (t : list Z) :
  forall (c0 : Z) (fuel : nat),
  lseg m c0 NULL (c0 :: t) -> (length t < fuel)%nat ->
  c0 < hdrp -> apart hdrp (c0 :: t) ->
  exists l1 c l2,
    c0 :: t = l1 ++ c :: l2 /\
    insert_walk fuel m c0 hdrp = Some c /\
    Forall (fun n => n < hdrp) (l1 ++ [c]) /\
    lseg m c0 c l1 /\
    c <> NULL /\
    lseg m (GET_NEXT_PTR m c) NULL l2 /\
    (forall b, hd_error l2 = Some b -> hdrp < b).
Proof.
  induction t as [|b t IH]; intros c0 fuel Hl Hf Hlt Hap;
    (destruct fuel as [|fuel]; [simpl in Hf; lia|]);
    apply lseg_inv_cons in Hl; destruct Hl as (_ & Hc0 & Hl).
  - pose proof (lseg_inv_nil _ _ _ Hl) as Hnx.
    assert (Hw : insert_walk (S fuel) m c0 hdrp = Some c0).
    { cbn [insert_walk]. rewrite Hnx. reflexivity. }
    exists [], c0, []. simpl app.
    split; [reflexivity|]. split; [exact Hw|].
    split; [constructor; [exact Hlt|constructor]|].
    split; [apply lseg_nil|]. split; [exact Hc0|].
    split; [exact Hl|].
    intros b' Hb'. discriminate Hb'.
  - pose proof (lseg_inv_cons _ _ _ _ _ Hl) as (Hnx & Hb & Hl').
    destruct (Z.ltb_spec b hdrp) as [Hbl|Hbg].
    + assert (Hw : insert_walk (S fuel) m c0 hdrp
                   = insert_walk fuel m b hdrp).
      { cbn [insert_walk]. rewrite Hnx.
        destruct (Z.eqb_spec b NULL); [contradiction|].
        destruct (Z.ltb_spec b hdrp); [reflexivity|lia]. }
      destruct (IH b fuel) as (l1 & c & l2 & Heq & Hw' & Hall & Hseg & Hrest).
      * apply lseg_cons; [exact Hb|exact Hl'].
      * simpl in Hf. lia.
      * exact Hbl.
      * inversion Hap; subst. assumption.
      * exists (c0 :: l1), c, l2. rewrite Hw, Hw'. simpl app. rewrite <- Heq.
        split; [reflexivity|]. split; [reflexivity|].
        split; [constructor; assumption|].
        split; [|exact Hrest].
        apply lseg_cons; [exact Hc0|]. rewrite Hnx. exact Hseg.
    + assert (Hw : insert_walk (S fuel) m c0 hdrp = Some c0).
      { cbn [insert_walk]. rewrite Hnx.
        destruct (Z.ltb_spec b hdrp); [lia|]. rewrite andb_false_r.
        reflexivity. }
      exists [], c0, (b :: t). simpl app.
      split; [reflexivity|]. split; [exact Hw|].
      split; [constructor; [exact Hlt|constructor]|].
      split; [apply lseg_nil|]. split; [exact Hc0|].
      split; [exact Hl|].
      intros b' [= <-].
      inversion Hap as [|? ? _ Hap']; subst.
      inversion Hap' as [|? ? Hb' _]; subst.
      unfold MIN_BK_SIZE in Hb'. lia.
Qed.

Lemma list_set_length (l : list Z) (n : nat) (v : Z) :
  length (list_set l n v) = length l.
Proof.
  revert n. induction l as [|h t IH]; intros [|n]; simpl; auto.
Qed.

Lemma list_set_same (l : list Z) (n : nat) (v : Z) :
  (n < length l)%nat -> nth_error (list_set l n v) n = Some v.
Proof.
  revert n. induction l as [|h t IH]; intros [|n] Hn; simpl in *;
    try lia; [reflexivity|]. apply IH. lia.
Qed.

Lemma list_set_other (l : list Z) (n k : nat) (v : Z) :
  k <> n -> nth_error (list_set l n v) k = nth_error l k.
Proof.
  revert n k. induction l as [|h t IH]; intros [|n] [|k] Hk; simpl;
    try reflexivity; try congruence.
  apply IH. congruence.
Qed.

Lemma table_get_set_same (st : state) (index v : Z) :
  length (segregated_free_list st) = 28%nat -> 0 <= index < 28 ->
  table_get (table_set st index v) index = Some v.
Proof.
  intros Hlen Hi. unfold table_get, table_set. rewrite index_arr_size_28.
  destruct (Z.leb_spec 0 index); [|lia].
  destruct (Z.ltb_spec index 28); [|lia]. cbn [andb set_table
    segregated_free_list].
  apply list_set_same. lia.
Qed.

Lemma table_get_set_other (st : state) (index v i : Z) :
  0 <= index -> i <> index ->
  table_get (table_set st index v) i = table_get st i.
Proof.
  intros Hi Hne. unfold table_get, table_set.
  cbn [set_table segregated_free_list].
  destruct ((0 <=? i) && (i <? index_arr_size)) eqn:E; [|reflexivity].
  apply andb_prop in E. destruct E as (E1%Z.leb_le & _).
  apply list_set_other. lia.
Qed.

End FreeLists.
Section InsertSorted.

Ltac links :=
  unfold GET_NEXT_PTR, GET_PREV_PTR, SET_NEXT_PTR, SET_PREV_PTR, WSIZE,
    MIN_BK_SIZE, NULL in *;
  repeat first
    [ rewrite READ_WRITE_same
    | rewrite READ_WRITE_other by lia ].

Lemma wrap_read (m : heap) (p : Z) : wrap (READ_WORD m p) = READ_WORD m p.
Proof. unfold READ_WORD. apply wrap_wrap. Qed.

(** Inserting before the head. *)
Lemma insert_before_head (m : heap) (hdrp a : Z) (t : list Z) :
  lseg m a NULL (a :: t) ->
  spaced (a :: t) -> apart hdrp (a :: t) ->
  0 < hdrp < 2 ^ 32 -> 0 < a < 2 ^ 32 ->
  let m' := SET_PREV_PTR (SET_PREV_PTR (SET_NEXT_PTR m hdrp a) hdrp NULL)
                         a hdrp in
  lseg m' hdrp NULL (hdrp :: a :: t).
Proof.
  intros Hseg Hsp Hap Hh Ha. cbv zeta.
  pose proof (spaced_after _ _ Hsp) as Hafter.
  rewrite Forall_forall in Hafter. unfold apart in Hap.
  rewrite Forall_forall in Hap.
  apply lseg_cons; [unfold NULL; lia|].
  pose proof (Hap a ltac:(left; reflexivity)) as Hha.
  replace (GET_NEXT_PTR _ hdrp) with a.
  2:{ links. symmetry. apply wrap_small. lia. }
  eapply lseg_frame; [exact Hseg|].
  intros n [<-|Hn].
  - links. reflexivity.
  - pose proof (Hap n ltac:(right; exact Hn)).
    pose proof (Hafter n Hn). links. reflexivity.
Qed.

(** Inserting after the node [c] on which the walk stopped. *)
Lemma insert_after_node (m : heap) (hdrp head c : Z) (l1 l2 : list Z) :
  lseg m head c l1 -> c <> NULL ->
  lseg m (GET_NEXT_PTR m c) NULL l2 ->
  spaced (l1 ++ c :: l2) -> apart hdrp (l1 ++ c :: l2) ->
  0 < hdrp < 2 ^ 32 ->
  let m1 := SET_NEXT_PTR m hdrp (GET_NEXT_PTR m c) in
  let m2 := SET_NEXT_PTR m1 c hdrp in
  let m3 := SET_PREV_PTR m2 hdrp c in
  let m' := if negb (GET_NEXT_PTR m3 hdrp =? NULL)
            then SET_PREV_PTR m3 (GET_NEXT_PTR m3 hdrp) hdrp
            else m3 in
  lseg m' head NULL (l1 ++ c :: hdrp :: l2).
Proof.
  intros Hseg1 Hc Hseg2 Hsp Hap Hh. cbv zeta.
  destruct (spaced_split _ _ _ Hsp) as (Hbefore & Hafter & Hsp2).
  rewrite Forall_forall in Hbefore, Hafter.
  unfold apart in Hap. rewrite Forall_forall in Hap.
  pose proof (Hap c ltac:(apply in_or_app; right; left; reflexivity)) as Hhc.
  assert (Hap1 : forall n, In n l1 ->
                   n + MIN_BK_SIZE <= hdrp \/ hdrp + MIN_BK_SIZE <= n).
  { intros n Hn. apply Hap. apply in_or_app. left. exact Hn. }
  assert (Hap2 : forall n, In n l2 ->
                   n + MIN_BK_SIZE <= hdrp \/ hdrp + MIN_BK_SIZE <= n).
  { intros n Hn. apply Hap. apply in_or_app. right. right. exact Hn. }
  remember (GET_NEXT_PTR m c) as nxc eqn:Hnxc.
  assert (Hr : wrap nxc = nxc).
  { subst nxc. unfold GET_NEXT_PTR. apply wrap_read. }
  assert (Hnx3 : GET_NEXT_PTR
                   (SET_PREV_PTR (SET_NEXT_PTR (SET_NEXT_PTR m hdrp nxc)
                                               c hdrp) hdrp c) hdrp = nxc).
  { links. exact Hr. }
  rewrite Hnx3.
  assert (Hl1 : lseg (SET_PREV_PTR (SET_NEXT_PTR (SET_NEXT_PTR m hdrp nxc)
                                                 c hdrp) hdrp c) head c l1).
  { eapply lseg_frame; [exact Hseg1|].
    intros n Hn. pose proof (Hbefore n Hn). pose proof (Hap1 n Hn).
    links. reflexivity. }
  assert (Hcn : GET_NEXT_PTR
                  (SET_PREV_PTR (SET_NEXT_PTR (SET_NEXT_PTR m hdrp nxc)
                                              c hdrp) hdrp c) c = hdrp).
  { links. apply wrap_small. lia. }
  destruct l2 as [|b t2].
  - (* [c] was the last node *)
    apply lseg_inv_nil in Hseg2.
    replace (negb (nxc =? NULL)) with false by (rewrite Hseg2; reflexivity).
    apply lseg_app with (q := c); [exact Hl1|].
    apply lseg_cons; [exact Hc|]. rewrite Hcn.
    apply lseg_cons; [unfold NULL; lia|].
    rewrite Hnx3, Hseg2. apply lseg_nil.
  - (* [b] follows [c] *)
    pose proof (lseg_inv_cons _ _ _ _ _ Hseg2) as (Hnxb & Hb & _).
    pose proof (Hafter b ltac:(left; reflexivity)) as Hcb.
    pose proof (Hap2 b ltac:(left; reflexivity)) as Hhb.
    pose proof (spaced_after _ _ Hsp2) as Hafterb.
    rewrite Forall_forall in Hafterb.
    replace (negb (nxc =? NULL)) with true.
    2:{ rewrite Hnxb. destruct (Z.eqb_spec b NULL); [contradiction|reflexivity]. }
    apply lseg_app with (q := c).
    { eapply lseg_frame; [exact Hl1|].
      intros n Hn. pose proof (Hbefore n Hn). pose proof (Hap1 n Hn).
      links. reflexivity. }
    apply lseg_cons; [exact Hc|].
    replace (GET_NEXT_PTR _ c) with hdrp.
    2:{ rewrite <- Hcn at 1. links. reflexivity. }
    apply lseg_cons; [unfold NULL; lia|].
    replace (GET_NEXT_PTR _ hdrp) with nxc.
    2:{ rewrite <- Hnx3 at 1. links. reflexivity. }
    eapply lseg_frame; [exact Hseg2|].
    intros n [<-|Hn].
    + links. reflexivity.
    + pose proof (Hafterb n Hn).
      pose proof (Hap2 n ltac:(right; exact Hn)).
      pose proof (Hafter n ltac:(right; exact Hn)).
      links. reflexivity.
Qed.

End InsertSorted.
Section InsertIntoSizeClass.

Ltac links :=
  unfold GET_NEXT_PTR, GET_PREV_PTR, SET_NEXT_PTR, SET_PREV_PTR, WSIZE,
    MIN_BK_SIZE, NULL in *;
  repeat first
    [ rewrite READ_WRITE_same
    | rewrite READ_WRITE_other by lia ].

(** What [insert_into_size_class] does to a list ordered by address, to the
    table, to the heap and to the rest of the state. *)
Lemma insert_into_size_class_spec
  (fuel : nat) (st : state) (hdrp index : Z) (l : list Z) :
  0 <= index < 28 ->
  length (segregated_free_list st) = 28%nat ->
  class_members fuel st index = l ->
  (length l < fuel)%nat ->
  spaced l -> addresses (hdrp :: l) -> apart hdrp l ->
  GET_NEXT_PTR (mem st) hdrp = NULL ->
  exists st',
    insert_into_size_class fuel st hdrp index = Ret tt st' /\
    class_members (S fuel) st' index = insert_sorted hdrp l /\
    (forall i, i <> index -> table_get st' i = table_get st i) /\
    (forall a,
       (forall node, In node (hdrp :: l) ->
          a <> node + WSIZE /\ a <> node + 2 * WSIZE) ->
       READ_WORD (mem st') a = READ_WORD (mem st) a) /\
    (mem_brk st' = mem_brk st /\ mem_max_addr st' = mem_max_addr st /\
     heap_listp st' = heap_listp st /\ calls st' = calls st).
Proof.
  intros Hi Hlen Hcm Hfuel Hsp Haddr Hap Hnext.
  assert (Hhead : exists head, table_get st index = Some head).
  { unfold table_get. rewrite index_arr_size_28.
    destruct (Z.leb_spec 0 index); [|lia].
    destruct (Z.ltb_spec index 28); [|lia]. cbn [andb].
    destruct (nth_error (segregated_free_list st) (Z.to_nat index)) eqn:E;
      [eexists; reflexivity|].
    apply nth_error_None in E. lia. }
  destruct Hhead as (head & Hhead).
  unfold class_members in Hcm. rewrite Hhead in Hcm.
  pose proof (class_list_lseg _ _ _ _ Hcm Hfuel) as Hseg.
  unfold addresses in Haddr. apply Forall_cons_iff in Haddr.
  destruct Haddr as (Hh & Haddr).
  unfold insert_into_size_class. rewrite Hhead.
  destruct l as [|a t].
  - (* the class was empty *)
    apply lseg_inv_nil in Hseg. subst head.
    change (NULL =? NULL) with true. cbv iota.
    eexists. split; [reflexivity|]. split; [|split; [|split; [|repeat split]]].
    + unfold class_members. rewrite table_get_set_same by assumption.
      cbn [class_list]. destruct (Z.eqb_spec hdrp NULL) as [E|_];
        [unfold NULL in E; lia|].
      cbn [insert_sorted]. f_equal.
      change (mem (table_set st index hdrp)) with (mem st).
      rewrite Hnext. destruct fuel; [simpl in Hfuel; lia|]. reflexivity.
    + intros i Hne. apply table_get_set_other; [lia|exact Hne].
    + intros a _. reflexivity.
  - pose proof (lseg_inv_cons _ _ _ _ _ Hseg) as (-> & Ha & _).
    destruct (Z.eqb_spec a NULL) as [|_]; [contradiction|].
    apply Forall_cons_iff in Haddr. destruct Haddr as (Har & Haddr).
    pose proof Hap as Hap'. unfold apart in Hap'.
    apply Forall_cons_iff in Hap'. destruct Hap' as (Hha & _).
    destruct (Z.ltb_spec hdrp a) as [Hlt|Hge].
    + (* before the head *)
      eexists. split; [reflexivity|]. split; [|split; [|split; [|repeat split]]].
      * unfold class_members.
        rewrite table_get_set_same by (try exact Hlen; assumption).
        cbn [insert_sorted]. destruct (Z.ltb_spec hdrp a); [|lia].
        apply lseg_class_list; [|simpl in *; lia].
        apply (insert_before_head (mem st) hdrp a t); assumption.
      * intros i Hne. rewrite table_get_set_other; [reflexivity|lia|exact Hne].
      * intros x Hx.
        pose proof (Hx hdrp ltac:(left; reflexivity)).
        pose proof (Hx a ltac:(right; left; reflexivity)).
        change (mem (table_set (set_mem st ?m) index hdrp)) with m.
        links. reflexivity.
    + (* after the node on which the walk stops *)
      assert (Hlt : a < hdrp) by (unfold MIN_BK_SIZE in Hha; lia).
      destruct (insert_walk_stops (mem st) hdrp t a fuel Hseg
                  ltac:(simpl in Hfuel; lia) Hlt Hap)
        as (l1 & c & l2 & Hl & Hw & Hbelow & Hseg1 & Hc & Hseg2 & Habove).
      rewrite Hw. eexists. split; [reflexivity|]. split; [|split; [|split; [|repeat split]]].
      * unfold class_members.
        change (table_get (set_mem st ?m) index) with (table_get st index).
        rewrite Hhead. rewrite Hl.
        rewrite insert_sorted_middle by assumption.
        apply lseg_class_list.
        2:{ rewrite Hl in Hfuel. rewrite length_app in *. simpl in *. lia. }
        rewrite Hl in Hsp, Hap.
        apply (insert_after_node (mem st) hdrp a c l1 l2); assumption.
      * intros i _. reflexivity.
      * intros x Hx.
        pose proof (Hx hdrp ltac:(left; reflexivity)).
        assert (Hxc : x <> c + WSIZE /\ x <> c + 2 * WSIZE).
        { apply Hx. right. rewrite Hl. apply in_or_app. right. left.
          reflexivity. }
        assert (Hch : c < hdrp).
        { rewrite Forall_forall in Hbelow. apply Hbelow.
          apply in_or_app. right. left. reflexivity. }
        change (mem (set_mem st ?m)) with m.
        assert (Hnx3 : GET_NEXT_PTR
                   (SET_PREV_PTR
                      (SET_NEXT_PTR
                         (SET_NEXT_PTR (mem st) hdrp
                            (GET_NEXT_PTR (mem st) c)) c hdrp) hdrp c) hdrp
                 = GET_NEXT_PTR (mem st) c).
        { clear - Hch. links. apply wrap_read. }
        rewrite Hnx3.
        destruct l2 as [|b t2].
        -- apply lseg_inv_nil in Hseg2. rewrite Hseg2.
           change (negb (NULL =? NULL)) with false. cbv iota.
           links. reflexivity.
        -- pose proof (lseg_inv_cons _ _ _ _ _ Hseg2) as (Hnxb & Hb & _).
           assert (Hxb : x <> b + WSIZE /\ x <> b + 2 * WSIZE).
           { apply Hx. right. rewrite Hl. apply in_or_app. right. right.
             left. reflexivity. }
           rewrite Hnxb.
           destruct (Z.eqb_spec b NULL) as [|_]; [contradiction|].
           cbn [negb]. links. reflexivity.
Qed.

(** X9. [insert_into_size_class] keeps a free list ordered by address: on a
    list of class [index] whose headers [l] ascend at least a minimum
    block apart, inserting a block that overlaps none of them and whose
    next link is [NULL] (as [init_free_block] leaves it) returns, and the
    list then holds [hdrp] at its place in the order; the other classes
    keep their heads, and only link words of [hdrp] and of listed blocks
    are written. *)
Theorem insert_into_size_class_sorted
  (fuel : nat) (st : state) (hdrp index : Z) (l : list Z) :
  0 <= index < 28 ->
  length (segregated_free_list st) = 28%nat ->
  class_members fuel st index = l ->
  (length l < fuel)%nat ->
  spaced l -> addresses (hdrp :: l) -> apart hdrp l ->
  GET_NEXT_PTR (mem st) hdrp = NULL ->
  exists st',
    insert_into_size_class fuel st hdrp index = Ret tt st' /\
    class_members (S fuel) st' index = insert_sorted hdrp l /\
    (forall i, i <> index -> table_get st' i = table_get st i) /\
    (forall a,
       (forall node, In node (hdrp :: l) ->
          a <> node + WSIZE /\ a <> node + 2 * WSIZE) ->
       READ_WORD (mem st') a = READ_WORD (mem st) a).
Proof.
  intros Hi Hlen Hcm Hfuel Hsp Haddr Hap Hnext.
  destruct (insert_into_size_class_spec fuel st hdrp index l
              Hi Hlen Hcm Hfuel Hsp Haddr Hap Hnext)
    as (st' & Hret & Hl & Htab & Hframe & _).
  exists st'. auto.
Qed.

Lemma insert_into_size_class_sorted_witness :
  exists st',
    insert_into_size_class 3 two_free_heap 4148 1 = Ret tt st' /\
    class_members 4 st' 1 = [4100; 4148] /\
    (forall i, i <> 1 -> table_get st' i = table_get two_free_heap i) /\
    (forall a,
       (forall node, In node [4148; 4100] ->
          a <> node + WSIZE /\ a <> node + 2 * WSIZE) ->
       READ_WORD (mem st') a = READ_WORD (mem two_free_heap) a).
Proof.
  apply (insert_into_size_class_sorted 3 two_free_heap 4148 1 [4100]).
  - lia.
  - reflexivity.
  - reflexivity.
  - simpl. lia.
  - simpl. exact (conj I I).
  - repeat constructor.
  - constructor; [|constructor]. left. unfold MIN_BK_SIZE. lia.
  - reflexivity.
Defined.

End InsertIntoSizeClass.

(** ** [mm_init]: the three ways it ends *)

Section Init.

Lemma empty_table_get (i : Z) :
  0 <= i < 28 -> nth_error (repeat NULL (Z.to_nat index_arr_size)) (Z.to_nat i)
                 = Some NULL.
Proof.
  intros Hi. rewrite index_arr_size_28.
  apply nth_error_repeat. lia.
Qed.

Lemma insert_into_empty_class (fuel : nat) (st : state) (hdrp index : Z) :
  table_get st index = Some NULL ->
  insert_into_size_class fuel st hdrp index = Ret tt (table_set st index hdrp).
Proof.
  intros H. unfold insert_into_size_class. rewrite H. reflexivity.
Qed.

(** [coalesce] on a block whose header is a bare size (as [init_free_block]
    writes it) and whose successor is the end padding: the previous-allocated
    bit reads clear, so the block is merged backward over the size found in
    the word before it. *)
Lemma coalesce_new_block (m : heap) (hdrp asize : Z) :
  0 <= asize < 2 ^ 32 -> asize mod 8 = 0 ->
  READ_WORD m hdrp = asize ->
  READ_WORD m (hdrp + asize) = PACK 0 CURR_ALLOC ->
  coalesce m (hdrp + WSIZE)
  = let prev_hdrp := hdrp - GET_SIZE m (hdrp - WSIZE) in
    let m1 := WRITE_WORD m prev_hdrp (READ_WORD m prev_hdrp + asize) in
    (prev_hdrp + WSIZE,
     WRITE_WORD m1 (hdrp + asize - WSIZE) (READ_WORD m1 prev_hdrp)).
Proof.
  intros Hr H8 Hh Hn. unfold coalesce, HDRP_USE_PLDP.
  replace (hdrp + WSIZE - WSIZE) with hdrp by lia.
  assert (Hs : GET_SIZE m hdrp = asize).
  { unfold GET_SIZE. rewrite Hh. apply size_of_multiple. exact H8. }
  assert (Hp : GET_PREV_ALLOC m hdrp = 0).
  { unfold GET_PREV_ALLOC, PREV_ALLOC. rewrite Hh.
    apply prev_of_multiple. exact H8. }
  assert (Ha : GET_ALLOC m (hdrp + asize) = 1).
  { unfold GET_ALLOC. rewrite Hn. reflexivity. }
  rewrite Hs, Hp, Ha. reflexivity.
Qed.

(** X10. [mm_init] returns whenever the break is not negative, whatever the
    loop counter: [-1] with [heap_listp] left at [(void* )-1] and nothing
    else touched when the two padding words do not fit; [-1] with both
    paddings written, the table cleared and the break left advanced by the
    two words when the first chunk does not fit; else [0], with
    [heap_listp] one word after the old break, the break advanced by two
    words and a chunk, the new block's header alone in the table, at the
    head of class 8, and the paddings at the two ends.  In the last case
    the header of the first block reads twice [CHUNKSIZE]: [coalesce] finds
    the previous-allocated bit clear, takes the start padding for a footer
    of size 0, and adds the block's size to the block's own header. *)
Theorem mm_init_result (fuel : nat) (st : state) :
  0 <= mem_brk st ->
  exists st',
    mm_init fuel st
    = Ret (if mem_brk st + 2 * WSIZE + CHUNKSIZE <=? mem_max_addr st
           then 0 else -1) st' /\
    (mem_max_addr st < mem_brk st + 2 * WSIZE ->
       heap_listp st' = -1 /\ mem_brk st' = mem_brk st /\
       mem st' = mem st /\
       segregated_free_list st' = segregated_free_list st) /\
    (mem_brk st + 2 * WSIZE <= mem_max_addr st
       < mem_brk st + 2 * WSIZE + CHUNKSIZE ->
       heap_listp st' = mem_brk st + WSIZE /\
       mem_brk st' = mem_brk st + 2 * WSIZE /\
       segregated_free_list st' = empty_table /\
       READ_WORD (mem st') (mem_brk st) = PACK 0 CURR_ALLOC /\
       READ_WORD (mem st') (mem_brk st + WSIZE) = PACK 0 CURR_ALLOC) /\
    (mem_brk st + 2 * WSIZE + CHUNKSIZE <= mem_max_addr st ->
       heap_listp st' = mem_brk st + WSIZE /\
       mem_brk st' = mem_brk st + 2 * WSIZE + CHUNKSIZE /\
       segregated_free_list st' = table_with empty_table 8 (mem_brk st + WSIZE) /\
       READ_WORD (mem st') (mem_brk st) = PACK 0 CURR_ALLOC /\
       READ_WORD (mem st') (mem_brk st' - WSIZE) = PACK 0 CURR_ALLOC /\
       READ_WORD (mem st') (heap_listp st') = 2 * CHUNKSIZE).
Proof.
  intros Hbrk. unfold mm_init, mem_sbrk. cbn [call mem_brk mem_max_addr].
  change (2 * WSIZE) with 8. change CHUNKSIZE with 4096. change WSIZE with 4.
  destruct (Z.leb_spec (mem_brk st + 8) (mem_max_addr st)) as [H1|H1].
  2:{ destruct (Z.leb_spec (mem_brk st + 8 + 4096) (mem_max_addr st));
        [lia|].
      eexists. split; [reflexivity|]. cbn.
      split; [auto|]. split; intros; lia. }
  unfold extend_heap, mem_sbrk.
  change (ALIGN_CHUNKSIZE 4096) with 4096.
  cbn [call mem_brk mem_max_addr set_brk set_mem set_heap_listp set_table
       heap_listp mem segregated_free_list].
  destruct (Z.leb_spec (mem_brk st + 8 + 4096) (mem_max_addr st)) as [H2|H2].
  2:{ cbn [bind]. change (NULL =? NULL) with true. cbv iota.
      eexists. split; [reflexivity|].
      cbn [call mem_brk mem_max_addr set_brk set_mem set_heap_listp set_table
           heap_listp mem segregated_free_list].
      split; [intros; lia|]. split; [|intros; lia].
      intros _. repeat split.
      - rewrite READ_WRITE_other by lia. apply READ_WRITE_same.
      - apply READ_WRITE_same. }
  change (find_index 4096) with 8.
  rewrite insert_into_empty_class.
  2:{ unfold table_get.
      cbn [call mem_brk mem_max_addr set_brk set_mem set_heap_listp set_table
           heap_listp mem segregated_free_list].
      rewrite (empty_table_get 8) by lia. reflexivity. }
  cbn [bind]. unfold table_set.
  cbn [call mem_brk mem_max_addr set_brk set_mem set_heap_listp set_table
       heap_listp mem segregated_free_list].
  replace (mem_brk st + 8 - WSIZE) with (mem_brk st + 4)
    by (unfold WSIZE; lia).
  set (b := mem_brk st) in *.
  set (m0 := WRITE_WORD (WRITE_WORD (mem st) b (PACK 0 CURR_ALLOC))
                        (b + 4) (PACK 0 CURR_ALLOC)).
  set (m1 := WRITE_WORD (init_free_block m0 (b + 4) 4096) (b + 4 + 4096)
                        (PACK 0 CURR_ALLOC)).
  assert (Hstart : READ_WORD m1 b = PACK 0 CURR_ALLOC).
  { subst m1 m0. unfold init_free_block, SET_NEXT_PTR, SET_PREV_PTR, WSIZE.
    rewrite !READ_WRITE_other by lia. apply READ_WRITE_same. }
  assert (Hhdr : READ_WORD m1 (b + 4) = 4096).
  { subst m1 m0. unfold init_free_block, SET_NEXT_PTR, SET_PREV_PTR, WSIZE.
    rewrite !READ_WRITE_other by lia. apply READ_WRITE_same. }
  rewrite (coalesce_new_block m1 (b + 4) 4096);
    [|lia|reflexivity|exact Hhdr|apply READ_WRITE_same].
  cbv zeta. change WSIZE with 4.
  replace (b + 4 - 4) with b by lia.
  assert (Hz : GET_SIZE m1 b = 0).
  { unfold GET_SIZE. rewrite Hstart. reflexivity. }
  rewrite Hz, Z.sub_0_r. cbn [bind].
  destruct (Z.eqb_spec (b + 4 + 4) NULL) as [E|_];
    [unfold NULL in E; lia|].
  eexists. split; [reflexivity|].
  cbn [call mem_brk mem_max_addr set_brk set_mem set_heap_listp set_table
       heap_listp mem segregated_free_list].
  split; [intros; lia|]. split; [intros; lia|].
  intros _. repeat split.
  - rewrite !READ_WRITE_other by lia. exact Hstart.
  - rewrite !READ_WRITE_other by lia. subst m1.
    replace (b + 8 + 4096 - 4) with (b + 4 + 4096) by lia.
    apply READ_WRITE_same.
  - rewrite READ_WRITE_other by lia. rewrite READ_WRITE_same, Hhdr.
    reflexivity.
Qed.

Lemma mm_init_result_witness :
  exists st',
    mm_init 0 empty_region
    = Ret (if mem_brk empty_region + 2 * WSIZE + CHUNKSIZE
              <=? mem_max_addr empty_region
           then 0 else -1) st' /\
    (mem_max_addr empty_region < mem_brk empty_region + 2 * WSIZE ->
       heap_listp st' = -1 /\ mem_brk st' = mem_brk empty_region /\
       mem st' = mem empty_region /\
       segregated_free_list st' = segregated_free_list empty_region) /\
    (mem_brk empty_region + 2 * WSIZE <= mem_max_addr empty_region
       < mem_brk empty_region + 2 * WSIZE + CHUNKSIZE ->
       heap_listp st' = mem_brk empty_region + WSIZE /\
       mem_brk st' = mem_brk empty_region + 2 * WSIZE /\
       segregated_free_list st' = empty_table /\
       READ_WORD (mem st') (mem_brk empty_region) = PACK 0 CURR_ALLOC /\
       READ_WORD (mem st') (mem_brk empty_region + WSIZE)
       = PACK 0 CURR_ALLOC) /\
    (mem_brk empty_region + 2 * WSIZE + CHUNKSIZE
       <= mem_max_addr empty_region ->
       heap_listp st' = mem_brk empty_region + WSIZE /\
       mem_brk st' = mem_brk empty_region + 2 * WSIZE + CHUNKSIZE /\
       segregated_free_list st'
       = table_with empty_table 8 (mem_brk empty_region + WSIZE) /\
       READ_WORD (mem st') (mem_brk empty_region) = PACK 0 CURR_ALLOC /\
       READ_WORD (mem st') (mem_brk st' - WSIZE) = PACK 0 CURR_ALLOC /\
       READ_WORD (mem st') (heap_listp st') = 2 * CHUNKSIZE).
Proof. apply (mm_init_result 0 empty_region). simpl. lia. Defined.

End Init.

(** ** [extend_heap]: the new block is always merged backward *)

Section ExtendHeap.








End ExtendHeap.

(** ** [insert_into_size_class] with [__LIFO_ORDERING__] *)

Section InsertLifo.

Ltac links :=
  unfold GET_NEXT_PTR, GET_PREV_PTR, SET_NEXT_PTR, SET_PREV_PTR, WSIZE,
    MIN_BK_SIZE, NULL in *;
  repeat first
    [ rewrite READ_WRITE_same
    | rewrite READ_WRITE_other by lia ].

(** X12. With [__LIFO_ORDERING__], [insert_into_size_class] puts the block at
    the head of its class whatever its address: the list then holds [hdrp]
    followed by the blocks it held, [hdrp] has no predecessor, the former
    head points back to [hdrp], and the other classes keep their heads. *)
Theorem insert_into_size_class_lifo_head
  (fuel : nat) (st : state) (hdrp index : Z) (l : list Z) :
  0 <= index < 28 ->
  length (segregated_free_list st) = 28%nat ->
  class_members fuel st index = l ->
  (length l < fuel)%nat ->
  scattered l -> addresses (hdrp :: l) -> apart hdrp l ->
  exists st',
    insert_into_size_class_lifo st hdrp index = Ret tt st' /\
    class_members (S fuel) st' index = hdrp :: l /\
    GET_PREV_PTR (mem st') hdrp = NULL /\
    (forall b, hd_error l = Some b -> GET_PREV_PTR (mem st') b = hdrp) /\
    (forall i, i <> index -> table_get st' i = table_get st i).
Proof.
  intros Hi Hlen Hcm Hfuel Hsc Haddr Hap.
  assert (Hhead : exists head, table_get st index = Some head).
  { unfold table_get. rewrite index_arr_size_28.
    destruct (Z.leb_spec 0 index); [|lia].
    destruct (Z.ltb_spec index 28); [|lia]. cbn [andb].
    destruct (nth_error (segregated_free_list st) (Z.to_nat index)) eqn:E;
      [eexists; reflexivity|].
    apply nth_error_None in E. lia. }
  destruct Hhead as (head & Hhead).
  unfold class_members in Hcm. rewrite Hhead in Hcm.
  pose proof (class_list_lseg _ _ _ _ Hcm Hfuel) as Hseg.
  unfold addresses in Haddr. apply Forall_cons_iff in Haddr.
  destruct Haddr as (Hh & Haddr). rewrite Forall_forall in Haddr.
  unfold apart in Hap. rewrite Forall_forall in Hap.
  unfold insert_into_size_class_lifo. rewrite Hhead.
  eexists. split; [reflexivity|].
  assert (Hcases : (head = NULL /\ l = []) \/
                   (head <> NULL /\ hd_error l = Some head)).
  { inversion Hseg; subst; [left|right]; auto. }
  split; [|split; [|split]].
  - unfold class_members.
    rewrite table_get_set_same by (try exact Hlen; assumption).
    apply lseg_class_list; [|simpl; lia].
    change (mem (table_set (set_mem st ?m) index hdrp)) with m.
    apply lseg_cons; [unfold NULL; lia|].
    destruct Hcases as [(-> & ->)|(Hne & Hhd)].
    + change (negb (NULL =? NULL)) with false. cbv iota.
      replace (GET_NEXT_PTR _ hdrp) with NULL; [apply lseg_nil|].
      links. reflexivity.
    + destruct (Z.eqb_spec head NULL) as [|_]; [contradiction|]. cbn [negb].
      assert (Hin : In head l).
      { destruct l; [discriminate|]. injection Hhd as ->. left. reflexivity. }
      pose proof (Haddr head Hin). pose proof (Hap head Hin).
      replace (GET_NEXT_PTR _ hdrp) with head.
      2:{ links. symmetry. apply wrap_small. lia. }
      eapply lseg_frame; [exact Hseg|].
      intros n Hn. pose proof (Hap n Hn).
      destruct (Hsc n head Hn Hin) as [->|Hd]; links; reflexivity.
  - change (mem (table_set (set_mem st ?m) index hdrp)) with m.
    destruct Hcases as [(-> & ->)|(Hne & Hhd)].
    + change (negb (NULL =? NULL)) with false. cbv iota.
      links. reflexivity.
    + destruct (Z.eqb_spec head NULL) as [|_]; [contradiction|]. cbn [negb].
      assert (Hin : In head l).
      { destruct l; [discriminate|]. injection Hhd as ->. left. reflexivity. }
      pose proof (Hap head Hin). links. reflexivity.
  - intros b Hb.
    change (mem (table_set (set_mem st ?m) index hdrp)) with m.
    destruct Hcases as [(-> & ->)|(Hne & Hhd)]; [discriminate|].
    rewrite Hhd in Hb. injection Hb as <-.
    destruct (Z.eqb_spec head NULL) as [|_]; [contradiction|]. cbn [negb].
    links. apply wrap_small. lia.
  - intros i Hne. rewrite table_get_set_other; [reflexivity|lia|exact Hne].
Qed.

Lemma insert_into_size_class_lifo_head_witness :
  exists st',
    insert_into_size_class_lifo two_free_heap 4148 1 = Ret tt st' /\
    class_members 4 st' 1 = [4148; 4100] /\
    GET_PREV_PTR (mem st') 4148 = NULL /\
    (forall b, hd_error [4100] = Some b -> GET_PREV_PTR (mem st') b = 4148) /\
    (forall i, i <> 1 -> table_get st' i = table_get two_free_heap i).
Proof.
  apply (insert_into_size_class_lifo_head 3 two_free_heap 4148 1 [4100]).
  - lia.
  - reflexivity.
  - reflexivity.
  - simpl. lia.
  - intros a b [<-|[]] [<-|[]]. left. reflexivity.
  - repeat constructor.
  - constructor; [|constructor]. left. unfold MIN_BK_SIZE. lia.
Defined.

End InsertLifo.

(** ** The allocation ledger of the [__HEAP_CHECK__] build *)

Section Ledger.

Import HeapCheck.

Lemma search_list_loop_split (l : list HeapStruct) (ptr : Z)
    (n : HeapStruct) :
  search_list_loop l ptr = Some n ->
  exists l1 l2,
    l = l1 ++ n :: l2 /\ Forall (fun x => pl_head x <> ptr) l1 /\
    pl_head n = ptr.
Proof.
  induction l as [|x l IH]; cbn [search_list_loop]; [discriminate|].
  destruct (Z.eqb_spec (pl_head x) ptr) as [E|E]; cbn [negb].
  - intros [= <-]. exists [], l. auto.
  - intros H. destruct (IH H) as (l1 & l2 & -> & Hl1 & Hn).
    exists (x :: l1), l2. auto.
Qed.

Lemma search_list_loop_none (l : list HeapStruct) (ptr : Z) :
  search_list_loop l ptr = None <-> ~ In ptr (map pl_head l).
Proof.
  induction l as [|x l IH]; cbn [search_list_loop map In]; [tauto|].
  destruct (Z.eqb_spec (pl_head x) ptr) as [E|E]; cbn [negb].
  - split; [discriminate|]. intros H. exfalso. apply H. left. exact E.
  - rewrite IH. tauto.
Qed.

Lemma delete_walk_found (ptr : Z) (n : HeapStruct) (l2 : list HeapStruct) :
  pl_head n = ptr ->
  forall (l1 : list HeapStruct) (cur : HeapStruct),
  Forall (fun x => pl_head x <> ptr) l1 ->
  delete_walk cur (l1 ++ n :: l2) ptr = (Some n, cur :: l1 ++ l2).
Proof.
  intros Hn. induction l1 as [|x l1 IH]; intros cur Hl1;
    cbn [app delete_walk].
  - destruct (Z.eqb_spec (pl_head n) ptr); [reflexivity|contradiction].
  - inversion Hl1; subst.
    destruct (Z.eqb_spec (pl_head x) (pl_head n)); [contradiction|].
    cbn [negb]. rewrite IH by assumption. reflexivity.
Qed.

Lemma delete_walk_absent (ptr : Z) :
  forall (l : list HeapStruct) (cur : HeapStruct),
  search_list_loop l ptr = None ->
  delete_walk cur l ptr = (None, cur :: l).
Proof.
  induction l as [|x l IH]; intros cur; cbn [search_list_loop delete_walk];
    [reflexivity|].
  destruct (Z.eqb_spec (pl_head x) ptr); cbn [negb]; [discriminate|].
  intros H. rewrite IH by exact H. reflexivity.
Qed.

Lemma delete_from_list_split (l : list HeapStruct) (ptr : Z) :
  (forall n, search_list_loop l ptr = Some n ->
     exists l1 l2,
       l = l1 ++ n :: l2 /\ Forall (fun x => pl_head x <> ptr) l1 /\
       delete_from_list l ptr = Some (Some n, l1 ++ l2)) /\
  (search_list_loop l ptr = None -> l <> [] ->
     delete_from_list l ptr = Some (None, l)).
Proof.
  split.
  - intros n Hs.
    destruct (search_list_loop_split l ptr n Hs) as (l1 & l2 & -> & Hl1 & Hn).
    exists l1, l2. split; [reflexivity|]. split; [exact Hl1|].
    destruct l1 as [|x l1]; cbn [app delete_from_list].
    + destruct (Z.eqb_spec (pl_head n) ptr); [reflexivity|contradiction].
    + inversion Hl1; subst.
      destruct (Z.eqb_spec (pl_head x) (pl_head n)); [contradiction|].
      rewrite delete_walk_found by auto. reflexivity.
  - intros Hs Hne. destruct l as [|x l]; [contradiction|].
    cbn [search_list_loop delete_from_list] in *.
    destruct (Z.eqb_spec (pl_head x) ptr); cbn [negb] in Hs; [discriminate|].
    rewrite delete_walk_absent by exact Hs. reflexivity.
Qed.

(** X13. [delete_from_list] unlinks the first node that records [ptr] and
    returns it: the list it leaves is the old one without that node, in the
    same order, and no node before it records [ptr].  It returns [NULL],
    leaving the list as it is, exactly when no node records [ptr]; on an
    empty list its assertion fails. *)
Theorem delete_from_list_removes_first (l : list HeapStruct) (ptr : Z) :
  match delete_from_list l ptr with
  | Some (Some n, l') =>
      exists l1 l2,
        l = l1 ++ n :: l2 /\ l' = l1 ++ l2 /\ pl_head n = ptr /\
        ~ In ptr (map pl_head l1)
  | Some (None, l') => l' = l /\ ~ In ptr (map pl_head l)
  | None => l = []
  end.
Proof.
  destruct (search_list_loop l ptr) as [n|] eqn:Hs.
  - destruct (proj1 (delete_from_list_split l ptr) n Hs)
      as (l1 & l2 & Hl & Hl1 & ->).
    destruct (search_list_loop_split l ptr n Hs) as (_ & _ & _ & _ & Hn).
    exists l1, l2. repeat split; try assumption.
    rewrite in_map_iff. intros (x & Hx & Hin).
    rewrite Forall_forall in Hl1. exact (Hl1 x Hin Hx).
  - destruct l as [|x l]; [reflexivity|].
    rewrite (proj2 (delete_from_list_split (x :: l) ptr) Hs) by discriminate.
    split; [reflexivity|]. apply search_list_loop_none. exact Hs.
Qed.

(** What a call of [add_to_alloc_list] that returns has checked and done. *)
Lemma add_to_alloc_list_inv (L L' : ledger) (ptr ps bs : Z) :
  ptr <> NULL ->
  add_to_alloc_list L ptr ps bs = Some L' ->
  search_list_loop (alloc_list L) ptr = None /\
  ps < bs /\ ptr + ps <= HDRP_USE_PLDP ptr + bs /\ ptr + ps < heap_tail L /\
  L' = mkLedger
         (mkHeapStruct (HDRP_USE_PLDP ptr) (HDRP_USE_PLDP ptr + bs)
                       ptr (ptr + ps) bs ps (-1) :: alloc_list L)
         (heap_head L) (heap_tail L).
Proof.
  intros Hp. unfold add_to_alloc_list, search_list.
  destruct (Z.eqb_spec ptr NULL); [contradiction|].
  destruct (addr_is_allocated (alloc_list L) ptr); [discriminate|].
  destruct (search_list_loop (alloc_list L) ptr); [discriminate|].
  destruct (Z.ltb_spec ps bs); cbn [negb]; [|discriminate].
  cbn [pl_tail pl_head bk_tail bk_head].
  destruct (_ && _) eqn:E; [|discriminate].
  intros [= <-].
  repeat (apply andb_prop in E; destruct E as (E & ?)).
  repeat split; try assumption; lia.
Qed.

(** X14. Round trip: releasing the pointer that [add_to_alloc_list] has just
    recorded gives back the ledger as it was. *)
Theorem add_then_delete (L L' : ledger) (ptr ps bs : Z) :
  ptr <> NULL ->
  add_to_alloc_list L ptr ps bs = Some L' ->
  delete_from_alloc_list L' ptr = Some L.
Proof.
  intros Hp Hadd.
  destruct (add_to_alloc_list_inv L L' ptr ps bs Hp Hadd)
    as (_ & _ & _ & _ & ->).
  unfold delete_from_alloc_list.
  destruct (Z.eqb_spec ptr NULL); [contradiction|].
  cbn [alloc_list delete_from_list pl_head heap_head heap_tail].
  rewrite Z.eqb_refl. destruct L. reflexivity.
Qed.

Lemma add_then_delete_witness :
  delete_from_alloc_list
    (mkLedger [mkHeapStruct 4100 4116 4104 4116 16 12 (-1)] 4096 8200) 4104
  = Some (mkLedger [] 4096 8200).
Proof.
  apply (add_then_delete (mkLedger [] 4096 8200) _ 4104 12 16).
  - discriminate.
  - reflexivity.
Defined.

(** X15. A pointer is recorded once: recording again a pointer that the ledger
    holds fails an assertion, whatever the sizes given. *)
Theorem add_twice_aborts (L L' : ledger) (ptr ps bs ps' bs' : Z) :
  ptr <> NULL ->
  add_to_alloc_list L ptr ps bs = Some L' ->
  add_to_alloc_list L' ptr ps' bs' = None.
Proof.
  intros Hp Hadd.
  destruct (add_to_alloc_list_inv L L' ptr ps bs Hp Hadd)
    as (_ & _ & _ & _ & ->).
  unfold add_to_alloc_list, search_list.
  destruct (Z.eqb_spec ptr NULL); [contradiction|].
  destruct (addr_is_allocated _ ptr); [reflexivity|].
  cbn [alloc_list search_list_loop pl_head].
  rewrite Z.eqb_refl. reflexivity.
Qed.

Lemma add_twice_aborts_witness :
  add_to_alloc_list
    (mkLedger [mkHeapStruct 4100 4116 4104 4116 16 12 (-1)] 4096 8200)
    4104 28 32
  = None.
Proof.
  apply (add_twice_aborts (mkLedger [] 4096 8200) _ 4104 12 16 28 32).
  - discriminate.
  - reflexivity.
Defined.

(** X16. [add_to_alloc_list] keeps the ledger sound.  The pointer is [NULL]
    or at least [WSIZE], and its sums with the two sizes stay below [2^32],
    so that the pointer arithmetic of the call does not wrap.  If every node
    is as the assertions leave one and no payload pointer occurs twice, a
    call that returns leaves a ledger of which the same holds. *)
Theorem add_to_alloc_list_keeps_ledger (L L' : ledger) (ptr ps bs : Z) :
  ledger_ok L ->
  ptr = NULL \/ WSIZE <= ptr ->
  0 <= ps -> ptr + ps < 2 ^ 32 -> HDRP_USE_PLDP ptr + bs < 2 ^ 32 ->
  add_to_alloc_list L ptr ps bs = Some L' ->
  ledger_ok L'.
Proof.
  intros (Hnodes & Hdup) _ _ _ _ Hadd.
  destruct (Z.eq_dec ptr NULL) as [Hp|Hp].
  - unfold add_to_alloc_list in Hadd. rewrite Hp in Hadd.
    change (NULL =? NULL) with true in Hadd. cbv iota in Hadd.
    injection Hadd as <-. split; assumption.
  - destruct (add_to_alloc_list_inv L L' ptr ps bs Hp Hadd)
      as (Hnew & Hlt & Hin & Htail & ->).
    split; cbn [alloc_list map pl_head].
    + constructor.
      * unfold node_ok.
        cbn [bk_head bk_tail pl_head pl_tail bk_size pl_size heap_tail].
        repeat split; assumption.
      * exact Hnodes.
    + constructor; [|exact Hdup].
      apply search_list_loop_none. exact Hnew.
Qed.

Lemma add_to_alloc_list_keeps_ledger_witness :
  ledger_ok
    (mkLedger [mkHeapStruct 4100 4116 4104 4116 16 12 (-1)] 4096 8200).
Proof.
  apply (add_to_alloc_list_keeps_ledger (mkLedger [] 4096 8200) _ 4104 12 16).
  - split; constructor.
  - right. unfold WSIZE. lia.
  - lia.
  - lia.
  - unfold HDRP_USE_PLDP, WSIZE. lia.
  - reflexivity.
Defined.

(** X17. [delete_from_alloc_list] keeps the ledger sound, and on a sound ledger
    the pointer it released is no longer recorded. *)
Theorem delete_from_alloc_list_forgets (L L' : ledger) (ptr : Z) :
  ledger_ok L ->
  delete_from_alloc_list L ptr = Some L' ->
  ledger_ok L' /\ search_list (alloc_list L') ptr = Some None.
Proof.
  intros (Hnodes & Hdup). unfold delete_from_alloc_list, search_list.
  destruct (Z.eqb_spec ptr NULL) as [|Hp]; [discriminate|].
  destruct (search_list_loop (alloc_list L) ptr) as [n|] eqn:Hs.
  - destruct (proj1 (delete_from_list_split (alloc_list L) ptr) n Hs)
      as (l1 & l2 & Hl & Hl1 & Hdel).
    rewrite Hdel. intros [= <-]. cbn [alloc_list].
    rewrite Hl in Hnodes, Hdup. rewrite map_app in Hdup. cbn [map] in Hdup.
    apply NoDup_remove in Hdup. destruct Hdup as (Hdup & Hnot).
    apply Forall_app in Hnodes. destruct Hnodes as (Hn1 & Hn2).
    inversion Hn2; subst.
    destruct (search_list_loop_split _ _ _ Hs) as (_ & _ & _ & _ & Hn).
    split; [split|]; cbn [alloc_list].
    + apply Forall_app. split; assumption.
    + rewrite map_app. exact Hdup.
    + f_equal. apply search_list_loop_none. rewrite map_app, <- Hn.
      exact Hnot.
  - pose proof (proj2 (delete_from_list_split (alloc_list L) ptr) Hs) as Hdel.
    destruct (alloc_list L) as [|x l]; [discriminate|].
    rewrite Hdel by discriminate. discriminate.
Qed.

Lemma delete_from_alloc_list_forgets_witness :
  ledger_ok (mkLedger [] 4096 8200) /\
  search_list (alloc_list (mkLedger [] 4096 8200)) 4104 = Some None.
Proof.
  apply (delete_from_alloc_list_forgets
           (mkLedger [mkHeapStruct 4100 4116 4104 4116 16 12 (-1)] 4096 8200)
           _ 4104).
  - split; [repeat constructor; simpl; lia|].
    constructor; [intros []|constructor].
  - reflexivity.
Defined.

(** X18. On a sound ledger an address inside a recorded payload is inside a
    recorded block: where [mm_malloc] has asserted that [pldp] is not
    allocated, its next assertion, that [pldp] is no payload, cannot
    fail. *)
Theorem payload_is_allocated (L : ledger) (addr : Z) :
  Forall (node_ok L) (alloc_list L) ->
  addr_is_payload (alloc_list L) addr = true ->
  addr_is_allocated (alloc_list L) addr = true.
Proof.
  induction (alloc_list L) as [|n l IH]; cbn [addr_is_payload
    addr_is_allocated]; [discriminate|].
  intros Hok. inversion Hok as [|? ? Hn Hl]; subst.
  destruct Hn as (Hbh & _ & _ & _ & Hle & _).
  unfold HDRP_USE_PLDP, WSIZE in Hbh.
  destruct (Z.leb_spec (pl_head n) addr); destruct (Z.ltb_spec addr (pl_tail n));
    cbn [andb]; intros Hp;
    destruct (Z.leb_spec (bk_head n) addr);
    destruct (Z.ltb_spec addr (bk_tail n)); cbn [andb];
    try reflexivity; try lia; apply IH; assumption.
Qed.

Lemma payload_is_allocated_witness :
  addr_is_allocated
    (alloc_list
       (mkLedger [mkHeapStruct 4100 4116 4104 4116 16 12 (-1)] 4096 8200))
    4110 = true.
Proof.
  apply payload_is_allocated.
  - repeat constructor; simpl; lia.
  - reflexivity.
Defined.

End Ledger.

(** ** Requests that round to an empty chunk *)

Section EmptyChunk.

Lemma find_index_below_classes (size : Z) :
  size < 16 -> find_index size = -1.
Proof.
  intros Hs. destruct (find_index_cut size) as (Hr & Hle & _).
  destruct (Z.eq_dec (find_index size + 1) 0) as [|Hne]; [lia|].
  specialize (Hle 0 ltac:(lia)). change (boundary 0) with 16 in Hle. lia.
Qed.

Lemma extend_heap_empty_chunk (fuel : nat) (st : state) (size : Z) :
  ALIGN_CHUNKSIZE size = 0 -> mem_brk st <= mem_max_addr st ->
  extend_heap fuel st size = Undef.
Proof.
  intros Hz Hroom. unfold extend_heap, mem_sbrk. rewrite Hz.
  cbn [call mem_brk mem_max_addr]. rewrite Z.add_0_r.
  destruct (Z.leb_spec (mem_brk st) (mem_max_addr st)); [|lia].
  rewrite find_index_below_classes by lia.
  unfold insert_into_size_class, table_get. reflexivity.
Qed.

Lemma ALIGN_near_limit (size : Z) :
  2 ^ 32 - 4100 < size <= 2 ^ 32 - 20 ->
  ALIGN_CHUNKSIZE (ALIGN (wrap (size + WSIZE))) = 0.
Proof.
  intros Hs. unfold WSIZE. rewrite ALIGN_CHUNKSIZE_eq, ALIGN_eq.
  rewrite (wrap_small (size + 4)) by lia.
  rewrite (wrap_small (size + 4 + 15)) by lia.
  pose proof (Z.div_mod (size + 4 + 15) 16 ltac:(lia)).
  pose proof (Z.mod_pos_bound (size + 4 + 15) 16 ltac:(lia)).
  set (a := 16 * ((size + 4 + 15) / 16)) in *.
  assert (Ha : 2 ^ 32 - 4096 < a < 2 ^ 32) by lia.
  unfold wrap.
  replace (a + 4095) with ((a + 4095 - 2 ^ 32) + 1 * 2 ^ 32) by lia.
  rewrite Z.mod_add by lia. rewrite (Z.mod_small (a + 4095 - 2 ^ 32)) by lia.
  rewrite Z.div_small by lia. reflexivity.
Qed.

(** X19. A request within 4100 bytes of [2^32] that no block can serve makes
    [extend_heap] round the adjusted size to an empty chunk: [find_index(0)]
    is [-1], and [insert_into_size_class] reads [segregated_free_list[-1]],
    outside the table. *)
Theorem mm_malloc_near_limit_leaves_table (fuel : nat) (st : state)
    (size : Z) :
  2 ^ 32 - 4100 < size <= 2 ^ 32 - 20 ->
  find_first_fit_loop fuel (mem st) (heap_listp st)
    (ALIGN (wrap (size + WSIZE))) = Some NULL ->
  mem_brk st <= mem_max_addr st ->
  find_index (ALIGN_CHUNKSIZE (ALIGN (wrap (size + WSIZE)))) = -1 /\
  mm_malloc fuel st size = Undef.
Proof.
  intros Hs Hfit Hroom. rewrite ALIGN_near_limit by exact Hs.
  split; [reflexivity|].
  unfold mm_malloc. destruct (Z.eqb_spec size 0); [lia|].
  unfold find_first_fit. cbn [call mem heap_listp]. rewrite Hfit.
  cbn [bind]. change (negb (NULL =? NULL)) with false. cbv iota.
  rewrite extend_heap_empty_chunk;
    [reflexivity|apply ALIGN_near_limit; exact Hs|exact Hroom].
Qed.

Lemma mm_malloc_near_limit_leaves_table_witness :
  find_index (ALIGN_CHUNKSIZE (ALIGN (wrap (4294963296 + WSIZE)))) = -1 /\
  mm_malloc 3 fresh_heap 4294963296 = Undef.
Proof.
  apply (mm_malloc_near_limit_leaves_table 3 fresh_heap 4294963296).
  - lia.
  - reflexivity.
  - simpl. lia.
Defined.

End EmptyChunk.

(** ** [to_hex_str]: the digits printed denote the word *)

Section HexStr.

Lemma hex_digit (num i : Z) :
  0 <= i <= 28 ->
  Z.shiftr (Z.land num (wrap (Z.shiftl (Z.shiftl 1 4 - 1) i))) i
  = (num / 2 ^ i) mod 16.
Proof.
  intros Hi. change (Z.shiftl 1 4 - 1) with (Z.ones 4).
  assert (Hs : 0 <= Z.shiftl (Z.ones 4) i < 2 ^ 32).
  { rewrite Z.shiftl_mul_pow2 by lia. change (Z.ones 4) with 15.
    assert (0 < 2 ^ i) by (apply Z.pow_pos_nonneg; lia).
    assert (2 ^ i <= 2 ^ 28) by (apply Z.pow_le_mono_r; lia).
    lia. }
  rewrite wrap_small by exact Hs.
  rewrite Z.shiftr_land, Z.shiftr_shiftl_l by lia.
  rewrite Z.sub_diag, Z.shiftl_0_r, Z.land_ones by lia.
  rewrite Z.shiftr_div_pow2 by lia. reflexivity.
Qed.

(** X20. [to_hex_str] prints eight values below 16, most significant first, and
    read as hexadecimal digits they denote [num]; separators, when asked
    for, change no digit, and the output ends with the newline. *)
Theorem to_hex_str_denotes (num sep : Z) :
  0 <= num < 2 ^ 32 ->
  length (hex_digits (to_hex_str num sep)) = 8%nat /\
  Forall (fun d => 0 <= d < 16) (hex_digits (to_hex_str num sep)) /\
  hex_value (hex_digits (to_hex_str num sep)) = num /\
  last (to_hex_str num sep) Space = Newline.
Proof.
  intros Hn.
  assert (Hd : hex_digits (to_hex_str num sep)
               = map (fun i => (num / 2 ^ i) mod 16)
                     [28; 24; 20; 16; 12; 8; 4; 0]).
  { unfold to_hex_str. cbn [to_hex_str_loop Z.sub Z.leb].
    change (32 - 4) with 28.
    repeat match goal with
           | |- context [0 <=? ?i] => change (0 <=? i) with true; cbv iota
           end.
    cbn [Z.leb Z.compare Z.sub Z.add Z.opp Z.pos_sub Pos.sub Pos.pred_double
         Pos.compare Pos.compare_cont].
    destruct (negb (sep =? 0)); cbn [andb Z.modulo Z.eqb app hex_digits map];
      rewrite !hex_digit by lia; reflexivity. }
  split; [rewrite Hd; reflexivity|]. split; [|split].
  - rewrite Hd. repeat constructor; apply Z.mod_pos_bound; lia.
  - rewrite Hd. cbn [map hex_value fold_left].
    change (2 ^ 0) with 1. change (2 ^ 4) with 16. change (2 ^ 8) with (16 * 16).
    change (2 ^ 12) with (16 * 16 * 16).
    change (2 ^ 16) with (16 * 16 * 16 * 16).
    change (2 ^ 20) with (16 * 16 * 16 * 16 * 16).
    change (2 ^ 24) with (16 * 16 * 16 * 16 * 16 * 16).
    change (2 ^ 28) with (16 * 16 * 16 * 16 * 16 * 16 * 16).
    rewrite <- !Z.div_div by lia. rewrite Z.div_1_r.
    set (q1 := num / 16). set (q2 := q1 / 16). set (q3 := q2 / 16).
    set (q4 := q3 / 16). set (q5 := q4 / 16). set (q6 := q5 / 16).
    set (q7 := q6 / 16).
    pose proof (Z.div_mod num 16 ltac:(lia)).
    pose proof (Z.div_mod q1 16 ltac:(lia)).
    pose proof (Z.div_mod q2 16 ltac:(lia)).
    pose proof (Z.div_mod q3 16 ltac:(lia)).
    pose proof (Z.div_mod q4 16 ltac:(lia)).
    pose proof (Z.div_mod q5 16 ltac:(lia)).
    pose proof (Z.div_mod q6 16 ltac:(lia)).
    pose proof (Z.div_mod q7 16 ltac:(lia)).
    assert (q7 / 16 = 0).
    { subst q7 q6 q5 q4 q3 q2 q1. rewrite !Z.div_div by lia.
      apply Z.div_small. lia. }
    lia.
  - unfold to_hex_str. apply last_last.
Qed.

Lemma to_hex_str_denotes_witness :
  length (hex_digits (to_hex_str 4098 1)) = 8%nat /\
  Forall (fun d => 0 <= d < 16) (hex_digits (to_hex_str 4098 1)) /\
  hex_value (hex_digits (to_hex_str 4098 1)) = 4098 /\
  last (to_hex_str 4098 1) Space = Newline.
Proof. apply (to_hex_str_denotes 4098 1). lia. Defined.

End HexStr.

(** ** [backward_collect]: growing a block over its free successors *)

Section BackwardCollect.

Lemma lor_prev_idem (x : Z) :
  Z.lor (Z.lor x PREV_ALLOC) PREV_ALLOC = Z.lor x PREV_ALLOC.
Proof. rewrite <- Z.lor_assoc, Z.lor_diag. reflexivity. Qed.

Lemma size_ignores_prev (x y : Z) :
  Z.lor x PREV_ALLOC = Z.lor y PREV_ALLOC ->
  Z.land x (Z.lnot 7) = Z.land y (Z.lnot 7) /\
  Z.land x CURR_ALLOC = Z.land y CURR_ALLOC.
Proof.
  intros H. unfold PREV_ALLOC, CURR_ALLOC in *. split.
  - rewrite <- (size_lor_flags x 2), <- (size_lor_flags y 2) by lia.
    rewrite H. reflexivity.
  - rewrite <- (alloc_lor_prev x), <- (alloc_lor_prev y), H. reflexivity.
Qed.

Lemma collected_size_grows (m : heap) (target : Z) :
  forall (fuel : nat) (have next final : Z),
  collected_size fuel m have next target = Some final -> have <= final.
Proof.
  induction fuel as [|fuel IH]; intros have next final; [discriminate|].
  cbn [collected_size].
  destruct ((have <? target) && (GET_ALLOC m next =? 0)).
  - intros H. apply IH in H.
    pose proof (GET_SIZE_range m next). lia.
  - intros [= <-]. lia.
Qed.

(** The loop of [backward_collect], which rewrites headers as it goes,
    against the walk over the heap it started from. *)
Lemma backward_collect_loop_walk (m0 : heap) (hdrp target s0 : Z) :
  forall (fuel : nat) (m : heap) (have final : Z),
  GET_SIZE m hdrp = have ->
  0 < have ->
  (forall a, a <> hdrp ->
     Z.lor (READ_WORD m a) PREV_ALLOC = Z.lor (READ_WORD m0 a) PREV_ALLOC) ->
  (s0 < have -> GET_PREV_ALLOC m (hdrp + have) = PREV_ALLOC) ->
  collected_size fuel m0 have (hdrp + have) target = Some final ->
  final < 2 ^ 32 ->
  exists m',
    backward_collect_loop fuel m hdrp (hdrp + have) target = Some m' /\
    GET_SIZE m' hdrp = final /\
    READ_WORD m' hdrp = READ_WORD m hdrp + (final - have) /\
    (forall a, a <> hdrp ->
       Z.lor (READ_WORD m' a) PREV_ALLOC = Z.lor (READ_WORD m0 a) PREV_ALLOC) /\
    (s0 < final -> GET_PREV_ALLOC m' (hdrp + final) = PREV_ALLOC).
Proof.
  induction fuel as [|fuel IH];
    intros m have final Hsz Hpos Hsame Hpv0 Hwalk Hfit; [discriminate|].
  cbn [collected_size backward_collect_loop] in *.
  assert (Hnext : hdrp + have <> hdrp) by lia.
  destruct (size_ignores_prev _ _ (Hsame _ Hnext)) as (Hs & Ha).
  fold (GET_SIZE m (hdrp + have)) (GET_SIZE m0 (hdrp + have)) in Hs.
  fold (GET_ALLOC m (hdrp + have)) (GET_ALLOC m0 (hdrp + have)) in Ha.
  rewrite Hsz, Ha.
  destruct ((have <? target) && (GET_ALLOC m0 (hdrp + have) =? 0)).
  2:{ injection Hwalk as <-. exists m. repeat split.
      - exact Hsz.
      - lia.
      - exact Hsame.
      - exact Hpv0. }
  rewrite Hs. set (s := GET_SIZE m0 (hdrp + have)) in *.
  pose proof (GET_SIZE_range m0 (hdrp + have)) as ((Hs0 & _) & Hs8).
  fold s in Hs0, Hs8.
  pose proof (collected_size_grows _ _ _ _ _ _ Hwalk) as Hle.
  pose proof (READ_WORD_range m hdrp) as Hr.
  assert (Hfits : 8 * (READ_WORD m hdrp / 8) + s < 2 ^ 32).
  { rewrite <- GET_SIZE_eq, Hsz. lia. }
  set (m1 := WRITE_WORD m hdrp (READ_WORD m hdrp + s)).
  set (m2 := SET_PREV_ALLOC_BIT m1 (hdrp + have + s)).
  assert (Hh2 : READ_WORD m2 hdrp = READ_WORD m hdrp + s).
  { subst m2 m1. unfold SET_PREV_ALLOC_BIT.
    rewrite READ_WRITE_other by lia. rewrite READ_WRITE_same.
    apply word_add_fits; assumption. }
  destruct (IH m2 (have + s) final) as (m' & Hret & Hsize & Hhdr & Hfr & Hpv).
  - unfold GET_SIZE. rewrite Hh2.
    rewrite <- (word_add_fits (READ_WORD m hdrp) s) by assumption.
    rewrite size_after_add by assumption.
    rewrite <- GET_SIZE_eq, Hsz. reflexivity.
  - lia.
  - intros a Ha'. subst m2 m1. unfold SET_PREV_ALLOC_BIT.
    destruct (Z.eq_dec a (hdrp + have + s)) as [->|Hne].
    + rewrite READ_WRITE_same.
      rewrite wrap_lor by (first [apply READ_WORD_range
                                 |unfold PREV_ALLOC; lia]).
      rewrite lor_prev_idem. rewrite READ_WRITE_other by lia.
      apply Hsame. lia.
    + rewrite !READ_WRITE_other by assumption. apply Hsame. exact Ha'.
  - intros _. subst m2. unfold SET_PREV_ALLOC_BIT, GET_PREV_ALLOC.
    replace (hdrp + (have + s)) with (hdrp + have + s) by lia.
    rewrite READ_WRITE_same.
    rewrite wrap_lor by (first [apply READ_WORD_range
                               |unfold PREV_ALLOC; lia]).
    apply land_lor_same.
  - replace (hdrp + (have + s)) with (hdrp + have + s) by lia. exact Hwalk.
  - exact Hfit.
  - replace (hdrp + (have + s)) with (hdrp + have + s) in Hret by lia.
    exists m'. split; [exact Hret|]. split; [exact Hsize|].
    split; [rewrite Hhdr, Hh2; lia|]. split; [exact Hfr|exact Hpv].
Qed.

(** X21. [backward_collect] rewrites headers while it walks over them, and still
    gathers what the walk over the untouched heap gathers: when that walk
    ends within the loop counter, at a size [final] that fits a word, the
    call returns, the block's header has grown by [final] less its old size
    with its flag bits as they were, every other word is as before up to
    its previous-allocated bit (no footer is written), the walk stopped
    because the block is large enough or its successor is allocated, and if
    the block grew, the header after it has its previous-allocated bit
    set. *)
Theorem backward_collect_walk (fuel : nat) (m : heap)
    (hdrp target final : Z) :
  0 < GET_SIZE m hdrp ->
  collected_size fuel m (GET_SIZE m hdrp) (hdrp + GET_SIZE m hdrp) target
  = Some final ->
  final < 2 ^ 32 ->
  exists m',
    backward_collect fuel m hdrp target = Some m' /\
    GET_SIZE m' hdrp = final /\
    READ_WORD m' hdrp = READ_WORD m hdrp + (final - GET_SIZE m hdrp) /\
    Z.land (READ_WORD m' hdrp) 7 = Z.land (READ_WORD m hdrp) 7 /\
    (forall a, a <> hdrp ->
       Z.lor (READ_WORD m' a) PREV_ALLOC = Z.lor (READ_WORD m a) PREV_ALLOC) /\
    (target <= final \/ GET_ALLOC m (hdrp + final) <> 0) /\
    (GET_SIZE m hdrp < final ->
     GET_PREV_ALLOC m' (hdrp + final) = PREV_ALLOC).
Proof.
  intros Hpos Hwalk Hfit. unfold backward_collect.
  destruct (backward_collect_loop_walk m hdrp target (GET_SIZE m hdrp)
              fuel m (GET_SIZE m hdrp) final)
    as (m' & Hret & Hsize & Hhdr & Hfr & Hpv);
    try assumption; try reflexivity; try lia.
  exists m'. split; [exact Hret|]. split; [exact Hsize|].
  split; [exact Hhdr|].
  pose proof (collected_size_grows _ _ _ _ _ _ Hwalk) as Hle.
  pose proof (GET_SIZE_range m hdrp) as (_ & H8).
  pose proof (GET_SIZE_range m' hdrp) as (_ & H8').
  rewrite Hsize in H8'.
  split; [|split; [exact Hfr|split; [|exact Hpv]]].
  - rewrite Hhdr.
    rewrite <- (word_add_fits (READ_WORD m hdrp) (final - GET_SIZE m hdrp)).
    + apply flags_after_add.
      * apply READ_WORD_range.
      * lia.
      * rewrite Zminus_mod, H8, H8'. reflexivity.
      * rewrite <- GET_SIZE_eq. lia.
    + apply READ_WORD_range.
    + lia.
    + rewrite Zminus_mod, H8, H8'. reflexivity.
    + rewrite <- GET_SIZE_eq. lia.
  - clear Hret Hsize Hhdr Hfr Hpv m'. revert Hwalk.
    generalize (GET_SIZE m hdrp) as have.
    induction fuel as [|fuel IH]; intros have; [discriminate|].
    cbn [collected_size].
    destruct (Z.ltb_spec have target) as [Hlt|Hge];
      destruct (Z.eqb_spec (GET_ALLOC m (hdrp + have)) 0) as [Hz|Hnz];
      cbn [andb].
    + replace (hdrp + have + GET_SIZE m (hdrp + have))
        with (hdrp + (have + GET_SIZE m (hdrp + have))) by lia.
      apply IH.
    + intros [= <-]. right. exact Hnz.
    + intros [= <-]. left. exact Hge.
    + intros [= <-]. left. exact Hge.
Qed.

Lemma backward_collect_walk_witness :
  exists m',
    backward_collect 3 unmerged_heap 4100 48 = Some m' /\
    GET_SIZE m' 4100 = 48 /\
    READ_WORD m' 4100 = READ_WORD unmerged_heap 4100
                        + (48 - GET_SIZE unmerged_heap 4100) /\
    Z.land (READ_WORD m' 4100) 7 = Z.land (READ_WORD unmerged_heap 4100) 7 /\
    (forall a, a <> 4100 ->
       Z.lor (READ_WORD m' a) PREV_ALLOC
       = Z.lor (READ_WORD unmerged_heap a) PREV_ALLOC) /\
    (48 <= 48 \/ GET_ALLOC unmerged_heap (4100 + 48) <> 0) /\
    (GET_SIZE unmerged_heap 4100 < 48 ->
     GET_PREV_ALLOC m' (4100 + 48) = PREV_ALLOC).
Proof.
  apply (backward_collect_walk 3 unmerged_heap 4100 48 48).
  - reflexivity.
  - reflexivity.
  - lia.
Defined.

End BackwardCollect.

(** ** [forward_collect]: gathering the free blocks before a block *)

Section ForwardCollect.

Lemma gathers_grows (m : heap) (old target : Z) (ret c ret' c' : Z)
    (n : nat) :
  gathers m old target ret c ret' c' n ->
  c <= c' /\ ret' <= ret /\ ret' + c' = ret + c /\
  (c mod 8 = 0 -> c' mod 8 = 0) /\
  ~ (c' + old < target /\ GET_PREV_ALLOC m ret' = 0).
Proof.
  induction 1 as [ret c Hstop|ret c ret' c' n Hlt Hp Hpos Hhf _ IH].
  - split; [lia|]. split; [lia|]. split; [lia|]. split; [auto|exact Hstop].
  - destruct IH as (H1 & H2 & H3 & H4 & H5).
    pose proof (GET_SIZE_range m (ret - WSIZE)) as ((Hs0 & _) & H8).
    split; [lia|]. split; [lia|]. split; [lia|]. split; [|exact H5].
    intros Hc. apply H4. rewrite Z.add_mod, H8, Hc by lia. reflexivity.
Qed.

(** The loop of [forward_collect] on the heap [m], which it has written
    between [ret] and [hdrp] only, against the walk over the heap [m0] it
    started from. *)
Lemma forward_collect_loop_walk (m0 : heap) (hdrp old target : Z)
    (ret c ret' c' : Z) (n : nat) :
  gathers m0 old target ret c ret' c' n ->
  forall (fuel : nat) (m : heap),
  (n < fuel)%nat ->
  ret < hdrp - WSIZE -> c mod 8 = 0 -> 0 <= c -> c' + old < 2 ^ 32 ->
  0 <= old ->
  (forall a, a < ret \/ hdrp <= a -> READ_WORD m a = READ_WORD m0 a) ->
  Z.land (READ_WORD m ret) 7 = Z.land (READ_WORD m0 ret) 7 ->
  exists m',
    forward_collect_loop fuel m ret (hdrp - WSIZE) c old target
    = Some (ret', c', m') /\
    (forall a, a < ret' \/ hdrp <= a -> READ_WORD m' a = READ_WORD m0 a) /\
    Z.land (READ_WORD m' ret') 7 = Z.land (READ_WORD m0 ret') 7 /\
    (ret' < ret ->
     GET_SIZE m' ret' = c' /\
     READ_WORD m' (hdrp - WSIZE) = READ_WORD m' ret') /\
    (ret' = ret -> m' = m).
Proof.
  induction 1 as [ret c Hstop|ret c ret' c' n Hlt Hp Hpos Hhf Hg IH];
    intros fuel m Hfuel Hret Hc8 Hc0 Hfit Hold Hsame Hflags;
    (destruct fuel as [|fuel]; [lia|]); cbn [forward_collect_loop].
  - assert (Hpa : GET_PREV_ALLOC m ret = GET_PREV_ALLOC m0 ret).
    { unfold GET_PREV_ALLOC, PREV_ALLOC.
      change 2 with (Z.land 7 2). rewrite !Z.land_assoc, Hflags.
      reflexivity. }
    rewrite Hpa, wrap_small by lia.
    destruct (Z.ltb_spec (c + old) target) as [H1|H1];
      destruct (Z.eqb_spec (GET_PREV_ALLOC m0 ret) 0) as [H2|H2];
      cbn [andb]; try (exfalso; apply Hstop; split; assumption);
      (exists m; repeat split; try assumption; try lia; reflexivity).
  - pose proof (gathers_grows _ _ _ _ _ _ _ _ Hg) as (Hle & Hlow & _).
    assert (Hpa : GET_PREV_ALLOC m ret = GET_PREV_ALLOC m0 ret).
    { unfold GET_PREV_ALLOC, PREV_ALLOC.
      change 2 with (Z.land 7 2). rewrite !Z.land_assoc, Hflags.
      reflexivity. }
    rewrite Hpa, Hp, wrap_small by lia.
    destruct (Z.ltb_spec (c + old) target); [|lia].
    change (0 =? 0) with true. cbn [andb].
    unfold WSIZE in *.
    assert (Hft : GET_SIZE m (ret - 4) = GET_SIZE m0 (ret - 4)).
    { unfold GET_SIZE. rewrite Hsame by lia. reflexivity. }
    rewrite Hft. set (s := GET_SIZE m0 (ret - 4)) in *.
    pose proof (GET_SIZE_range m0 (ret - 4)) as (_ & Hs8). fold s in Hs8.
    assert (Hrd : READ_WORD m (ret - s) = READ_WORD m0 (ret - s)).
    { apply Hsame. lia. }
    pose proof (READ_WORD_range m0 (ret - s)) as Hr.
    assert (Hfits : 8 * (READ_WORD m0 (ret - s) / 8) + c < 2 ^ 32).
    { rewrite <- GET_SIZE_eq, Hhf. lia. }
    set (m1 := WRITE_WORD m (ret - s) (READ_WORD m (ret - s) + c)).
    assert (Hh1 : READ_WORD m1 (ret - s) = READ_WORD m0 (ret - s) + c).
    { subst m1. rewrite READ_WRITE_same, Hrd.
      apply word_add_fits; assumption. }
    assert (Hsz1 : GET_SIZE m1 (ret - s) = s + c).
    { unfold GET_SIZE. rewrite Hh1.
      rewrite <- (word_add_fits (READ_WORD m0 (ret - s)) c) by assumption.
      rewrite size_after_add by assumption.
      rewrite <- GET_SIZE_eq, Hhf. reflexivity. }
    rewrite Hsz1.
    set (m2 := WRITE_WORD m1 (hdrp - 4) (READ_WORD m1 (ret - s))).
    destruct (IH fuel m2) as (m' & Hrun & Hfr & Hfl & Hlast & Hsame');
      try lia.
    + rewrite Z.add_mod, Hs8, Hc8 by lia. reflexivity.
    + intros a Ha. subst m2 m1. rewrite !READ_WRITE_other by lia.
      apply Hsame. lia.
    + subst m2. rewrite READ_WRITE_other by lia. rewrite Hh1.
      rewrite <- (word_add_fits (READ_WORD m0 (ret - s)) c) by assumption.
      apply flags_after_add; assumption.
    + exists m'. split; [exact Hrun|]. split; [exact Hfr|].
      split; [exact Hfl|]. split; [|lia].
      intros _. destruct (Z.eq_dec ret' (ret - s)) as [E|E].
      * rewrite (Hsame' E). rewrite E. subst m2. split.
        -- unfold GET_SIZE. rewrite READ_WRITE_other by lia.
           fold (GET_SIZE m1 (ret - s)). rewrite Hsz1.
           pose proof (gathers_grows _ _ _ _ _ _ _ _ Hg) as (_ & _ & Hsum & _).
           lia.
        -- rewrite READ_WRITE_same, (READ_WRITE_other _ _ _ (ret - s)) by lia.
           apply wrap_read.
      * apply Hlast. lia.
Qed.

(** X22. [forward_collect] gathers the free blocks that lie before [hdrp] and
    never [hdrp] itself.  When the block before [hdrp] is free and the walk
    over the untouched heap stops [n] blocks lower, within the loop counter,
    the call returns the header [ret] reached and the bytes [c] gathered:
    they end exactly at [hdrp], whose own header and everything from it on
    are unchanged, as is everything below [ret]; the walk stopped because
    the gathered bytes and the block's own reach the target or the block
    before [ret] is allocated; and if the loop ran, the header at [ret]
    holds the gathered size and the word before [hdrp] is a copy of it. *)
Theorem forward_collect_walk (fuel n : nat) (m : heap)
    (hdrp collected_size target ret c : Z) :
  GET_PREV_ALLOC m hdrp = 0 ->
  WSIZE < GET_SIZE m (hdrp - WSIZE) ->
  gathers m (GET_SIZE m hdrp) target
          (hdrp - GET_SIZE m (hdrp - WSIZE)) (GET_SIZE m (hdrp - WSIZE))
          ret c n ->
  (n < fuel)%nat ->
  c + GET_SIZE m hdrp < 2 ^ 32 ->
  exists m',
    forward_collect fuel m hdrp collected_size target = Some (ret, c, m') /\
    ret + c = hdrp /\
    (forall a, a < ret \/ hdrp <= a -> READ_WORD m' a = READ_WORD m a) /\
    (target <= c + GET_SIZE m hdrp \/ GET_PREV_ALLOC m ret <> 0) /\
    ((0 < n)%nat ->
     GET_SIZE m' ret = c /\ READ_WORD m' (hdrp - WSIZE) = READ_WORD m' ret).
Proof.
  intros Hp Hpos Hg Hfuel Hfit. unfold forward_collect. rewrite Hp.
  change (negb (0 =? 0)) with false. cbv iota.
  pose proof (GET_SIZE_range m (hdrp - WSIZE)) as ((Hc0 & _) & Hc8).
  pose proof (GET_SIZE_range m hdrp) as ((Hold & _) & _).
  pose proof (gathers_grows _ _ _ _ _ _ _ _ Hg) as (Hle & Hlow & Hsum & _ & Hstop).
  destruct (forward_collect_loop_walk m hdrp (GET_SIZE m hdrp) target
              _ _ _ _ _ Hg fuel m)
    as (m' & Hrun & Hfr & _ & Hlast & _); try assumption; try lia;
    try reflexivity.
  exists m'. split; [exact Hrun|]. split; [lia|]. split; [exact Hfr|].
  split.
  - destruct (Z_lt_le_dec (c + GET_SIZE m hdrp) target) as [Hlt|Hge];
      [|left; exact Hge].
    right. intros Hz. apply Hstop. split; assumption.
  - intros Hn. apply Hlast. inversion Hg; subst; [lia|].
    match goal with
    | H : gathers _ _ _ _ _ _ _ _ |- _ =>
        pose proof (gathers_grows _ _ _ _ _ _ _ _ H) as (_ & Hl & _)
    end.
    lia.
Qed.

Lemma forward_collect_walk_witness :
  exists m',
    forward_collect 2 free_pair_heap 4148 0 100 = Some (4100, 48, m') /\
    4100 + 48 = 4148 /\
    (forall a, a < 4100 \/ 4148 <= a ->
       READ_WORD m' a = READ_WORD free_pair_heap a) /\
    (100 <= 48 + GET_SIZE free_pair_heap 4148 \/
     GET_PREV_ALLOC free_pair_heap 4100 <> 0) /\
    ((0 < 1)%nat ->
     GET_SIZE m' 4100 = 48 /\
     READ_WORD m' (4148 - WSIZE) = READ_WORD m' 4100).
Proof.
  apply (forward_collect_walk 2 1 free_pair_heap 4148 0 100 4100 48).
  - reflexivity.
  - reflexivity.
  - apply gathers_step.
    + reflexivity.
    + reflexivity.
    + reflexivity.
    + reflexivity.
    + apply gathers_stop. intros (_ & H). discriminate H.
  - lia.
  - reflexivity.
Defined.

End ForwardCollect.
